(** * designspaceLib: axis normalisation, rule engine, default finder, writer

    A shallow embedding of [Lib/ufoProcessor/designspaceLib.py].

    Modelling conventions.
    - Python numbers (int and float alike) are exact rationals in canonical
      form, [Qc]: Python's [==] on numbers is then Leibniz equality, and dict
      equality is equality of finite maps.
    - A Python [dict] keyed by strings whose iteration order is irrelevant to
      the code is a [gmap string _]; where the order is observable (the glyph
      table of an instance, XML attributes and children) it is a list.
    - A raised exception is the [Err] branch of [result]; the exception
      classes that the modelled code can raise are the constructors of [exn].
    - An attribute or dict entry that may hold [None] is an [option]. *)

From Stdlib Require Import QArith Qcanon Qabs Decimal DecimalString DecimalN DecimalZ.
From Stdlib Require HexadecimalString DecimalPos.
From Stdlib Require Import Lqa.
From stdpp Require Import base numbers option list strings gmap fin_maps sorting.

Local Open Scope string_scope.
Local Open Scope list_scope.
Local Open Scope Qc_scope.

(** ** Exceptions and the error monad *)

Inductive exn : Set :=
| KeyError
| TypeError
| IndexError
| AttributeError
| ZeroDivisionError.

Global Instance exn_eq_dec : EqDecision exn.
Proof. solve_decision. Defined.

Inductive result (A : Type) : Type :=
| Ok (a : A)
| Err (e : exn).
Arguments Ok {A} a.
Arguments Err {A} e.

Global Instance result_ret : MRet result := λ A a, Ok a.
Global Instance result_bind : MBind result := λ A B k r,
  match r with
  | Ok a => k a
  | Err e => Err e
  end.

Definition raises {A : Type} (r : result A) : Prop :=
  match r with Ok _ => False | Err _ => True end.

(** [for x in l: acc = f(acc, x)], stopping at the first exception. *)
Fixpoint foldM {A S : Type} (f : S → A → result S) (s : S) (l : list A)
  : result S :=
  match l with
  | [] => Ok s
  | x :: l' => s' ← f s x ; foldM f s' l'
  end.

(** [[f(x) for x in l]], stopping at the first exception. *)
Fixpoint mapM {A B : Type} (f : A → result B) (l : list A) : result (list B) :=
  match l with
  | [] => Ok []
  | x :: l' => y ← f x ; ys ← mapM f l' ; Ok (y :: ys)
  end.

(** ** Numbers *)

Definition int (z : Z) : Qc := Qc_of_Z z.
Definition frac (n : Z) (d : positive) : Qc := Q2Qc (n # d).

(** Python's two-argument [max] and [min] keep the first argument unless the
    second is strictly larger (resp. smaller). *)
Definition py_max (a b : Qc) : Qc := if decide (a < b) then b else a.
Definition py_min (a b : Qc) : Qc := if decide (b < a) then b else a.

(** True division; Python raises on a zero divisor. *)
Definition py_div (a b : Qc) : result Qc :=
  if decide (b = 0) then Err ZeroDivisionError else Ok (a / b).

(** ** Locations *)

(** A dimension value is a number or an anisotropic [(x, y)] tuple. *)
Inductive value : Type :=
| Num (x : Qc)
| Pair (x y : Qc).

Global Instance value_eq_dec : EqDecision value.
Proof. solve_decision. Defined.

Abbreviation Location := (gmap string value).

(** ** Axes *)

Module AxisDescriptor.
Record t : Type := mk {
  tag : string;
  name : string;
  minimum : Qc;
  maximum : Qc;
  default : Qc;
  hidden : bool;
  map : list (Qc * Qc)
}.
End AxisDescriptor.

Abbreviation axis := AxisDescriptor.t.

(** The body of the loop of [normalizeLocation] once [v] has been read from
    the location: take the first component of a tuple, then scale around the
    default. *)
Definition normalizeValue (a : axis) (v : value) : result Qc :=
  let v := match v with Num x => x | Pair x _ => x end in
  if decide (v = AxisDescriptor.default a) then Ok 0
  else if decide (v < AxisDescriptor.default a) then
    if decide (AxisDescriptor.default a = AxisDescriptor.minimum a) then Ok 0
    else py_div (py_max v (AxisDescriptor.minimum a) - AxisDescriptor.default a)
                (AxisDescriptor.default a - AxisDescriptor.minimum a)
  else
    if decide (AxisDescriptor.default a = AxisDescriptor.maximum a) then Ok 0
    else py_div (py_min v (AxisDescriptor.maximum a) - AxisDescriptor.default a)
                (AxisDescriptor.maximum a - AxisDescriptor.default a).

(** One iteration of [for axis in self.axes] in [normalizeLocation]:
    [continue] when the axis name is not a key, else [new[axis.name] = v]. *)
Definition normalizeLocation_step (location : Location)
    (new : Location) (a : axis) : result Location :=
  if decide (is_Some (location !! AxisDescriptor.name a)) then
    let v := default (Num (AxisDescriptor.default a))
                     (location !! AxisDescriptor.name a) in
    v' ← normalizeValue a v;
    Ok (<[AxisDescriptor.name a := Num v']> new)
  else Ok new.

Definition normalizeLocation (axes : list axis) (location : Location)
  : result Location :=
  foldM (normalizeLocation_step location) ∅ axes.

(** A stored location attribute may be [None]; then [axis.name in location]
    raises as soon as the loop body runs once. *)
Definition normalizeLocation_attr (axes : list axis) (location : option Location)
  : result Location :=
  match location with
  | Some l => normalizeLocation axes l
  | None => match axes with [] => Ok ∅ | _ :: _ => Err TypeError end
  end.

(** ** Rules *)

(** A condition is [dict(name=..., minimum=..., maximum=...)]; a bound that
    is [None] (or whose key is missing, which [cd.get] does not tell apart)
    is [None] here. *)
Module Condition.
Record t : Type := mk {
  name : string;
  minimum : option Qc;
  maximum : option Qc
}.
End Condition.

Abbreviation condition := Condition.t.

Module RuleDescriptor.
Record t : Type := mk {
  name : option string;
  conditionSets : list (list condition);
  subs : list (string * string)
}.
End RuleDescriptor.

Abbreviation rule := RuleDescriptor.t.

(** Operands of an ordering comparison ([<], [<=], [>]). Python 3 refuses
    to order a number against a tuple or against [None]. *)
Definition ordered_value (v : value) : result Qc :=
  match v with
  | Num x => Ok x
  | Pair _ _ => Err TypeError
  end.

Definition ordered_bound (b : option Qc) : result Qc :=
  match b with
  | Some x => Ok x
  | None => Err TypeError
  end.

(** [location[key]] *)
Definition getitem {V : Type} (d : gmap string V) (key : string) : result V :=
  match d !! key with
  | Some v => Ok v
  | None => Err KeyError
  end.

(** The [if]/[elif]/[elif] made on one condition; [false] stands for the
    [return False] of the branch taken, [true] for falling through to the
    next condition. *)
Definition evaluateCondition (cd : condition) (value : value) : result bool :=
  match Condition.minimum cd, Condition.maximum cd with
  | None, mx =>
      (* value > cd['maximum'] *)
      x ← ordered_value value;
      b ← ordered_bound mx;
      Ok (negb (bool_decide (b < x)))
  | Some mn, None =>
      (* cd['minimum'] > value *)
      x ← ordered_value value;
      Ok (negb (bool_decide (x < mn)))
  | Some mn, Some mx =>
      (* not cd['minimum'] <= value <= cd['maximum'] *)
      x ← ordered_value value;
      Ok (negb (negb (bool_decide (mn ≤ x) && bool_decide (x ≤ mx))))
  end.

Fixpoint evaluateConditions (conditions : list condition) (location : Location)
  : result bool :=
  match conditions with
  | [] => Ok true
  | cd :: rest =>
      value ← getitem location (Condition.name cd);
      ok ← evaluateCondition cd value;
      if ok : bool then evaluateConditions rest location else Ok false
  end.

(** [any(evaluateConditions(c, location) for c in rule.conditionSets)] *)
Fixpoint any_conditionSet (sets : list (list condition)) (location : Location)
  : result bool :=
  match sets with
  | [] => Ok false
  | c :: rest =>
      b ← evaluateConditions c location;
      if b : bool then Ok true else any_conditionSet rest location
  end.

Definition evaluateRule (r : rule) (location : Location) : result bool :=
  any_conditionSet (RuleDescriptor.conditionSets r) location.

(** [for a, b in rule.subs: if name == a: swap = True; break].
    The result is [Some b] when the loop was left by [break] ([swap] is then
    [True] and [b] is the second element of the pair that matched), and
    [None] when it ran to its end ([swap] stays [False]). *)
Fixpoint subs_loop (name : string) (subs : list (string * string))
  : option string :=
  match subs with
  | [] => None
  | (a, b) :: rest => if decide (name = a) then Some b else subs_loop name rest
  end.

(** [for name in glyphNames: ... newNames.append(...)] *)
Fixpoint names_loop (subs : list (string * string)) (glyphNames : list string)
    (newNames : list string) : list string :=
  match glyphNames with
  | [] => newNames
  | name :: rest =>
      match subs_loop name subs with
      | Some b => names_loop subs rest (newNames ++ [b])
      | None => names_loop subs rest (newNames ++ [name])
      end
  end.

(** The state of [processRules] between two rules is the pair
    [(glyphNames, newNames)]. *)
Definition processRules_step (location : Location)
    (st : list string * list string) (r : rule)
  : result (list string * list string) :=
  let '(glyphNames, newNames) := st in
  matches ← evaluateRule r location;
  if matches : bool then
    let newNames := names_loop (RuleDescriptor.subs r) glyphNames newNames in
    Ok (newNames, [])
  else Ok (glyphNames, newNames).

Definition processRules (rules : list rule) (location : Location)
    (glyphNames : list string) : result (list string) :=
  st ← foldM (processRules_step location) (glyphNames, []) rules;
  Ok st.1.

(** ** Sources, instances and the document *)

(** Not modelled in the descriptors: [path] and [font] (file-system and
    in-memory font handles), the localised names and the [lib] plists. None
    of them is read or written by the functions embedded below, apart from
    their own XML elements in the writer. *)
Module SourceDescriptor.
Record t : Type := mk {
  filename : option string;
  name : option string;
  location : option Location;
  layerName : option string;
  copyLib : bool;
  copyInfo : bool;
  copyGroups : bool;
  copyFeatures : bool;
  muteKerning : bool;
  muteInfo : bool;
  mutedGlyphNames : list string;
  familyName : option string;
  styleName : option string
}.

Definition set_location (s : t) (l : option Location) : t :=
  mk (filename s) (name s) l (layerName s) (copyLib s) (copyInfo s)
     (copyGroups s) (copyFeatures s) (muteKerning s) (muteInfo s)
     (mutedGlyphNames s) (familyName s) (styleName s).
End SourceDescriptor.

Abbreviation source := SourceDescriptor.t.

(** One entry of [glyphData['masters']], built by the reader as
    [dict(font=..., location=..., glyphName=...)]: the three keys are always
    there, and each may hold [None]. *)
Module GlyphMaster.
Record t : Type := mk {
  font : option string;
  location : option Location;
  glyphName : option string
}.

Definition set_location (m : t) (l : option Location) : t :=
  mk (font m) l (glyphName m).
End GlyphMaster.

Abbreviation glyphMaster := GlyphMaster.t.

(** The per-glyph dict of an instance. Every key is optional: [None] stands
    for a key that is absent ([mute] absent is [false]). *)
Module GlyphData.
Record t : Type := mk {
  mute : bool;
  unicodes : option (list N);
  note : option string;
  instanceLocation : option Location;
  masters : option (list glyphMaster)
}.

Definition set_instanceLocation (g : t) (l : option Location) : t :=
  mk (mute g) (unicodes g) (note g) l (masters g).
Definition set_masters (g : t) (ms : option (list glyphMaster)) : t :=
  mk (mute g) (unicodes g) (note g) (instanceLocation g) ms.
End GlyphData.

Abbreviation glyphData := GlyphData.t.

Module InstanceDescriptor.
Record t : Type := mk {
  filename : option string;
  name : option string;
  location : option Location;
  familyName : option string;
  styleName : option string;
  postScriptFontName : option string;
  styleMapFamilyName : option string;
  styleMapStyleName : option string;
  glyphs : list (string * glyphData);
  kerning : bool;
  info : bool
}.

Definition set_location (i : t) (l : option Location) : t :=
  mk (filename i) (name i) l (familyName i) (styleName i)
     (postScriptFontName i) (styleMapFamilyName i) (styleMapStyleName i)
     (glyphs i) (kerning i) (info i).
Definition set_glyphs (i : t) (gs : list (string * glyphData)) : t :=
  mk (filename i) (name i) (location i) (familyName i) (styleName i)
     (postScriptFontName i) (styleMapFamilyName i) (styleMapStyleName i)
     gs (kerning i) (info i).
End InstanceDescriptor.

Abbreviation instance := InstanceDescriptor.t.

Module DesignSpaceDocument.
Record t : Type := mk {
  sources : list source;
  instances : list instance;
  axes : list axis;
  rules : list rule;
  default : option source;
  defaultLoc : option Location
}.

Definition set_default (d : t) (s : option source) : t :=
  mk (sources d) (instances d) (axes d) (rules d) s (defaultLoc d).
End DesignSpaceDocument.

Abbreviation document := DesignSpaceDocument.t.

(** [newDefaultLocation]: an ordered dict filled in axis order. The order of
    its keys is the order of first insertion; [odict] keeps it next to the
    mapping. *)
Record odict : Type := mk_odict {
  od_keys : list string;
  od_map : Location
}.

Definition odict_empty : odict := mk_odict [] ∅.

(** [d[k] = v] *)
Definition odict_set (k : string) (v : value) (d : odict) : odict :=
  mk_odict (if decide (k ∈ od_keys d) then od_keys d else od_keys d ++ [k])
           (<[k := v]> (od_map d)).

(** [d.items()] *)
Definition odict_items (d : odict) : list (string * value) :=
  omap (λ k, (λ v, (k, v)) <$> (od_map d !! k)) (od_keys d).

Definition newDefaultLocation (axes : list axis) : odict :=
  foldl (λ loc a, odict_set (AxisDescriptor.name a)
                            (Num (AxisDescriptor.default a)) loc)
        odict_empty axes.

(** ** findDefault *)

(** The first loop: [if sourceDescriptor.location == self.defaultLoc]. *)
Fixpoint findDefault_byLocation (defaultLoc : option Location)
    (sources : list source) : option source :=
  match sources with
  | [] => None
  | s :: rest =>
      if decide (SourceDescriptor.location s = defaultLoc) then Some s
      else findDefault_byLocation defaultLoc rest
  end.

(** The second loop: [if sourceDescriptor.copyInfo]. *)
Fixpoint findDefault_byCopyInfo (sources : list source) : option source :=
  match sources with
  | [] => None
  | s :: rest =>
      if SourceDescriptor.copyInfo s then Some s
      else findDefault_byCopyInfo rest
  end.

(** [findDefault] returns the updated document and the method's result.
    The final [warnings.warn] leaves no trace in either. *)
Definition findDefault (self : document) : document * option source :=
  let self := DesignSpaceDocument.set_default self None in
  match findDefault_byLocation (DesignSpaceDocument.defaultLoc self)
                               (DesignSpaceDocument.sources self) with
  | Some s => (DesignSpaceDocument.set_default self (Some s), Some s)
  | None =>
      match findDefault_byCopyInfo (DesignSpaceDocument.sources self) with
      | Some s => (DesignSpaceDocument.set_default self (Some s), Some s)
      | None => (self, None)
      end
  end.

(** ** normalize *)

(** [d[key]] on a dict entry modelled as an optional field. *)
Definition getkey {A : Type} (o : option A) : result A :=
  match o with
  | Some x => Ok x
  | None => Err KeyError
  end.

Definition normalize_source (axes : list axis) (item : source) : result source :=
  loc ← normalizeLocation_attr axes (SourceDescriptor.location item);
  Ok (SourceDescriptor.set_location item (Some loc)).

Definition normalize_glyphMaster (axes : list axis) (m : glyphMaster)
  : result glyphMaster :=
  loc ← normalizeLocation_attr axes (GlyphMaster.location m);
  Ok (GlyphMaster.set_location m (Some loc)).

(** The body of [for name, glyphData in item.glyphs.items()]. *)
Definition normalize_glyphData (axes : list axis) (g : glyphData)
  : result glyphData :=
  il ← getkey (GlyphData.instanceLocation g);
  il' ← normalizeLocation axes il;
  let g := GlyphData.set_instanceLocation g (Some il') in
  ms ← getkey (GlyphData.masters g);
  ms' ← mapM (normalize_glyphMaster axes) ms;
  Ok (GlyphData.set_masters g (Some ms')).

Definition normalize_instance (axes : list axis) (item : instance)
  : result instance :=
  gs ← mapM (λ ng : string * glyphData,
               g' ← normalize_glyphData axes ng.2; Ok (ng.1, g'))
            (InstanceDescriptor.glyphs item);
  let item := InstanceDescriptor.set_glyphs item gs in
  loc ← normalizeLocation_attr axes (InstanceDescriptor.location item);
  Ok (InstanceDescriptor.set_location item (Some loc)).

(** [self.normalizeLocation({name: v}).get(name)] *)
Definition normalizeSingle (axes : list axis) (name : string) (v : Qc)
  : result (option Qc) :=
  new ← normalizeLocation axes {[ name := Num v ]};
  Ok (match new !! name with
      | Some (Num x) => Some x
      | _ => None
      end).

(** In the axis loop the looked-up name is the name of an axis of
    [self.axes], so [.get] cannot answer [None] (lemma
    [normalizeSingle_declared]); the model's axis fields are numbers, and the
    impossible [None] is an error here. *)
Definition normalizeOwn (axes : list axis) (name : string) (v : Qc)
  : result Qc :=
  o ← normalizeSingle axes name v;
  match o with
  | Some x => Ok x
  | None => Err TypeError
  end.

Definition set_map (a : axis) (m : list (Qc * Qc)) : axis :=
  AxisDescriptor.mk (AxisDescriptor.tag a) (AxisDescriptor.name a)
    (AxisDescriptor.minimum a) (AxisDescriptor.maximum a)
    (AxisDescriptor.default a) (AxisDescriptor.hidden a) m.

Definition set_bounds (a : axis) (minimum maximum default : Qc) : axis :=
  AxisDescriptor.mk (AxisDescriptor.tag a) (AxisDescriptor.name a)
    minimum maximum default (AxisDescriptor.hidden a) (AxisDescriptor.map a).

(** The body of [for axis in self.axes], for the axis at position [i].
    The axis objects are updated in place while [normalizeLocation] keeps
    reading [self.axes]: the list [axes] threaded here is that shared state. *)
Definition normalize_axis (axes : list axis) (i : nat) : result (list axis) :=
  match axes !! i with
  | None => Ok axes
  | Some a =>
      newMap ← mapM (λ io : Qc * Qc,
                       newOutputValue ← normalizeOwn axes (AxisDescriptor.name a) io.2;
                       Ok (io.1, newOutputValue))
                    (AxisDescriptor.map a);
      let a := match newMap with [] => a | _ :: _ => set_map a newMap end in
      let axes := <[i := a]> axes in
      minimum ← normalizeOwn axes (AxisDescriptor.name a) (AxisDescriptor.minimum a);
      maximum ← normalizeOwn axes (AxisDescriptor.name a) (AxisDescriptor.maximum a);
      default ← normalizeOwn axes (AxisDescriptor.name a) (AxisDescriptor.default a);
      Ok (<[i := set_bounds a minimum maximum default]> axes)
  end.

Definition normalize_axes (axes : list axis) : result (list axis) :=
  foldM normalize_axis axes (seq 0 (length axes)).

Definition normalize_bound (axes : list axis) (name : string) (b : option Qc)
  : result (option Qc) :=
  match b with
  | Some x => normalizeSingle axes name x
  | None => Ok None
  end.

Definition normalize_condition (axes : list axis) (cond : condition)
  : result condition :=
  minimum ← normalize_bound axes (Condition.name cond) (Condition.minimum cond);
  maximum ← normalize_bound axes (Condition.name cond) (Condition.maximum cond);
  Ok (Condition.mk (Condition.name cond) minimum maximum).

Definition normalize_rule (axes : list axis) (r : rule) : result rule :=
  newConditionSets ← mapM (mapM (normalize_condition axes))
                          (RuleDescriptor.conditionSets r);
  Ok (RuleDescriptor.mk (RuleDescriptor.name r) newConditionSets
                        (RuleDescriptor.subs r)).

(** [normalize]: sources, then instances, then axes, then rules (which are
    therefore scaled against the axes as already rewritten). *)
Definition normalize (self : document) : result document :=
  let axes := DesignSpaceDocument.axes self in
  sources ← mapM (normalize_source axes) (DesignSpaceDocument.sources self);
  instances ← mapM (normalize_instance axes) (DesignSpaceDocument.instances self);
  axes' ← normalize_axes axes;
  rules ← mapM (normalize_rule axes') (DesignSpaceDocument.rules self);
  Ok (DesignSpaceDocument.mk sources instances axes' rules
        (DesignSpaceDocument.default self) (DesignSpaceDocument.defaultLoc self)).

(** ** The writer *)

(** An [ElementTree] element: tag, attributes in order of assignment, text,
    children. The white space that [_indent] puts into [text] and [tail],
    and the final serialisation to a file, are not modelled. *)
#[warnings="-register-all"]
Inductive element : Type :=
| Element (tag : string) (attrib : list (string * string))
          (text : option string) (children : list element).

Definition tag (e : element) : string :=
  match e with Element t _ _ _ => t end.
Definition attrib (e : element) : list (string * string) :=
  match e with Element _ a _ _ => a end.
Definition text (e : element) : option string :=
  match e with Element _ _ t _ => t end.
Definition children (e : element) : list element :=
  match e with Element _ _ _ c => c end.

(** [ET.Element(tag)] *)
Definition new_element (t : string) : element := Element t [] None [].

(** [e.attrib[k] = v], for a key not assigned before. *)
Definition set_attrib (k v : string) (e : element) : element :=
  match e with Element t a tx c => Element t (a ++ [(k, v)]) tx c end.

(** [if v is not None: e.attrib[k] = v] *)
Definition set_attrib_opt (k : string) (v : option string) (e : element)
  : element :=
  match v with
  | Some v => set_attrib k v e
  | None => e
  end.

Definition set_text (s : string) (e : element) : element :=
  match e with Element t a _ c => Element t a (Some s) c end.

(** [e.append(child)] *)
Definition append (child : element) (e : element) : element :=
  match e with Element t a tx c => Element t a tx (c ++ [child]) end.

(** [len(e)]: the number of children. *)
Definition len (e : element) : nat := length (children e).

(** [root.findall('.' + t)[0].append(child)]: the first child of [root]
    tagged [t] receives [child]; there being none is an [IndexError]. *)
Fixpoint append_to_first (t : string) (child : element) (l : list element)
  : option (list element) :=
  match l with
  | [] => None
  | e :: rest =>
      if decide (tag e = t) then Some (append child e :: rest)
      else cons e <$> append_to_first t child rest
  end.

Definition findall0_append (t : string) (child : element) (root : element)
  : result element :=
  match root with
  | Element rt a tx c =>
      match append_to_first t child c with
      | Some c' => Ok (Element rt a tx c')
      | None => Err IndexError
      end
  end.

(** *** Number formatting *)

(** [int(num)]: truncation towards zero. *)
Definition py_int (num : Qc) : Z := Z.quot (Qnum num) (Z.pos (Qden num)).

(** ["%d" % z] *)
Definition format_d (z : Z) : string := NilZero.string_of_int (Z.to_int z).

(** The integer nearest to a non-negative rational, ties to even. *)
Definition round_half_even (q : Q) : Z :=
  let n := Qnum q in
  let d := Z.pos (Qden q) in
  let fl := (n / d)%Z in
  let r2 := (2 * (n mod d))%Z in
  if (r2 <? d)%Z then fl
  else if (d <? r2)%Z then (fl + 1)%Z
  else if Z.even fl then fl else (fl + 1)%Z.

(** [|num|] in millionths, rounded. *)
Definition millionths (num : Qc) : Z :=
  round_half_even (Qabs num * inject_Z 1000000)%Q.

(** The decimal digit [d] put in front of the digits [u]. *)
Definition digit (d : Z) (u : Decimal.uint) : Decimal.uint :=
  if (d =? 0)%Z then Decimal.D0 u
  else if (d =? 1)%Z then Decimal.D1 u
  else if (d =? 2)%Z then Decimal.D2 u
  else if (d =? 3)%Z then Decimal.D3 u
  else if (d =? 4)%Z then Decimal.D4 u
  else if (d =? 5)%Z then Decimal.D5 u
  else if (d =? 6)%Z then Decimal.D6 u
  else if (d =? 7)%Z then Decimal.D7 u
  else if (d =? 8)%Z then Decimal.D8 u
  else Decimal.D9 u.

(** The six decimal digits of [n < 10^6], zeros included. *)
Definition six_digits_uint (n : Z) : Decimal.uint :=
  digit (n / 100000 mod 10)
    (digit (n / 10000 mod 10)
       (digit (n / 1000 mod 10)
          (digit (n / 100 mod 10)
             (digit (n / 10 mod 10)
                (digit (n mod 10) Decimal.Nil)))))%Z.

Definition six_digits (n : Z) : string :=
  NilEmpty.string_of_uint (six_digits_uint n).

(** ["%f" % num]: sign, integer part, point, six decimals. *)
Definition format_f (num : Qc) : string :=
  let m := millionths num in
  (if decide (num < 0) then "-" else "")
  +:+ NilZero.string_of_uint (N.to_uint (Z.to_N (m / 1000000)))
  +:+ "." +:+ six_digits (m mod 1000000).

Definition intOrFloat (num : Qc) : string :=
  if decide (int (py_int num) = num) then format_d (py_int num)
  else format_f num.

(** *** Locations *)

(** [for axisName, axisValue in locationObject.items():
        if axisName in validatedLocation: validatedLocation[axisName] = axisValue] *)
Definition validate_item (axisName : string) (axisValue : value)
    (validatedLocation : odict) : odict :=
  if decide (is_Some (od_map validatedLocation !! axisName))
  then odict_set axisName axisValue validatedLocation
  else validatedLocation.

Definition validatedLocation (axes : list axis) (locationObject : Location)
  : odict :=
  map_fold validate_item (newDefaultLocation axes) locationObject.

Definition dimensionElement (dim : string * value) : element :=
  let dimElement := set_attrib "name" dim.1 (new_element "dimension") in
  match dim.2 with
  | Pair x y =>
      set_attrib "yvalue" (intOrFloat y)
        (set_attrib "xvalue" (intOrFloat x) dimElement)
  | Num x => set_attrib "xvalue" (intOrFloat x) dimElement
  end.

(** [_makeLocationElement]: the element and the validated location, which
    every caller stores back in place of [locationObject]. *)
Definition _makeLocationElement (axes : list axis)
    (locationObject : option Location) (name : option string)
  : result (element * Location) :=
  let locElement := set_attrib_opt "name" name (new_element "location") in
  match locationObject with
  | None => Err AttributeError
  | Some locationObject =>
      let validated := validatedLocation axes locationObject in
      let locElement :=
        foldl (λ e dim, append (dimensionElement dim) e) locElement
              (odict_items validated) in
      Ok (locElement, od_map validated)
  end.

(** *** Rules *)

Definition has_bound (cond : condition) : bool :=
  negb (bool_decide (Condition.minimum cond = None)
        && bool_decide (Condition.maximum cond = None)).

(** The body of [for cond in conditions]. *)
Definition _addRule_condition (conditionsetElement : element) (cond : condition)
  : element :=
  if bool_decide (Condition.minimum cond = None)
     && bool_decide (Condition.maximum cond = None)
  then conditionsetElement
  else
    let conditionElement :=
      set_attrib "name" (Condition.name cond) (new_element "condition") in
    let conditionElement :=
      set_attrib_opt "minimum" (intOrFloat <$> Condition.minimum cond)
                     conditionElement in
    let conditionElement :=
      set_attrib_opt "maximum" (intOrFloat <$> Condition.maximum cond)
                     conditionElement in
    append conditionElement conditionsetElement.

(** The body of [for conditions in ruleObject.conditionSets]. *)
Definition _addRule_conditionset (ruleElement : element)
    (conditions : list condition) : element :=
  let conditionsetElement :=
    foldl _addRule_condition (new_element "conditionset") conditions in
  if decide (len conditionsetElement = 0%nat) then ruleElement
  else append conditionsetElement ruleElement.

Definition _addRule_sub (ruleElement : element) (sub : string * string)
  : element :=
  append (set_attrib "with" sub.2 (set_attrib "name" sub.1 (new_element "sub")))
         ruleElement.

(** The rule element built by [_addRule], before the final [len] test. *)
Definition ruleElement (ruleObject : rule) : element :=
  let e := set_attrib_opt "name" (RuleDescriptor.name ruleObject)
                          (new_element "rule") in
  let e := foldl _addRule_conditionset e (RuleDescriptor.conditionSets ruleObject) in
  foldl _addRule_sub e (RuleDescriptor.subs ruleObject).

Definition _addRule (ruleObject : rule) (root : element) : result element :=
  let e := ruleElement ruleObject in
  if decide (len e = 0%nat) then Ok root
  else findall0_append "rules" e root.

(** *** Axes *)

Definition mapElement (io : Qc * Qc) : element :=
  set_attrib "output" (intOrFloat io.2)
    (set_attrib "input" (intOrFloat io.1) (new_element "map")).

Definition axisElement (axisObject : axis) : element :=
  let e := set_attrib "tag" (AxisDescriptor.tag axisObject) (new_element "axis") in
  let e := set_attrib "name" (AxisDescriptor.name axisObject) e in
  let e := set_attrib "minimum" (intOrFloat (AxisDescriptor.minimum axisObject)) e in
  let e := set_attrib "maximum" (intOrFloat (AxisDescriptor.maximum axisObject)) e in
  let e := set_attrib "default" (intOrFloat (AxisDescriptor.default axisObject)) e in
  let e := if AxisDescriptor.hidden axisObject then set_attrib "hidden" "1" e else e in
  foldl (λ e io, append (mapElement io) e) e (AxisDescriptor.map axisObject).

Definition _addAxis (axisObject : axis) (root : element) : result element :=
  findall0_append "axes" (axisElement axisObject) root.

(** *** Sources *)

Definition flagElement (t k : string) : element :=
  set_attrib k "1" (new_element t).

(** [_addSource]: the source element, and the source with its location
    replaced by the validated one. *)
Definition _addSource (axes : list axis) (sourceObject : source)
  : result (element * source) :=
  let e := new_element "source" in
  let e := set_attrib_opt "filename" (SourceDescriptor.filename sourceObject) e in
  let e := match SourceDescriptor.name sourceObject with
           | Some n =>
               (* sourceObject.name.find("temp_master") != 0 *)
               if String.prefix "temp_master" n then e else set_attrib "name" n e
           | None => e
           end in
  let e := set_attrib_opt "familyname" (SourceDescriptor.familyName sourceObject) e in
  let e := set_attrib_opt "stylename" (SourceDescriptor.styleName sourceObject) e in
  let e := set_attrib_opt "layer" (SourceDescriptor.layerName sourceObject) e in
  let e := if SourceDescriptor.copyLib sourceObject
           then append (flagElement "lib" "copy") e else e in
  let e := if SourceDescriptor.copyGroups sourceObject
           then append (flagElement "groups" "copy") e else e in
  let e := if SourceDescriptor.copyFeatures sourceObject
           then append (flagElement "features" "copy") e else e in
  let e := if SourceDescriptor.copyInfo sourceObject
              || SourceDescriptor.muteInfo sourceObject
           then
             let infoElement := new_element "info" in
             let infoElement := if SourceDescriptor.copyInfo sourceObject
                                then set_attrib "copy" "1" infoElement
                                else infoElement in
             let infoElement := if SourceDescriptor.muteInfo sourceObject
                                then set_attrib "mute" "1" infoElement
                                else infoElement in
             append infoElement e
           else e in
  let e := if SourceDescriptor.muteKerning sourceObject
           then append (flagElement "kerning" "mute") e else e in
  let e := foldl (λ e name,
                    append (set_attrib "mute" "1"
                              (set_attrib "name" name (new_element "glyph"))) e)
                 e (SourceDescriptor.mutedGlyphNames sourceObject) in
  '(locationElement, validated) ←
     _makeLocationElement axes (SourceDescriptor.location sourceObject) None;
  Ok (append locationElement e,
      SourceDescriptor.set_location sourceObject (Some validated)).

(** *** Instances *)

(** [hex(u)] *)
Definition hex (u : N) : string :=
  "0x" +:+ HexadecimalString.NilZero.string_of_uint (N.to_hex_uint u).

(** [" ".join(l)] *)
Fixpoint join_space (l : list string) : string :=
  match l with
  | [] => ""
  | [s] => s
  | s :: rest => s +:+ " " +:+ join_space rest
  end.

(** The body of [for m in data.get('masters')]. *)
Definition _writeGlyphElement_master (axes : list axis)
    (st : element * list glyphMaster) (m : glyphMaster)
  : result (element * list glyphMaster) :=
  let '(mastersElement, done) := st in
  let masterElement := new_element "master" in
  let masterElement :=
    set_attrib_opt "glyphname" (GlyphMaster.glyphName m) masterElement in
  let masterElement :=
    set_attrib_opt "source" (GlyphMaster.font m) masterElement in
  '(masterElement, m) ←
     match GlyphMaster.location m with
     | Some l =>
         '(locationElement, validated) ← _makeLocationElement axes (Some l) None;
         Ok (append locationElement masterElement,
             GlyphMaster.set_location m (Some validated))
     | None => Ok (masterElement, m)
     end;
  Ok (append masterElement mastersElement, (done ++ [m])%list).

(** [_writeGlyphElement]: the glyph element and the glyph data as left by
    the assignments to [data['instanceLocation']] and [m['location']]. *)
Definition _writeGlyphElement (axes : list axis) (glyphName : string)
    (data : glyphData) : result (element * glyphData) :=
  let e := new_element "glyph" in
  let e := if GlyphData.mute data then set_attrib "mute" "1" e else e in
  let e := set_attrib_opt "unicode"
             ((λ us, join_space (hex <$> us)) <$> GlyphData.unicodes data) e in
  '(e, data) ←
     match GlyphData.instanceLocation data with
     | Some l =>
         '(locationElement, validated) ← _makeLocationElement axes (Some l) None;
         Ok (append locationElement e,
             GlyphData.set_instanceLocation data (Some validated))
     | None => Ok (e, data)
     end;
  let e := set_attrib "name" glyphName e in
  let e := match GlyphData.note data with
           | Some n => append (set_text n (new_element "note")) e
           | None => e
           end in
  match GlyphData.masters data with
  | Some ms =>
      '(mastersElement, ms') ←
         foldM (_writeGlyphElement_master axes) (new_element "masters", []) ms;
      Ok (append mastersElement e, GlyphData.set_masters data (Some ms'))
  | None => Ok (e, data)
  end.

(** The order of [sorted(instanceObject.glyphs.items())]: by glyph name. *)
Definition glyph_le (x y : string * glyphData) : Prop :=
  String.leb x.1 y.1 = true.

Global Instance glyph_le_dec : RelDecision glyph_le.
Proof. intros x y. unfold glyph_le. apply _. Defined.

(** [d[k] = v] on the glyph table, for a key that is there. *)
Definition glyphs_update (k : string) (v : glyphData)
    (gs : list (string * glyphData)) : list (string * glyphData) :=
  (λ ng : string * glyphData, if decide (ng.1 = k) then (k, v) else ng) <$> gs.

(** The body of [for glyphName, data in sorted(...)]: the dicts are changed
    in place, so the glyph table keeps its own order. *)
Definition _addInstance_glyph (axes : list axis)
    (st : element * list (string * glyphData)) (ng : string * glyphData)
  : result (element * list (string * glyphData)) :=
  let '(glyphsElement, gs) := st in
  '(glyphElement, data) ← _writeGlyphElement axes ng.1 ng.2;
  Ok (append glyphElement glyphsElement, glyphs_update ng.1 data gs).

Definition _addInstance (axes : list axis) (instanceObject : instance)
  : result (element * instance) :=
  let e := new_element "instance" in
  let e := set_attrib_opt "name" (InstanceDescriptor.name instanceObject) e in
  let e := set_attrib_opt "familyname" (InstanceDescriptor.familyName instanceObject) e in
  let e := set_attrib_opt "stylename" (InstanceDescriptor.styleName instanceObject) e in
  '(e, instanceObject) ←
     match InstanceDescriptor.location instanceObject with
     | Some l =>
         '(locationElement, validated) ← _makeLocationElement axes (Some l) None;
         Ok (append locationElement e,
             InstanceDescriptor.set_location instanceObject (Some validated))
     | None => Ok (e, instanceObject)
     end;
  let e := set_attrib_opt "filename" (InstanceDescriptor.filename instanceObject) e in
  let e := set_attrib_opt "postscriptfontname"
             (InstanceDescriptor.postScriptFontName instanceObject) e in
  let e := set_attrib_opt "stylemapfamilyname"
             (InstanceDescriptor.styleMapFamilyName instanceObject) e in
  let e := set_attrib_opt "stylemapstylename"
             (InstanceDescriptor.styleMapStyleName instanceObject) e in
  '(e, instanceObject) ←
     match InstanceDescriptor.glyphs instanceObject with
     | [] => Ok (e, instanceObject)
     | gs =>
         '(glyphsElement, gs') ←
            foldM (_addInstance_glyph axes) (new_element "glyphs", gs)
                  (merge_sort glyph_le gs);
         Ok (append glyphsElement e,
             InstanceDescriptor.set_glyphs instanceObject gs')
     end;
  let e := if InstanceDescriptor.kerning instanceObject
           then append (new_element "kerning") e else e in
  let e := if InstanceDescriptor.info instanceObject
           then append (new_element "info") e else e in
  Ok (e, instanceObject).

(** *** write *)

(** The state of the writer: the tree under construction, the two
    bookkeeping lists, and the document whose descriptors it updates. *)
Record writer : Type := mk_writer {
  root : element;
  _axes : list axis;
  _rules : list rule;
  documentObject : document
}.

(** [if l: self.root.append(ET.Element(t))] *)
Definition open_section {A : Type} (t : string) (l : list A) (root : element)
  : element :=
  match l with
  | [] => root
  | _ :: _ => append (new_element t) root
  end.

Definition write_axes (axes : list axis) (root : element) : result element :=
  foldM (λ root a, _addAxis a root) (open_section "axes" axes root) axes.

Definition write_rules (rules : list rule) (root : element) : result element :=
  foldM (λ root r, _addRule r root) (open_section "rules" rules root) rules.

Definition write_source (axes : list axis) (st : element * list source)
    (sourceObject : source) : result (element * list source) :=
  '(sourceElement, sourceObject) ← _addSource axes sourceObject;
  root ← findall0_append "sources" sourceElement st.1;
  Ok (root, (st.2 ++ [sourceObject])%list).

Definition write_sources (axes : list axis) (sources : list source)
    (root : element) : result (element * list source) :=
  foldM (write_source axes) (open_section "sources" sources root, []) sources.

Definition write_instance (axes : list axis) (st : element * list instance)
    (instanceObject : instance) : result (element * list instance) :=
  '(instanceElement, instanceObject) ← _addInstance axes instanceObject;
  root ← findall0_append "instances" instanceElement st.1;
  Ok (root, (st.2 ++ [instanceObject])%list).

Definition write_instances (axes : list axis) (instances : list instance)
    (root : element) : result (element * list instance) :=
  foldM (write_instance axes) (open_section "instances" instances root, [])
        instances.

(** [BaseDocWriter(path, doc).write()], reached from
    [DesignSpaceDocument.write]: the state of the writer when it is done.
    Left out, as they touch neither a location nor a rule: [updatePaths]
    (which only recomputes [filename] attributes), the document [lib]
    element, the indentation and the serialisation of the tree. *)
Definition write (self : document) : result writer :=
  let axes := DesignSpaceDocument.axes self in
  let rules := DesignSpaceDocument.rules self in
  let root := set_attrib "format" "4.0" (new_element "designspace") in
  root ← write_axes axes root;
  root ← write_rules rules root;
  '(root, sources) ← write_sources axes (DesignSpaceDocument.sources self) root;
  '(root, instances) ← write_instances axes (DesignSpaceDocument.instances self) root;
  Ok (mk_writer root axes rules
        (DesignSpaceDocument.mk sources instances axes rules
           (DesignSpaceDocument.default self)
           (DesignSpaceDocument.defaultLoc self))).

(** ** Definitions used by the statements *)

(** The number that [normalizeLocation] works on: a tuple stands for its
    first component. *)
Definition scalar (v : value) : Qc :=
  match v with Num x => x | Pair x _ => x end.

(** [normalizeValue] never raises (lemma [normalizeValue_Ok]); this is its
    value. *)
Definition normalized (a : axis) (v : value) : Qc :=
  match normalizeValue a v with
  | Ok x => x
  | Err _ => 0
  end.

(** The axis that decides the entry of name [n]: the last one so named. *)
Fixpoint last_axis (n : string) (axes : list axis) : option axis :=
  match axes with
  | [] => None
  | a :: rest =>
      match last_axis n rest with
      | Some b => Some b
      | None => if decide (AxisDescriptor.name a = n) then Some a else None
      end
  end.

(** [clamp(value, lo, hi)] as the specification words it. *)
Definition clamp (v lo hi : Qc) : Qc :=
  if decide (v < lo) then lo else if decide (hi < v) then hi else v.

(** A sample axis: weight from 0 to 1000, default 400. *)
Definition weight_axis : axis :=
  AxisDescriptor.mk "wght" "weight" (int 0) (int 1000) (int 400) false [].

(** The replacement that one rule makes at one position, in the words of the
    specification: the second element of the first pair of [subs] whose first
    element is the name, and the name itself when there is no such pair. *)
Definition substitute (subs : list (string * string)) (name : string) : string :=
  match list_find (λ ab : string * string, name = ab.1) subs with
  | Some (_, (_, b)) => b
  | None => name
  end.

(** [processRules] in the words of the specification: the rules in list
    order, each matching rule rewriting every position in one pass, the output
    of a rule being the input of the next. *)
Fixpoint processRules_spec (rules : list rule) (location : Location)
    (names : list string) : result (list string) :=
  match rules with
  | [] => Ok names
  | r :: rest =>
      matches ← evaluateRule r location;
      processRules_spec rest location
        (if matches : bool then substitute (RuleDescriptor.subs r) <$> names
         else names)
  end.

(** The rule of the specification's scenario: weight within [250, 750],
    [a] replaced by [a.alt]. *)
Definition scenario_rule : rule :=
  RuleDescriptor.mk None
    [[Condition.mk "weight" (Some (int 250)) (Some (int 750))]]
    [("a", "a.alt")].

(** What a condition demands of the value [x] of its axis: each bound that
    is given, and nothing for a bound that is absent. *)
Definition condition_holds (cd : condition) (x : Qc) : Prop :=
  (∀ mn, Condition.minimum cd = Some mn → mn ≤ x) ∧
  (∀ mx, Condition.maximum cd = Some mx → x ≤ mx).

(** A condition as the reader builds it from [<condition name="weight"/>]. *)
Definition unbounded_condition : condition := Condition.mk "weight" None None.

(** The location with every axis at its default, as a plain mapping: what
    the reader stores in [defaultLoc]. *)
Definition allDefaults (axes : list axis) : Location :=
  od_map (newDefaultLocation axes).

(** [s] is the first element of [l] that satisfies [P]. *)
Definition first_such {A : Type} (P : A → Prop) (l : list A) (s : A) : Prop :=
  ∃ pre post, l = (pre ++ s :: post)%list ∧ P s ∧ Forall (λ x, ¬ P x) pre.

(** A source with only a name, a location and the [copyInfo] flag set. *)
Definition plain_source (name : string) (location : Location) (copyInfo : bool)
  : source :=
  SourceDescriptor.mk None (Some name) (Some location) None false copyInfo
    false false false false [] None None.


(** What [normalize] makes of one axis when axis names are unique: every
    number of the axis is scaled by the axis as it was, map inputs excepted. *)
Definition normalized_axis (a : axis) : axis :=
  AxisDescriptor.mk (AxisDescriptor.tag a) (AxisDescriptor.name a)
    (normalized a (Num (AxisDescriptor.minimum a)))
    (normalized a (Num (AxisDescriptor.maximum a)))
    (normalized a (Num (AxisDescriptor.default a)))
    (AxisDescriptor.hidden a)
    ((λ io : Qc * Qc, (io.1, normalized a (Num io.2))) <$> AxisDescriptor.map a).

(** Every location stored in the document is a mapping, none is [None]. *)
Definition masters_located (g : glyphData) : Prop :=
  match GlyphData.masters g with
  | Some ms => Forall (λ m, is_Some (GlyphMaster.location m)) ms
  | None => True
  end.

Definition instance_located (i : instance) : Prop :=
  is_Some (InstanceDescriptor.location i)
  ∧ Forall (λ ng : string * glyphData, masters_located ng.2)
           (InstanceDescriptor.glyphs i).

Definition locations_set (self : document) : Prop :=
  Forall (λ s, is_Some (SourceDescriptor.location s))
         (DesignSpaceDocument.sources self)
  ∧ Forall instance_located (DesignSpaceDocument.instances self).

(** A per-glyph override that carries both ['instanceLocation'] and
    ['masters']. *)
Definition override_complete (g : glyphData) : Prop :=
  is_Some (GlyphData.instanceLocation g) ∧ is_Some (GlyphData.masters g).

Definition overrides_complete (self : document) : Prop :=
  Forall (λ i, Forall (λ ng : string * glyphData, override_complete ng.2)
                      (InstanceDescriptor.glyphs i))
         (DesignSpaceDocument.instances self).

(** A glyph override that only mutes the glyph. *)
Definition mute_only : glyphData := GlyphData.mk true None None None None.

Definition plain_instance (name : string) (location : Location)
    (glyphs : list (string * glyphData)) : instance :=
  InstanceDescriptor.mk None (Some name) (Some location) None None None None
    None glyphs true true.

(** A document whose only instance mutes one glyph. *)
Definition muting_document : document :=
  DesignSpaceDocument.mk
    [plain_source "regular" {[ "weight" := Num (int 400) ]} false]
    [plain_instance "medium" {[ "weight" := Num (int 500) ]} [("a", mute_only)]]
    [weight_axis] [] None None.

(** A weight axis with a map, and a document around it. *)
Definition mapped_axis : axis :=
  AxisDescriptor.mk "wght" "weight" (int 0) (int 1000) (int 0) false
    [(int 500, int 250); (int 1000, int 1000)].

Definition mapped_document : document :=
  DesignSpaceDocument.mk
    [plain_source "light" {[ "weight" := Num (int 0) ]} true]
    [plain_instance "medium" {[ "weight" := Num (int 500) ]} []]
    [mapped_axis] [] None None.

(** The mapping that a caller of [_makeLocationElement] stores back. *)
Definition validated (axes : list axis) (location : Location) : Location :=
  od_map (validatedLocation axes location).

(** The names of the declared axes, as a set. *)
Definition axisNames (axes : list axis) : gset string :=
  list_to_set (AxisDescriptor.name <$> axes).

(** A section of the document ([axes], [rules], [sources], [instances]):
    present when the list it comes from is not empty. *)
Definition sec {A : Type} (t : string) (l : list A) (contents : list element)
  : list element :=
  match l with
  | [] => []
  | _ :: _ => [Element t [] None contents]
  end.

(** The element that [_addRule] appends for a rule, if any. *)
Definition emitted_rule (r : rule) : option element :=
  if decide (len (ruleElement r) = 0%nat) then None else Some (ruleElement r).

(** The element written for one condition that has a bound. *)
Definition conditionElement (cond : condition) : element :=
  set_attrib_opt "maximum" (intOrFloat <$> Condition.maximum cond)
    (set_attrib_opt "minimum" (intOrFloat <$> Condition.minimum cond)
       (set_attrib "name" (Condition.name cond) (new_element "condition"))).

(** The conditions of a condition set that have at least one bound. *)
Definition bounded (conditions : list condition) : list condition :=
  filter (λ cond, has_bound cond = true) conditions.

(** The element written for one condition set, if any: none when no
    condition of the set has a bound. *)
Definition conditionsetElement (conditions : list condition) : option element :=
  match bounded conditions with
  | [] => None
  | kept => Some (Element "conditionset" [] None (conditionElement <$> kept))
  end.

Definition subElement (sub : string * string) : element :=
  set_attrib "with" sub.2 (set_attrib "name" sub.1 (new_element "sub")).

(** [root.findall('.' + t)[0]]'s children, the empty list when there is no
    such section. *)
Definition section (t : string) (root : element) : list element :=
  match list_find (λ e, tag e = t) (children root) with
  | Some (_, e) => children e
  | None => []
  end.

(** The rule of the [RuleDescriptor] docstring, with one condition that has
    no bound added to its set and a second set made of such a condition. *)
Definition sample_rule : rule :=
  RuleDescriptor.mk (Some "vertical.bars")
    [[Condition.mk "weight" (Some (int 250)) (Some (int 750));
      Condition.mk "width" (Some (int 100)) None;
      Condition.mk "optical" None None];
     [Condition.mk "optical" None None]]
    [("cent", "cent.alt"); ("dollar", "dollar.alt")].

Definition width_axis : axis :=
  AxisDescriptor.mk "wdth" "width" (int 50) (int 150) (int 100) false [].

(** A two-axis document whose master and instance give their location on
    the weight axis only; the master also carries a key that names no axis. *)
Definition partial_document : document :=
  DesignSpaceDocument.mk
    [plain_source "bold" {[ "weight" := Num (int 700); "slant" := Num (int 1) ]} false]
    [plain_instance "medium" {[ "weight" := Num (int 500) ]} []]
    [weight_axis; width_axis] [sample_rule] None None.

(** ** Reading numbers back *)

(** The text before the first point of a numeral and, when there is a
    point, the text after it (46 is the code of the point). *)
Fixpoint split_point (s : string) : string * option string :=
  match s with
  | EmptyString => (EmptyString, None)
  | String c rest =>
      if Ascii.eqb c (Ascii.ascii_of_nat 46) then (EmptyString, Some rest)
      else (String c (split_point rest).1, (split_point rest).2)
  end.

(** [float(s)], as the reader applies it to attribute values, on the
    numerals that the writer emits: an optional minus sign, digits and,
    optionally, a point followed by digits. (Python's [float] accepts more:
    exponents, blanks, [inf], [nan].) *)
Definition py_float (s : string) : option Qc :=
  d ← NilZero.int_of_string (split_point s).1;
  f ← match (split_point s).2 with
      | None => Some 0
      | Some fs =>
          u ← NilEmpty.uint_of_string fs;
          Some (int (Z.of_N (N.of_uint u))
                / int (10 ^ Z.of_nat (String.length fs)))
      end;
  Some match d with
       | Decimal.Pos u => int (Z.of_uint u) + f
       | Decimal.Neg u => - (int (Z.of_uint u) + f)
       end.

(** [num] rounded to the nearest millionth, ties to even. *)
Definition rounded (num : Qc) : Qc :=
  let r := int (millionths num) / int 1000000 in
  if decide (num < 0) then - r else r.

(** Two weight axes that share their name, the second with another range. *)
Definition weight_axis_bis : axis :=
  AxisDescriptor.mk "wght" "weight" (int 0) (int 100) (int 0) false [].

(** The invariant of an axis: minimum <= default <= maximum. *)
Definition ordered (a : axis) : Prop :=
  AxisDescriptor.minimum a ≤ AxisDescriptor.default a ≤ AxisDescriptor.maximum a.

(** The bounds that [normalize] leaves on an axis: -1 or 0 below, 0 or 1
    above, according to whether the axis extends on that side of its
    default. *)
Definition lower (a : axis) : Qc :=
  if decide (AxisDescriptor.minimum a < AxisDescriptor.default a) then -1 else 0.
Definition upper (a : axis) : Qc :=
  if decide (AxisDescriptor.default a < AxisDescriptor.maximum a) then 1 else 0.

(** A location whose keys are axis names and whose values are numbers
    within [-1, 1]. *)
Definition in_range (axes : list axis) (l : Location) : Prop :=
  ∀ n v, l !! n = Some v →
    n ∈ AxisDescriptor.name <$> axes ∧ ∃ x, v = Num x ∧ -1 ≤ x ≤ 1.

(** A document with two axes, a master, an instance and a rule on the
    weight axis and on an axis that is not declared. *)
Definition ruled_document : document :=
  DesignSpaceDocument.mk
    [plain_source "bold" {[ "weight" := Num (int 700); "width" := Num (int 75) ]} false]
    [plain_instance "medium" {[ "weight" := Num (int 500) ]} []]
    [weight_axis; width_axis]
    [RuleDescriptor.mk (Some "bars")
       [[Condition.mk "weight" (Some (int 250)) (Some (int 750));
         Condition.mk "optical" (Some (int 8)) None]]
       [("dollar", "dollar.alt")]]
    None None.

(** A condition set all of whose conditions carry a bound and name a key
    that the location maps to a number. *)
Definition evaluable (location : Location) (conditions : list condition) : Prop :=
  ∀ cd, cd ∈ conditions →
    has_bound cd = true ∧ ∃ x, location !! Condition.name cd = Some (Num x).

(** Every condition of the set is met at the location. *)
Definition conditions_hold (location : Location) (conditions : list condition)
  : Prop :=
  ∀ cd x, cd ∈ conditions →
    location !! Condition.name cd = Some (Num x) → condition_holds cd x.

(** ** Axis lookup *)

(** [getAxisOrder]: the axis names, in axis order. *)
Definition getAxisOrder (axes : list axis) : list string :=
  foldl (λ names axisDescriptor, names ++ [AxisDescriptor.name axisDescriptor])
        [] axes.

(** [getAxis]: the loop returns at the first axis of that name. *)
Fixpoint getAxis (axes : list axis) (name : string) : option axis :=
  match axes with
  | [] => None
  | axisDescriptor :: rest =>
      if decide (AxisDescriptor.name axisDescriptor = name)
      then Some axisDescriptor
      else getAxis rest name
  end.

(** A rule that has something to be written: a substitution, or a condition
    with a bound. *)
Definition rule_written (r : rule) : Prop :=
  RuleDescriptor.subs r ≠ []
  ∨ Exists (Exists (λ cond, has_bound cond = true)) (RuleDescriptor.conditionSets r).

Global Instance rule_written_dec (r : rule) : Decision (rule_written r).
Proof. unfold rule_written. apply _. Defined.

(** The dimension that a written location has for an axis: the value that
    the location gives for the axis name, and the axis default when it
    gives none. *)
Definition dimension (location : Location) (a : axis) : string * value :=
  (AxisDescriptor.name a,
   default (Num (AxisDescriptor.default a)) (location !! AxisDescriptor.name a)).

(** ** The reader *)

(** What stops the reader: an exception of [exn], one of the two other
    exceptions that the reader meets, or [Outside], which marks the inputs
    on which Python goes on with a value that the descriptors of this
    development cannot hold (an axis or a condition without a name, an axis
    without a tag, a [yvalue] that is no numeral and stays a text in the
    tuple, a dimension without a name in a document read without axes). *)
Inductive failure : Set :=
| Builtin (e : exn)
| ValueError
| DesignSpaceDocumentError
| Outside.

Inductive reading (A : Type) : Type :=
| Done (a : A)
| Fail (f : failure).
Arguments Done {A} a.
Arguments Fail {A} f.

Global Instance reading_ret : MRet reading := λ A a, Done a.
Global Instance reading_bind : MBind reading := λ A B k r,
  match r with
  | Done a => k a
  | Fail f => Fail f
  end.

(** [[f(x) for x in l]], stopping at the first failure. *)
Fixpoint forM {A B : Type} (f : A → reading B) (l : list A) : reading (list B) :=
  match l with
  | [] => Done []
  | x :: l' => y ← f x ; ys ← forM f l' ; Done (y :: ys)
  end.

(** [for x in l: acc = f(acc, x)], stopping at the first failure. *)
Fixpoint foldR {A S : Type} (f : S → A → reading S) (s : S) (l : list A)
  : reading S :=
  match l with
  | [] => Done s
  | x :: l' => s' ← f s x ; foldR f s' l'
  end.

(** [e.attrib.get(k)] *)
Definition get (k : string) (e : element) : option string :=
  (λ r : nat * (string * string), r.2.2)
    <$> list_find (λ kv : string * string, kv.1 = k) (attrib e).

(** [e.attrib[k]] *)
Definition attrib_item (k : string) (e : element) : reading string :=
  match get k e with
  | Some v => Done v
  | None => Fail (Builtin KeyError)
  end.

(** [e.findall('.t')] and [e.findall('t')]: the children tagged [t]. *)
Definition findall (t : string) (e : element) : list element :=
  filter (λ c, tag c = t) (children e).

(** [e.findall('.t1/t2')] *)
Definition findall2 (t1 t2 : string) (e : element) : list element :=
  findall t1 e ≫= findall t2.

(** [posixpath.join(path, b)] for a [b] without slash. *)
Fixpoint ends_with_slash (s : string) : bool :=
  match s with
  | EmptyString => false
  | String c EmptyString => Ascii.eqb c (Ascii.ascii_of_nat 47)
  | String _ rest => ends_with_slash rest
  end.

Definition join (path b : string) : string :=
  if decide (path = "") then b
  else if ends_with_slash path then path +:+ b
  else path +:+ "/" +:+ b.

(** [path.split('/')] (47 is the code of the slash). *)
Fixpoint split_slash (s : string) : list string :=
  match s with
  | EmptyString => [EmptyString]
  | String c rest =>
      if Ascii.eqb c (Ascii.ascii_of_nat 47) then EmptyString :: split_slash rest
      else match split_slash rest with
           | [] => [String c EmptyString]
           | w :: ws => String c w :: ws
           end
  end.

(** [posix(path)], where [os.path.sep] is the slash. *)
Definition posix (path : string) : string :=
  let new_path := match split_slash path with
                  | [] => ""
                  | a :: p => foldl join a p
                  end in
  if String.prefix "/" path then "/" +:+ new_path else new_path.

Module BaseDocReader.
Section Reader.

(** [float(s)] on the text of an attribute, [None] standing for ValueError.
    Numbers being exact rationals here, texts that [float] reads as an
    infinity or as a NaN are taken to be refused. *)
Variable float : string → option Qc.

(** [float(e.attrib.get(k))]: [float(None)] is a TypeError. *)
Definition float_get (k : string) (e : element) : reading Qc :=
  match get k e with
  | None => Fail (Builtin TypeError)
  | Some s => match float s with
              | Some x => Done x
              | None => Fail ValueError
              end
  end.

(** [float(e.attrib[k])] *)
Definition float_item (k : string) (e : element) : reading Qc :=
  s ← attrib_item k e;
  match float s with
  | Some x => Done x
  | None => Fail ValueError
  end.

(** [cdMin = e.attrib.get(k); float(cdMin) if cdMin is not None else None] *)
Definition float_opt (k : string) (e : element) : reading (option Qc) :=
  match get k e with
  | None => Done None
  | Some s => match float s with
              | Some x => Done (Some x)
              | None => Fail ValueError
              end
  end.

(** The body of the loop of [_readConditionElements]. *)
Definition readConditionElement (conditionElement : element) : reading condition :=
  minimum ← float_opt "minimum" conditionElement;
  maximum ← float_opt "maximum" conditionElement;
  match get "name" conditionElement with
  | Some name => Done (Condition.mk name minimum maximum)
  | None => Fail Outside
  end.

Definition _readConditionElements (parentElement : element)
  : reading (list condition) :=
  forM readConditionElement (findall "condition" parentElement).

(** The body of the loop of [readRules]. *)
Definition readRule (ruleElement : element) : reading rule :=
  let name := get "name" ruleElement in
  externalConditions ← _readConditionElements ruleElement;
  let conditionSets := match externalConditions with
                       | [] => []
                       | _ :: _ => [externalConditions]
                       end in
  sets ← forM _readConditionElements (findall "conditionset" ruleElement);
  subs ← forM (λ subElement,
                 a ← attrib_item "name" subElement;
                 b ← attrib_item "with" subElement;
                 Done (a, b))
              (findall "sub" ruleElement);
  Done (RuleDescriptor.mk name (conditionSets ++ sets) subs).

(** [readRules]: the value assigned to [documentObject.rules]. *)
Definition readRules (root : element) : reading (list rule) :=
  forM readRule (findall2 "rules" "rule" root).

(** The body of the loop of [readAxes]. The [labelname] children only fill
    [labelNames], which the axes of this development do not carry. *)
Definition readAxis (axisElement : element) : reading axis :=
  match get "name" axisElement, get "tag" axisElement with
  | Some name, Some tag =>
      minimum ← float_get "minimum" axisElement;
      maximum ← float_get "maximum" axisElement;
      (* if axisElement.attrib.get('hidden', False): a non-empty text *)
      let hidden := match get "hidden" axisElement with
                    | Some s => negb (bool_decide (s = ""))
                    | None => false
                    end in
      default ← float_get "default" axisElement;
      map ← forM (λ mapElement,
                    a ← float_item "input" mapElement;
                    b ← float_item "output" mapElement;
                    Done (a, b))
                 (findall "map" axisElement);
      Done (AxisDescriptor.mk tag name minimum maximum default hidden map)
  | _, _ => Fail Outside
  end.

(** The state of the reader: the tree, the two attributes that [readAxes]
    sets, and the document that it fills. *)
Record reader : Type := mk_reader {
  root : element;
  _strictAxisNames : bool;
  axisDefaults : gmap string Qc;
  documentObject : document
}.

(** [BaseDocReader(path, documentObject)], the tree being parsed already. *)
Definition new_reader (root : element) (documentObject : document) : reader :=
  mk_reader root true ∅ documentObject.

Definition readAxes (self : reader) : reading reader :=
  match findall2 "axes" "axis" (root self) with
  | [] => Done (mk_reader (root self) false (axisDefaults self)
                          (documentObject self))
  | axisElements =>
      axes ← forM readAxis axisElements;
      let axisDefaults :=
        foldl (λ d a, <[AxisDescriptor.name a := AxisDescriptor.default a]> d)
              (axisDefaults self) axes in
      let doc := documentObject self in
      Done (mk_reader (root self) (_strictAxisNames self) axisDefaults
              (DesignSpaceDocument.mk
                 (DesignSpaceDocument.sources doc)
                 (DesignSpaceDocument.instances doc)
                 (DesignSpaceDocument.axes doc ++ axes)
                 (DesignSpaceDocument.rules doc)
                 (DesignSpaceDocument.default doc)
                 (Some (Num <$> axisDefaults))))
  end.

(** The body of the loop of [readLocationElement]. A [xvalue] that [float]
    refuses sends the reader to [self.logger], an attribute that it does not
    have. *)
Definition readDimension (self : reader) (loc : Location)
    (dimensionElement : element) : reading Location :=
  let dimName := get "name" dimensionElement in
  if _strictAxisNames self
     && negb (bool_decide (is_Some (dimName ≫= (axisDefaults self !!.))))
  then Done loc
  else
    match dimName with
    | None => Fail Outside
    | Some dimName =>
        xValue ← match get "xvalue" dimensionElement with
                 | None => Fail (Builtin TypeError)
                 | Some s => match float s with
                             | Some x => Done x
                             | None => Fail (Builtin AttributeError)
                             end
                 end;
        match get "yvalue" dimensionElement with
        | None => Done (<[dimName := Num xValue]> loc)
        | Some s => match float s with
                    | Some yValue => Done (<[dimName := Pair xValue yValue]> loc)
                    | None => Fail Outside
                    end
        end
    end.

Definition readLocationElement (self : reader) (locationElement : element)
  : reading Location :=
  match DesignSpaceDocument.axes (documentObject self) with
  | [] => Fail DesignSpaceDocumentError
  | _ :: _ => foldR (readDimension self) ∅ (findall "dimension" locationElement)
  end.

Definition locationFromElement (self : reader) (element : element)
  : reading (option Location) :=
  match findall "location" element with
  | [] => Done None
  | locationElement :: _ =>
      elementLocation ← readLocationElement self locationElement;
      Done (Some elementLocation)
  end.

(** [for e in element.findall('.t'): if e.attrib.get(k) == '1': flag = True] *)
Definition flagged (t k : string) (element : element) : bool :=
  bool_decide (Exists (λ e, get k e = Some "1") (findall t element)).

(** The body of the loop of [readSources]; [path] is not modelled. *)
Definition readSource (self : reader) (sourceCount : nat)
    (sourceElement : element) : reading source :=
  let filename := get "filename" sourceElement in
  let sourceName := match get "name" sourceElement with
                    | Some n => n
                    | None => "temp_master." +:+ format_d (Z.of_nat sourceCount)
                    end in
  location ← locationFromElement self sourceElement;
  let mutedGlyphNames :=
    omap (λ glyphElement,
            match get "name" glyphElement with
            | Some glyphName =>
                if bool_decide (get "mute" glyphElement = Some "1")
                then Some glyphName else None
            | None => None
            end)
         (findall "glyph" sourceElement) in
  Done (SourceDescriptor.mk
          (posix <$> filename) (Some sourceName) location
          (get "layer" sourceElement)
          (flagged "lib" "copy" sourceElement)
          (flagged "info" "copy" sourceElement)
          (flagged "groups" "copy" sourceElement)
          (flagged "features" "copy" sourceElement)
          (flagged "kerning" "mute" sourceElement)
          (flagged "info" "mute" sourceElement)
          mutedGlyphNames
          (get "familyname" sourceElement)
          (get "stylename" sourceElement)).

Definition readSources (self : reader) : reading reader :=
  sources ← forM (λ ce : nat * element, readSource self ce.1 ce.2)
                 (imap (λ i e, (i, e)) (findall2 "sources" "source" (root self)));
  let doc := documentObject self in
  Done (mk_reader (root self) (_strictAxisNames self) (axisDefaults self)
          (DesignSpaceDocument.mk
             (DesignSpaceDocument.sources doc ++ sources)
             (DesignSpaceDocument.instances doc)
             (DesignSpaceDocument.axes doc)
             (DesignSpaceDocument.rules doc)
             (DesignSpaceDocument.default doc)
             (DesignSpaceDocument.defaultLoc doc))).

End Reader.
End BaseDocReader.

(** A [float] that reads the numerals of the writer back: an integer as
    itself, any other number as its value rounded to millionths. *)
Definition reads_back (float : string → option Qc) : Prop :=
  ∀ num, float (intOrFloat num) = Some (rounded num).

(** A document with nothing in it, as [DesignSpaceDocument()] builds it. *)
Definition empty_document : document :=
  DesignSpaceDocument.mk [] [] [] [] None None.

(** What is read back of a condition that was written, of a rule and of an
    axis. *)
Definition reread_condition (c : condition) : condition :=
  Condition.mk (Condition.name c) (rounded <$> Condition.minimum c)
               (rounded <$> Condition.maximum c).

Definition reread_rule (r : rule) : rule :=
  RuleDescriptor.mk (RuleDescriptor.name r)
    ((λ cs, reread_condition <$> bounded cs)
       <$> filter (λ cs, bounded cs ≠ []) (RuleDescriptor.conditionSets r))
    (RuleDescriptor.subs r).

Definition reread_axis (a : axis) : axis :=
  AxisDescriptor.mk (AxisDescriptor.tag a) (AxisDescriptor.name a)
    (rounded (AxisDescriptor.minimum a)) (rounded (AxisDescriptor.maximum a))
    (rounded (AxisDescriptor.default a)) (AxisDescriptor.hidden a)
    ((λ io : Qc * Qc, (rounded io.1, rounded io.2)) <$> AxisDescriptor.map a).

(** The attributes and the children of the element that [_addSource]
    builds, the location element apart. *)
Definition opt_attrib (k : string) (v : option string) : list (string * string) :=
  match v with Some x => [(k, x)] | None => [] end.

Definition written_name (name : option string) : option string :=
  match name with
  | Some n => if String.prefix "temp_master" n then None else Some n
  | None => None
  end.

Definition source_attrib (s : source) : list (string * string) :=
  opt_attrib "filename" (SourceDescriptor.filename s)
  ++ opt_attrib "name" (written_name (SourceDescriptor.name s))
  ++ opt_attrib "familyname" (SourceDescriptor.familyName s)
  ++ opt_attrib "stylename" (SourceDescriptor.styleName s)
  ++ opt_attrib "layer" (SourceDescriptor.layerName s).

Definition when (b : bool) (e : element) : list element :=
  if b then [e] else [].

Definition source_children (s : source) : list element :=
  when (SourceDescriptor.copyLib s) (flagElement "lib" "copy")
  ++ when (SourceDescriptor.copyGroups s) (flagElement "groups" "copy")
  ++ when (SourceDescriptor.copyFeatures s) (flagElement "features" "copy")
  ++ when (SourceDescriptor.copyInfo s || SourceDescriptor.muteInfo s)
          (Element "info"
             (opt_attrib "copy"
                (if SourceDescriptor.copyInfo s then Some "1" else None)
              ++ opt_attrib "mute"
                   (if SourceDescriptor.muteInfo s then Some "1" else None))
             None [])
  ++ when (SourceDescriptor.muteKerning s) (flagElement "kerning" "mute")
  ++ ((λ name, Element "glyph" [("name", name); ("mute", "1")] None [])
        <$> SourceDescriptor.mutedGlyphNames s).

(** A value with its numbers rounded as the writer prints them. *)
Definition rounded_value (v : value) : value :=
  match v with
  | Num x => Num (rounded x)
  | Pair x y => Pair (rounded x) (rounded y)
  end.

(** What is read back of the source written at position [i]. *)
Definition reread_source (axes : list axis) (i : nat) (s : source) : source :=
  SourceDescriptor.mk
    (posix <$> SourceDescriptor.filename s)
    (Some (default ("temp_master." +:+ format_d (Z.of_nat i))
                   (written_name (SourceDescriptor.name s))))
    ((λ l, rounded_value <$> validated axes l) <$> SourceDescriptor.location s)
    (SourceDescriptor.layerName s)
    (SourceDescriptor.copyLib s) (SourceDescriptor.copyInfo s)
    (SourceDescriptor.copyGroups s) (SourceDescriptor.copyFeatures s)
    (SourceDescriptor.muteKerning s) (SourceDescriptor.muteInfo s)
    (SourceDescriptor.mutedGlyphNames s)
    (SourceDescriptor.familyName s) (SourceDescriptor.styleName s).

(** A document with one master and no axis. *)
Definition axisless_document : document :=
  DesignSpaceDocument.mk [plain_source "regular" ∅ false] [] [] [] None None.


(** A master that has no location yet. *)
Definition unlocated_source : source :=
  SourceDescriptor.mk None (Some "regular") None None false false
    false false false false [] None None.

(** A document whose master has no location and whose instance mutes one
    glyph. *)
Definition unlocated_document : document :=
  DesignSpaceDocument.mk [unlocated_source]
    [plain_instance "medium" {[ "weight" := Num (int 500) ]} [("a", mute_only)]]
    [weight_axis] [] None None.

(** * Verification *)

(** * Arithmetic on canonical rationals *)

Lemma Qcminus_eq_0 (x y : Qc) : x - y = 0 ↔ x = y.
Proof.
  split; intros H.
  - rewrite <-(Qcplus_0_l y), <-H. ring.
  - subst. ring.
Qed.

Lemma Qcminus_pos (x y : Qc) : y < x ↔ 0 < x - y.
Proof.
  rewrite (Qcplus_lt_mono_r y x (- y)).
  by replace (y + - y) with 0 by ring.
Qed.

Lemma Qcminus_nonneg (x y : Qc) : y ≤ x ↔ 0 ≤ x - y.
Proof.
  rewrite (Qcplus_le_mono_r y x (- y)).
  by replace (y + - y) with 0 by ring.
Qed.

Lemma Qcdiv_unit_nonneg (n d : Qc) : 0 < d → 0 ≤ n → n ≤ d → 0 ≤ n / d ≤ 1.
Proof.
  intros Hd H0 H1.
  assert (0 ≤ / d) as Hinv by (apply Qclt_le_weak, Qcinv_pos, Hd).
  assert (d ≠ 0) as Hne by (intros ->; by apply (Qclt_not_eq 0 0)).
  unfold Qcdiv. split.
  - rewrite <-(Qcmult_0_l (/ d)). by apply Qcmult_le_compat_r.
  - rewrite <-(Qcmult_inv_r d Hne). by apply Qcmult_le_compat_r.
Qed.

Lemma Qcdiv_unit_nonpos (n d : Qc) : 0 < d → - d ≤ n → n ≤ 0 → -1 ≤ n / d ≤ 0.
Proof.
  intros Hd H0 H1.
  assert (0 ≤ / d) as Hinv by (apply Qclt_le_weak, Qcinv_pos, Hd).
  assert (d ≠ 0) as Hne by (intros ->; by apply (Qclt_not_eq 0 0)).
  unfold Qcdiv. split.
  - replace (-1) with (- d * / d) by (field; done).
    by apply Qcmult_le_compat_r.
  - rewrite <-(Qcmult_0_l (/ d)). by apply Qcmult_le_compat_r.
Qed.

Lemma py_div_Ok (a b : Qc) : b ≠ 0 → py_div a b = Ok (a / b).
Proof. intros H. unfold py_div. by rewrite decide_False. Qed.

(** * normalizeLocation *)

Lemma normalizeValue_Ok (a : axis) (v : value) :
  ∃ x, normalizeValue a v = Ok x.
Proof.
  unfold normalizeValue.
  repeat case_decide; eauto; rewrite py_div_Ok; eauto;
    rewrite Qcminus_eq_0; congruence.
Qed.

Lemma normalizeValue_normalized (a : axis) (v : value) :
  normalizeValue a v = Ok (normalized a v).
Proof.
  unfold normalized. by destruct (normalizeValue_Ok a v) as [x ->].
Qed.

Lemma last_axis_Some (n : string) (axes : list axis) (a : axis) :
  last_axis n axes = Some a → AxisDescriptor.name a = n ∧ a ∈ axes.
Proof.
  induction axes as [|b rest IH]; simpl; [done|].
  destruct (last_axis n rest) as [c|].
  - intros [= ->]. destruct IH as [? ?]; [done|]. split; [done|]. by right.
  - case_decide; [|done]. intros [= ->]. split; [done|]. by left.
Qed.

Lemma last_axis_None (n : string) (axes : list axis) :
  last_axis n axes = None ↔ n ∉ AxisDescriptor.name <$> axes.
Proof.
  induction axes as [|b rest IH]; simpl.
  - split; [intros _; apply not_elem_of_nil|done].
  - rewrite not_elem_of_cons, <-IH.
    destruct (last_axis n rest) as [c|].
    + split; [done|]. by intros [_ ?].
    + case_decide as Hb.
      * split; [done|]. intros [Hn _]. by destruct Hn.
      * split; [|done]. intros _. split; [congruence|done].
Qed.

Lemma last_axis_NoDup (axes : list axis) (a : axis) :
  NoDup (AxisDescriptor.name <$> axes) → a ∈ axes →
  last_axis (AxisDescriptor.name a) axes = Some a.
Proof.
  induction axes as [|b rest IH]; simpl; intros Hnd Ha.
  - by apply elem_of_nil in Ha.
  - apply NoDup_cons in Hnd as [Hb Hnd].
    apply elem_of_cons in Ha as [->|Ha].
    + apply last_axis_None in Hb. rewrite Hb. by rewrite decide_True.
    + by rewrite (IH Hnd Ha).
Qed.

Lemma normalizeLocation_step_eq (location new : Location) (a : axis) :
  normalizeLocation_step location new a =
  match location !! AxisDescriptor.name a with
  | Some v => Ok (<[AxisDescriptor.name a := Num (normalized a v)]> new)
  | None => Ok new
  end.
Proof.
  unfold normalizeLocation_step.
  destruct (location !! AxisDescriptor.name a) as [v|] eqn:Hv.
  - rewrite decide_True by eauto. simpl.
    by rewrite normalizeValue_normalized.
  - rewrite decide_False; [done|]. by intros [? ?].
Qed.

Lemma normalizeLocation_fold (location : Location) (axes : list axis)
    (new0 : Location) :
  ∃ new, foldM (normalizeLocation_step location) new0 axes = Ok new ∧
    ∀ n, new !! n =
         match location !! n, last_axis n axes with
         | Some v, Some a => Some (Num (normalized a v))
         | _, _ => new0 !! n
         end.
Proof.
  revert new0. induction axes as [|a rest IH]; intros new0.
  - exists new0. split; [done|]. intros n. simpl. by destruct (location !! n).
  - cbn [foldM last_axis]. rewrite normalizeLocation_step_eq.
    destruct (location !! AxisDescriptor.name a) as [v|] eqn:Hv.
    + destruct (IH (<[AxisDescriptor.name a := Num (normalized a v)]> new0))
        as (new & Hfold & Hnew).
      exists new. split; [done|]. intros n. rewrite Hnew.
      destruct (location !! n) as [w|] eqn:Hw.
      * destruct (last_axis n rest); [done|].
        case_decide as Hn.
        -- subst n. rewrite lookup_insert_eq. congruence.
        -- by rewrite lookup_insert_ne.
      * rewrite lookup_insert_ne; [done|]. congruence.
    + destruct (IH new0) as (new & Hfold & Hnew).
      exists new. split; [done|]. intros n. rewrite Hnew.
      destruct (location !! n) as [w|] eqn:Hw; [|done].
      destruct (last_axis n rest); [done|].
      case_decide; [|done]. congruence.
Qed.

Lemma normalizeLocation_lookup (axes : list axis) (location : Location) :
  ∃ new, normalizeLocation axes location = Ok new ∧
    ∀ n, new !! n =
         match location !! n, last_axis n axes with
         | Some v, Some a => Some (Num (normalized a v))
         | _, _ => None
         end.
Proof.
  destruct (normalizeLocation_fold location axes ∅) as (new & H & Hl).
  exists new. split; [done|]. intros n. rewrite Hl, lookup_empty.
  by repeat case_match.
Qed.

Lemma normalized_default (a : axis) (v : value) :
  scalar v = AxisDescriptor.default a → normalized a v = 0.
Proof.
  intros H. unfold normalized, normalizeValue. fold (scalar v).
  by rewrite decide_True.
Qed.

Lemma normalized_below (a : axis) (v : value) :
  scalar v < AxisDescriptor.default a →
  AxisDescriptor.minimum a ≤ AxisDescriptor.default a →
  (AxisDescriptor.default a = AxisDescriptor.minimum a → normalized a v = 0) ∧
  (AxisDescriptor.default a ≠ AxisDescriptor.minimum a →
     normalized a v =
       (clamp (scalar v) (AxisDescriptor.minimum a) (AxisDescriptor.default a)
        - AxisDescriptor.default a)
       / (AxisDescriptor.default a - AxisDescriptor.minimum a)
     ∧ -1 ≤ normalized a v ≤ 0).
Proof.
  intros Hlt Hmin. unfold normalized, normalizeValue. fold (scalar v).
  rewrite decide_False by (by apply Qclt_not_eq).
  rewrite decide_True by done.
  split; intros Hd.
  - by rewrite decide_True.
  - rewrite decide_False by done.
    rewrite py_div_Ok by (by rewrite Qcminus_eq_0).
    assert (AxisDescriptor.minimum a < AxisDescriptor.default a) as Hmd.
    { apply Qcle_lt_or_eq in Hmin as [?|?]; [done|congruence]. }
    assert (py_max (scalar v) (AxisDescriptor.minimum a)
            = clamp (scalar v) (AxisDescriptor.minimum a)
                    (AxisDescriptor.default a)) as ->.
    { unfold py_max, clamp. case_decide; [done|].
      rewrite decide_False; [done|]. by apply Qcle_not_lt, Qclt_le_weak. }
    split; [done|].
    apply Qcdiv_unit_nonpos.
    + by apply Qcminus_pos in Hmd.
    + replace (- (AxisDescriptor.default a - AxisDescriptor.minimum a))
        with (AxisDescriptor.minimum a - AxisDescriptor.default a) by ring.
      unfold Qcminus. apply (proj1 (Qcplus_le_mono_r _ _ _)). unfold clamp.
      case_decide as H1; [done|]. apply Qcnot_lt_le in H1.
      by rewrite decide_False by (by apply Qcle_not_lt, Qclt_le_weak).
    + rewrite (Qcplus_le_mono_r _ _ (AxisDescriptor.default a)).
      replace (clamp (scalar v) (AxisDescriptor.minimum a)
                 (AxisDescriptor.default a) - AxisDescriptor.default a
               + AxisDescriptor.default a)
        with (clamp (scalar v) (AxisDescriptor.minimum a)
                 (AxisDescriptor.default a)) by ring.
      rewrite Qcplus_0_l. unfold clamp.
      case_decide; [by apply Qclt_le_weak|].
      case_decide; [done|]. by apply Qclt_le_weak.
Qed.

Lemma normalized_above (a : axis) (v : value) :
  AxisDescriptor.default a < scalar v →
  AxisDescriptor.default a ≤ AxisDescriptor.maximum a →
  (AxisDescriptor.default a = AxisDescriptor.maximum a → normalized a v = 0) ∧
  (AxisDescriptor.default a ≠ AxisDescriptor.maximum a →
     normalized a v =
       (clamp (scalar v) (AxisDescriptor.default a) (AxisDescriptor.maximum a)
        - AxisDescriptor.default a)
       / (AxisDescriptor.maximum a - AxisDescriptor.default a)
     ∧ 0 ≤ normalized a v ≤ 1).
Proof.
  intros Hlt Hmax. unfold normalized, normalizeValue. fold (scalar v).
  rewrite decide_False by (intros E; by apply Qclt_not_eq in Hlt).
  rewrite decide_False by (by apply Qcle_not_lt, Qclt_le_weak).
  split; intros Hd.
  - by rewrite decide_True.
  - rewrite decide_False by done.
    rewrite py_div_Ok by (rewrite Qcminus_eq_0; congruence).
    assert (AxisDescriptor.default a < AxisDescriptor.maximum a) as Hdm.
    { apply Qcle_lt_or_eq in Hmax as [?|?]; [done|congruence]. }
    assert (¬ scalar v < AxisDescriptor.default a) as Hnlt
      by (by apply Qcle_not_lt, Qclt_le_weak).
    assert (py_min (scalar v) (AxisDescriptor.maximum a)
            = clamp (scalar v) (AxisDescriptor.default a)
                    (AxisDescriptor.maximum a)) as ->.
    { unfold py_min, clamp.
      by destruct (decide (scalar v < AxisDescriptor.default a)). }
    split; [done|].
    apply Qcdiv_unit_nonneg.
    + by apply Qcminus_pos in Hdm.
    + apply (proj1 (Qcminus_nonneg _ _)). unfold clamp.
      rewrite decide_False by done.
      case_decide; [done|]. by apply Qclt_le_weak.
    + unfold Qcminus. apply (proj1 (Qcplus_le_mono_r _ _ _)). unfold clamp.
      rewrite decide_False by done.
      case_decide as H1; [done|]. by apply Qcnot_lt_le in H1.
Qed.

(** C5. The keys of the result of [normalizeLocation] are exactly the names
    that are both declared axes and keys of the input location: an axis absent
    from the input is left out (not set to 0), and a key that names no
    declared axis does not appear. *)
Theorem normalizeLocation_keys (axes : list axis) (location : Location) :
  ∃ new, normalizeLocation axes location = Ok new ∧
    dom new = dom location ∩ list_to_set (AxisDescriptor.name <$> axes) ∧
    (∀ a, a ∈ axes → location !! AxisDescriptor.name a = None →
          new !! AxisDescriptor.name a = None) ∧
    (∀ n, n ∉ AxisDescriptor.name <$> axes → new !! n = None).
Proof.
  destruct (normalizeLocation_lookup axes location) as (new & Hn & Hl).
  exists new. split; [done|]. split; [|split].
  - apply set_eq. intros n.
    rewrite elem_of_intersection, !elem_of_dom, elem_of_list_to_set, Hl.
    destruct (location !! n) as [v|].
    + destruct (last_axis n axes) as [a|] eqn:Ha.
      * apply last_axis_Some in Ha as [<- Ha].
        split; [|by eauto]. intros _. split; [by eauto|].
        by apply list_elem_of_fmap_2.
      * apply last_axis_None in Ha. split; [by intros [? ?]|]. by intros [_ ?].
    + split; [by intros [? ?]|]. by intros [[? ?] _].
  - intros a _ Ha. by rewrite Hl, Ha.
  - intros n Hn'. apply last_axis_None in Hn'. rewrite Hl, Hn'.
    by destruct (location !! n).
Qed.

(** C1. For a declared axis present in the input location (axis names
    unique, minimum <= default <= maximum), [normalizeLocation] maps a value
    equal to the default to 0; a tuple counts as its first component; a value
    below the default is clamped to [minimum, default] and scaled into
    [-1, 0], a value above it is clamped to [default, maximum] and scaled into
    [0, 1]; and when default = minimum (resp. default = maximum) the branch
    yields 0 and no division takes place. *)
Theorem normalizeLocation_value (axes : list axis) (location : Location)
    (a : axis) (v : value) :
  NoDup (AxisDescriptor.name <$> axes) →
  a ∈ axes →
  location !! AxisDescriptor.name a = Some v →
  AxisDescriptor.minimum a ≤ AxisDescriptor.default a ≤ AxisDescriptor.maximum a →
  ∃ new x,
    normalizeLocation axes location = Ok new ∧
    new !! AxisDescriptor.name a = Some (Num x) ∧
    (scalar v = AxisDescriptor.default a → x = 0) ∧
    (scalar v < AxisDescriptor.default a →
       (AxisDescriptor.default a = AxisDescriptor.minimum a → x = 0) ∧
       (AxisDescriptor.default a ≠ AxisDescriptor.minimum a →
          x = (clamp (scalar v) (AxisDescriptor.minimum a)
                     (AxisDescriptor.default a) - AxisDescriptor.default a)
              / (AxisDescriptor.default a - AxisDescriptor.minimum a)
          ∧ -1 ≤ x ≤ 0)) ∧
    (AxisDescriptor.default a < scalar v →
       (AxisDescriptor.default a = AxisDescriptor.maximum a → x = 0) ∧
       (AxisDescriptor.default a ≠ AxisDescriptor.maximum a →
          x = (clamp (scalar v) (AxisDescriptor.default a)
                     (AxisDescriptor.maximum a) - AxisDescriptor.default a)
              / (AxisDescriptor.maximum a - AxisDescriptor.default a)
          ∧ 0 ≤ x ≤ 1)).
Proof.
  intros Hnd Ha Hv [Hmin Hmax].
  destruct (normalizeLocation_lookup axes location) as (new & Hn & Hl).
  exists new, (normalized a v). split; [done|]. split; [|split; [|split]].
  - by rewrite Hl, Hv, (last_axis_NoDup axes a).
  - apply normalized_default.
  - intros Hlt. by apply normalized_below.
  - intros Hlt. by apply normalized_above.
Qed.

Lemma normalizeLocation_value_witness :
  ∃ new x,
    normalizeLocation [weight_axis] {[ "weight" := Pair (int 250) (int 900) ]}
      = Ok new ∧
    new !! "weight" = Some (Num x) ∧ x = frac (-3) 8.
Proof.
  destruct (normalizeLocation_value [weight_axis]
              {[ "weight" := Pair (int 250) (int 900) ]} weight_axis
              (Pair (int 250) (int 900)))
    as (new & x & Hn & Hx & _ & Hb & _).
  - apply NoDup_singleton.
  - apply list_elem_of_singleton. reflexivity.
  - reflexivity.
  - split; by vm_compute.
  - exists new, x. split; [exact Hn|]. split; [exact Hx|].
    destruct Hb as [_ Hb]; [by vm_compute|].
    destruct Hb as [-> _]; [by vm_compute|].
    apply Qc_is_canon. reflexivity.
Defined.

(** * The rule engine *)

Lemma subs_loop_substitute (subs : list (string * string)) (name : string) :
  default name (subs_loop name subs) = substitute subs name.
Proof.
  unfold substitute. induction subs as [|[a b] rest IH]; [done|].
  cbn [subs_loop list_find]. case_decide as Hn.
  - by rewrite decide_True.
  - rewrite decide_False by done.
    revert IH. destruct (list_find _ rest) as [[i [a' b']]|]; simpl; done.
Qed.

Lemma names_loop_map (subs : list (string * string))
    (glyphNames newNames : list string) :
  names_loop subs glyphNames newNames
  = (newNames ++ (substitute subs <$> glyphNames))%list.
Proof.
  revert newNames. induction glyphNames as [|name rest IH]; intros newNames.
  - simpl. by rewrite app_nil_r.
  - cbn [names_loop fmap list_fmap]. rewrite <-subs_loop_substitute.
    destruct (subs_loop name subs) as [b|]; rewrite IH, <-app_assoc; reflexivity.
Qed.

Lemma processRules_fold (rules : list rule) (location : Location)
    (names : list string) :
  foldM (processRules_step location) (names, []) rules
  = (names' ← processRules_spec rules location names; Ok (names', [])).
Proof.
  revert names. induction rules as [|r rest IH]; intros names; [done|].
  cbn [foldM processRules_spec].
  change (processRules_step location (names, []) r)
    with (matches ← evaluateRule r location;
          if matches : bool
          then Ok (names_loop (RuleDescriptor.subs r) names [], @nil string)
          else Ok (names, @nil string)).
  destruct (evaluateRule r location) as [[|]|e]; cbn; [| |reflexivity].
  - rewrite names_loop_map. apply IH.
  - apply IH.
Qed.

(** C2. [processRules] applies the rules in list order; each rule that
    matches the location rewrites the sequence in one pass, putting at every
    position the second element of the first pair of its [subs] whose first
    element is the name there, and leaving a name matched by no pair as it is;
    the output of a rule is the input of the next. For the rule "weight in
    [250, 750], a -> a.alt", [a, b] becomes [a.alt, b] at weight 500 and stays
    [a, b] at weight 900. *)
Theorem processRules_refines :
  (∀ rules location names,
     processRules rules location names = processRules_spec rules location names)
  ∧ processRules [scenario_rule] {[ "weight" := Num (int 500) ]} ["a"; "b"]
    = Ok ["a.alt"; "b"]
  ∧ processRules [scenario_rule] {[ "weight" := Num (int 900) ]} ["a"; "b"]
    = Ok ["a"; "b"].
Proof.
  split; [|split; by vm_compute].
  intros rules location names. unfold processRules.
  rewrite processRules_fold.
  by destruct (processRules_spec rules location names).
Qed.

Lemma evaluateCondition_bounded (cd : condition) (x : Qc) :
  has_bound cd = true →
  ∃ b, evaluateCondition cd (Num x) = Ok b ∧ (b = true ↔ condition_holds cd x).
Proof.
  unfold has_bound, evaluateCondition, condition_holds.
  destruct cd as [n [mn|] [mx|]]; simpl; intros Hb; try done.
  - eexists. split; [done|]. rewrite negb_involutive, andb_true_iff.
    rewrite !bool_decide_eq_true. split.
    + intros [? ?]. split; intros ? [= <-]; done.
    + intros [H1 H2]. split; [by apply H1|by apply H2].
  - eexists. split; [done|]. rewrite negb_true_iff, bool_decide_eq_false.
    rewrite <-Qcle_ngt. split.
    + intros ?. split; [by intros ? [= <-]|done].
    + intros [H1 _]. by apply H1.
  - eexists. split; [done|]. rewrite negb_true_iff, bool_decide_eq_false.
    rewrite <-Qcle_ngt. split.
    + intros ?. split; [done|by intros ? [= <-]].
    + intros [_ H2]. by apply H2.
Qed.

Lemma evaluateConditions_bounded (conditions : list condition)
    (location : Location) :
  (∀ cd, cd ∈ conditions →
     has_bound cd = true ∧ ∃ x, location !! Condition.name cd = Some (Num x)) →
  ∃ b, evaluateConditions conditions location = Ok b ∧
       (b = true ↔
        ∀ cd x, cd ∈ conditions →
                location !! Condition.name cd = Some (Num x) →
                condition_holds cd x).
Proof.
  induction conditions as [|cd rest IH]; intros Hall.
  - exists true. split; [done|]. split; [|done].
    intros _ cd x Hcd. by apply elem_of_nil in Hcd.
  - destruct (Hall cd) as (Hb & x & Hx); [by left|].
    destruct (evaluateCondition_bounded cd x Hb) as (b & Hev & Hiff).
    cbn [evaluateConditions]. unfold getitem. rewrite Hx. cbn. rewrite Hev. cbn.
    destruct b.
    + destruct IH as (b' & Hrest & Hiff').
      { intros cd' Hcd'. apply Hall. by right. }
      exists b'. split; [done|]. rewrite Hiff'. split.
      * intros Hr cd' x' [->|Hcd']%elem_of_cons Hx'.
        -- rewrite Hx in Hx'. injection Hx' as <-. by apply Hiff.
        -- by apply Hr.
      * intros Hr cd' x' Hcd' Hx'. apply Hr; [by right|done].
    + exists false. split; [done|]. split; [done|].
      intros Hr. apply Hiff, Hr; [by left|done].
Qed.

Lemma evaluateRule_any (r : rule) (location : Location) :
  (∀ c, c ∈ RuleDescriptor.conditionSets r →
        ∃ b, evaluateConditions c location = Ok b) →
  ∃ b, evaluateRule r location = Ok b ∧
       (b = true ↔
        ∃ c, c ∈ RuleDescriptor.conditionSets r
             ∧ evaluateConditions c location = Ok true).
Proof.
  unfold evaluateRule.
  induction (RuleDescriptor.conditionSets r) as [|c rest IH]; intros Hall.
  - exists false. split; [done|]. split; [done|].
    intros (c & Hc & _). by apply elem_of_nil in Hc.
  - destruct (Hall c) as (b & Hb); [by left|].
    cbn [any_conditionSet]. rewrite Hb. cbn. destruct b.
    + exists true. split; [done|]. split; [|done].
      intros _. exists c. split; [by left|done].
    + destruct IH as (b' & Hrest & Hiff).
      { intros c' Hc'. apply Hall. by right. }
      exists b'. split; [done|]. rewrite Hiff. split.
      * intros (c' & Hc' & Ht). exists c'. split; [by right|done].
      * intros (c' & [->|Hc']%elem_of_cons & Ht); [congruence|by exists c'].
Qed.

(** C3. A condition with neither a minimum nor a maximum demands nothing of
    the location (no bound is given), so that [evaluateConditions] and
    [evaluateRule] ought to answer True for it as they do for any condition
    whose given bounds are met (lemmas [evaluateConditions_bounded] and
    [evaluateRule_any]); the code raises TypeError instead, because its first
    branch compares the value with the absent maximum. *)
Theorem evaluateConditions_unbounded_raises :
  condition_holds unbounded_condition (int 500)
  ∧ evaluateConditions [unbounded_condition] {[ "weight" := Num (int 500) ]}
    = Err TypeError
  ∧ evaluateRule (RuleDescriptor.mk None [[unbounded_condition]] [])
                 {[ "weight" := Num (int 500) ]}
    = Err TypeError.
Proof.
  split; [|split; by vm_compute].
  split; intros ? [=].
Qed.

(** * findDefault *)

Lemma findDefault_byLocation_Some (dl : option Location) (l : list source)
    (s : source) :
  findDefault_byLocation dl l = Some s →
  first_such (λ x, SourceDescriptor.location x = dl) l s.
Proof.
  induction l as [|x rest IH]; [done|]. cbn [findDefault_byLocation].
  case_decide as Hx.
  - intros [= ->]. exists [], rest. by repeat split.
  - intros (pre & post & -> & Hs & Hpre)%IH.
    exists (x :: pre), post. repeat split; [done|]. by constructor.
Qed.


Lemma findDefault_byCopyInfo_Some (l : list source) (s : source) :
  findDefault_byCopyInfo l = Some s →
  first_such (λ x, SourceDescriptor.copyInfo x = true) l s.
Proof.
  induction l as [|x rest IH]; [done|]. cbn [findDefault_byCopyInfo].
  destruct (SourceDescriptor.copyInfo x) eqn:Hx.
  - intros [= ->]. exists [], rest. by repeat split.
  - intros (pre & post & -> & Hs & Hpre)%IH.
    exists (x :: pre), post. repeat split; [done|].
    constructor; [congruence|done].
Qed.

Lemma findDefault_byCopyInfo_None (l : list source) :
  findDefault_byCopyInfo l = None →
  Forall (λ x, SourceDescriptor.copyInfo x = false) l.
Proof.
  induction l as [|x rest IH]; [by constructor|]. cbn [findDefault_byCopyInfo].
  destruct (SourceDescriptor.copyInfo x) eqn:Hx; [done|].
  intros H. constructor; [done|by apply IH].
Qed.




(** * normalize *)

Lemma mapM_Ok_inv {A B : Type} (f : A → result B) (l : list A) (ys : list B) :
  mapM f l = Ok ys → Forall2 (λ x y, f x = Ok y) l ys.
Proof.
  revert ys. induction l as [|x rest IH]; intros ys; cbn [mapM].
  - intros [= <-]. constructor.
  - destruct (f x) as [y|e] eqn:Hx; cbn; [|done].
    destruct (mapM f rest) as [ys'|e] eqn:Hrest; cbn; [|done].
    intros [= <-]. constructor; [done|by apply IH].
Qed.

Lemma mapM_Ok {A B : Type} (f : A → result B) (g : A → B) (l : list A) :
  Forall (λ x, f x = Ok (g x)) l → mapM f l = Ok (g <$> l).
Proof.
  induction 1 as [|x rest Hx _ IH]; [done|].
  cbn [mapM]. rewrite Hx. cbn. rewrite IH. done.
Qed.

Lemma mapM_total {A B : Type} (f : A → result B) (l : list A) :
  Forall (λ x, ∃ y, f x = Ok y) l → ∃ ys, mapM f l = Ok ys.
Proof.
  induction 1 as [|x rest [y Hx] _ [ys IH]]; [by eexists|].
  cbn [mapM]. rewrite Hx. cbn. rewrite IH. by eexists.
Qed.

(** A loop whose iterations can only fail with [e], and one of which does
    fail, fails with [e]. *)
Lemma mapM_Err {A B : Type} (f : A → result B) (l : list A) (e : exn) :
  Forall (λ x, ∀ e', f x = Err e' → e' = e) l →
  Exists (λ x, raises (f x)) l →
  mapM f l = Err e.
Proof.
  induction 1 as [|x rest Hx _ IH]; intros Hex.
  - by apply Exists_nil in Hex.
  - cbn [mapM]. destruct (f x) as [y|e'] eqn:Hfx; cbn.
    + apply Exists_cons in Hex as [Hr|Hex]; [by rewrite Hfx in Hr|].
      by rewrite (IH Hex).
    + f_equal. by apply Hx.
Qed.

Lemma mapM_raises {A B : Type} (f : A → result B) (l : list A) :
  Exists (λ x, raises (f x)) l → raises (mapM f l).
Proof.
  induction 1 as [x rest Hx|x rest _ IH]; cbn [mapM].
  - by destruct (f x).
  - destruct (f x); [|done]. cbn. by destruct (mapM f rest).
Qed.

Lemma normalizeLocation_Ok (axes : list axis) (location : Location) :
  ∃ new, normalizeLocation axes location = Ok new.
Proof.
  destruct (normalizeLocation_lookup axes location) as (new & H & _). eauto.
Qed.

Lemma normalizeSingle_eq (axes : list axis) (n : string) (v : Qc) :
  normalizeSingle axes n v
  = Ok ((λ a, normalized a (Num v)) <$> last_axis n axes).
Proof.
  unfold normalizeSingle.
  destruct (normalizeLocation_lookup axes {[ n := Num v ]}) as (new & -> & Hl).
  cbn. rewrite Hl, lookup_singleton_eq. by destruct (last_axis n axes).
Qed.

(** The lookup made in the axis loop never misses. *)
Lemma normalizeSingle_declared (axes : list axis) (a : axis) (v : Qc) :
  a ∈ axes → ∃ x, normalizeSingle axes (AxisDescriptor.name a) v = Ok (Some x).
Proof.
  intros Ha. rewrite normalizeSingle_eq.
  destruct (last_axis (AxisDescriptor.name a) axes) as [b|] eqn:Hb; [by eexists|].
  apply last_axis_None in Hb. destruct Hb. by apply list_elem_of_fmap_2.
Qed.

Lemma normalizeOwn_eq (axes : list axis) (a : axis) (v : Qc) :
  last_axis (AxisDescriptor.name a) axes = Some a →
  normalizeOwn axes (AxisDescriptor.name a) v = Ok (normalized a (Num v)).
Proof.
  intros Ha. unfold normalizeOwn. rewrite normalizeSingle_eq, Ha. done.
Qed.

Lemma normalized_same_bounds (a b : axis) (v : value) :
  AxisDescriptor.minimum a = AxisDescriptor.minimum b →
  AxisDescriptor.maximum a = AxisDescriptor.maximum b →
  AxisDescriptor.default a = AxisDescriptor.default b →
  normalized a v = normalized b v.
Proof.
  intros H1 H2 H3. unfold normalized, normalizeValue. by rewrite H1, H2, H3.
Qed.

Lemma list_insert_middle {A : Type} (l1 l2 : list A) (x y : A) :
  <[List.length l1 := y]> (l1 ++ x :: l2) = (l1 ++ y :: l2)%list.
Proof.
  rewrite insert_app_r_alt by done. by rewrite Nat.sub_diag.
Qed.

Lemma last_axis_middle (l1 l2 : list axis) (a : axis) :
  NoDup (AxisDescriptor.name <$> (l1 ++ a :: l2)) →
  last_axis (AxisDescriptor.name a) (l1 ++ a :: l2) = Some a.
Proof.
  intros Hnd. apply last_axis_NoDup; [done|].
  apply elem_of_app. right. by left.
Qed.

(** One turn of the axis loop, on the axis in the middle of the list. *)
Lemma normalize_axis_middle (l1 l2 : list axis) (a : axis) :
  NoDup (AxisDescriptor.name <$> (l1 ++ a :: l2)) →
  normalize_axis (l1 ++ a :: l2) (List.length l1)
  = Ok (l1 ++ normalized_axis a :: l2)%list.
Proof.
  intros Hnd. unfold normalize_axis.
  rewrite list_lookup_middle by done.
  rewrite (mapM_Ok _ (λ io : Qc * Qc, (io.1, normalized a (Num io.2)))).
  2:{ apply Forall_forall. intros io _.
      by rewrite normalizeOwn_eq by (by apply last_axis_middle). }
  cbn [mbind result_bind].
  set (newMap := (λ io : Qc * Qc, (io.1, normalized a (Num io.2)))
                   <$> AxisDescriptor.map a).
  set (a1 := match newMap with [] => a | _ :: _ => set_map a newMap end).
  assert (a1 = set_map a newMap) as Ha1.
  { subst a1 newMap. destruct a as [t n mn mx d h [|io m]]; done. }
  clearbody a1. subst a1.
  rewrite list_insert_middle.
  assert (NoDup (AxisDescriptor.name <$> (l1 ++ set_map a newMap :: l2))) as Hnd'.
  { by rewrite fmap_app, fmap_cons in *. }
  pose proof (last_axis_middle _ _ _ Hnd') as Hlast.
  rewrite !(normalizeOwn_eq _ (set_map a newMap)) by done.
  cbn [mbind result_bind]. by rewrite list_insert_middle.
Qed.

Lemma normalize_axes_from (l1 l2 : list axis) :
  NoDup (AxisDescriptor.name <$> (l1 ++ l2)) →
  foldM normalize_axis ((normalized_axis <$> l1) ++ l2)
        (seq (List.length l1) (List.length l2))
  = Ok (normalized_axis <$> (l1 ++ l2)).
Proof.
  revert l1. induction l2 as [|a rest IH]; intros l1 Hnd.
  - by rewrite !app_nil_r.
  - cbn [List.length seq foldM].
    replace (List.length l1) with (List.length (normalized_axis <$> l1))
      by apply length_fmap.
    rewrite normalize_axis_middle.
    2:{ by rewrite fmap_app, <-list_fmap_compose, <-fmap_app. }
    cbn [mbind result_bind]. rewrite length_fmap.
    specialize (IH (l1 ++ [a])).
    rewrite <-(app_assoc l1 [a] rest) in IH.
    rewrite (fmap_app normalized_axis), <-app_assoc, length_app in IH.
    cbn [List.length] in IH. rewrite Nat.add_1_r in IH. by apply IH.
Qed.

Lemma normalize_axes_eq (axes : list axis) :
  NoDup (AxisDescriptor.name <$> axes) →
  normalize_axes axes = Ok (normalized_axis <$> axes).
Proof. intros Hnd. by apply (normalize_axes_from [] axes). Qed.

Lemma normalizeLocation_attr_Ok (axes : list axis) (o : option Location) :
  is_Some o → ∃ new, normalizeLocation_attr axes o = Ok new.
Proof. intros [l ->]. apply normalizeLocation_Ok. Qed.

Lemma normalize_source_Ok (axes : list axis) (s : source) :
  is_Some (SourceDescriptor.location s) → ∃ s', normalize_source axes s = Ok s'.
Proof.
  intros Hs. unfold normalize_source.
  destruct (normalizeLocation_attr_Ok axes _ Hs) as [new ->]. by eexists.
Qed.

Lemma normalize_glyphMaster_Ok (axes : list axis) (m : glyphMaster) :
  is_Some (GlyphMaster.location m) → ∃ m', normalize_glyphMaster axes m = Ok m'.
Proof.
  intros Hm. unfold normalize_glyphMaster.
  destruct (normalizeLocation_attr_Ok axes _ Hm) as [new ->]. by eexists.
Qed.

(** What the loop body does with one glyph override whose masters all have
    a location: it completes when both keys are there, and raises [KeyError]
    otherwise. *)
Lemma normalize_glyphData_cases (axes : list axis) (g : glyphData) :
  masters_located g →
  (override_complete g ∧ ∃ g', normalize_glyphData axes g = Ok g')
  ∨ (¬ override_complete g ∧ normalize_glyphData axes g = Err KeyError).
Proof.
  unfold masters_located, override_complete, normalize_glyphData.
  destruct g as [mu un no [il|] ms]; cbn.
  - destruct (normalizeLocation_Ok axes il) as [il' ->]. cbn.
    destruct ms as [ms|]; cbn.
    + intros Hms. left. split; [by eauto|].
      destruct (mapM_total (normalize_glyphMaster axes) ms) as [ms' ->].
      { eapply Forall_impl; [exact Hms|]. apply normalize_glyphMaster_Ok. }
      by eexists.
    + intros _. right. split; [|done]. by intros [_ [? ?]].
  - intros _. right. split; [|done]. by intros [[? ?] _].
Qed.

Lemma normalize_glyphData_raises (axes : list axis) (g : glyphData) :
  ¬ override_complete g → raises (normalize_glyphData axes g).
Proof.
  unfold override_complete, normalize_glyphData.
  destruct g as [mu un no [il|] [ms|]]; cbn; try done.
  - intros []. eauto.
  - intros _. by destruct (normalizeLocation_Ok axes il) as [il' ->].
Qed.

Lemma normalize_instance_raises (axes : list axis) (i : instance) :
  Exists (λ ng : string * glyphData, ¬ override_complete ng.2)
         (InstanceDescriptor.glyphs i) →
  raises (normalize_instance axes i).
Proof.
  intros Hex. unfold normalize_instance.
  assert (raises (mapM (λ ng : string * glyphData,
                          g' ← normalize_glyphData axes ng.2; Ok (ng.1, g'))
                       (InstanceDescriptor.glyphs i))) as Hr.
  { apply mapM_raises. eapply Exists_impl; [exact Hex|].
    intros ng Hng. apply (normalize_glyphData_raises axes) in Hng.
    by destruct (normalize_glyphData axes ng.2). }
  by destruct (mapM _ (InstanceDescriptor.glyphs i)).
Qed.

Lemma normalize_instance_cases (axes : list axis) (i : instance) :
  instance_located i →
  (Forall (λ ng : string * glyphData, override_complete ng.2)
          (InstanceDescriptor.glyphs i)
   ∧ ∃ i', normalize_instance axes i = Ok i')
  ∨ (Exists (λ ng : string * glyphData, ¬ override_complete ng.2)
            (InstanceDescriptor.glyphs i)
     ∧ normalize_instance axes i = Err KeyError).
Proof.
  intros [Hloc Hms]. unfold normalize_instance.
  set (f := λ ng : string * glyphData,
              g' ← normalize_glyphData axes ng.2; Ok (ng.1, g')).
  assert (Forall (λ ng, (override_complete ng.2 ∧ ∃ y, f ng = Ok y)
                        ∨ (¬ override_complete ng.2 ∧ f ng = Err KeyError))
                 (InstanceDescriptor.glyphs i)) as Hcases.
  { eapply Forall_impl; [exact Hms|]. intros ng Hng. unfold f.
    destruct (normalize_glyphData_cases axes ng.2 Hng)
      as [[Hc [g' ->]]|[Hc ->]]; [left|right]; split; try done. by eexists. }
  destruct (decide (Forall (λ ng : string * glyphData,
                              is_Some (GlyphData.instanceLocation ng.2)
                              ∧ is_Some (GlyphData.masters ng.2))
                           (InstanceDescriptor.glyphs i))) as [Hall|Hnot].
  - left. split; [done|].
    destruct (mapM_total f (InstanceDescriptor.glyphs i)) as [gs ->].
    { apply Forall_forall. intros ng Hng.
      rewrite Forall_forall in Hcases, Hall.
      destruct (Hcases ng Hng) as [[_ ?]|[Hc _]]; [done|].
      by destruct Hc, (Hall ng Hng). }
    cbn. destruct (normalizeLocation_attr_Ok axes _ Hloc) as [new ->].
    by eexists.
  - apply not_Forall_Exists in Hnot; [|apply _]. right. split; [done|].
    rewrite (mapM_Err f _ KeyError); [done| |].
    + eapply Forall_impl; [exact Hcases|]. intros ng [[_ [y ->]]|[_ ->]] e'; congruence.
    + eapply Exists_impl; [exact Hnot|]. intros ng Hng.
      rewrite Forall_forall in Hcases.
      unfold f. pose proof (normalize_glyphData_raises axes ng.2 Hng).
      by destruct (normalize_glyphData axes ng.2).
Qed.

Lemma normalize_rule_Ok (axes : list axis) (r : rule) :
  ∃ r', normalize_rule axes r = Ok r'.
Proof.
  unfold normalize_rule.
  destruct (mapM_total (mapM (normalize_condition axes))
                       (RuleDescriptor.conditionSets r)) as [cs ->];
    [|by eexists].
  apply Forall_forall. intros c _. apply mapM_total.
  apply Forall_forall. intros cd _. unfold normalize_condition, normalize_bound.
  destruct (Condition.minimum cd), (Condition.maximum cd);
    rewrite ?normalizeSingle_eq; cbn; by eexists.
Qed.

(** [normalize] completes on a document whose axis names are unique, whose
    stored locations are all mappings and whose glyph overrides all carry
    both keys; the axes it leaves are the [normalized_axis] of the old ones. *)
Lemma normalize_Ok (self : document) :
  NoDup (AxisDescriptor.name <$> DesignSpaceDocument.axes self) →
  locations_set self →
  overrides_complete self →
  ∃ self', normalize self = Ok self' ∧
    DesignSpaceDocument.axes self'
    = normalized_axis <$> DesignSpaceDocument.axes self.
Proof.
  intros Hnd [Hsrc Hinst] Hov. unfold normalize.
  destruct (mapM_total (normalize_source (DesignSpaceDocument.axes self))
                       (DesignSpaceDocument.sources self)) as [ss ->].
  { eapply Forall_impl; [exact Hsrc|]. apply normalize_source_Ok. }
  cbn [mbind result_bind].
  destruct (mapM_total (normalize_instance (DesignSpaceDocument.axes self))
                       (DesignSpaceDocument.instances self)) as [insts ->].
  { apply Forall_forall. intros i Hi. unfold overrides_complete in Hov.
    rewrite Forall_forall in Hinst. rewrite Forall_forall in Hov.
    destruct (normalize_instance_cases (DesignSpaceDocument.axes self) i
                (Hinst i Hi)) as [[_ ?]|[Hex _]]; [done|].
    apply Exists_exists in Hex as (ng & Hng & Hbad).
    specialize (Hov i Hi). rewrite Forall_forall in Hov.
    by destruct Hbad, (Hov ng Hng). }
  cbn [mbind result_bind]. rewrite normalize_axes_eq by done.
  cbn [mbind result_bind].
  destruct (mapM_total
              (normalize_rule (normalized_axis <$> DesignSpaceDocument.axes self))
              (DesignSpaceDocument.rules self)) as [rs ->].
  { apply Forall_forall. intros r _. apply normalize_rule_Ok. }
  by eexists.
Qed.

(** C7. On a document that [normalize] accepts (unique axis names, every
    stored location a mapping, every glyph override complete), [normalize]
    completes and replaces each pair (input, output) of each axis map by a
    pair with the same input and with the output normalised by that axis as
    any other value of the axis is: it is the number that [normalizeValue]
    computes for the axis, and the entry that [normalizeLocation] gives for
    the axis name. *)
Theorem normalize_axis_maps (self : document) :
  NoDup (AxisDescriptor.name <$> DesignSpaceDocument.axes self) →
  locations_set self →
  overrides_complete self →
  ∃ self', normalize self = Ok self' ∧
    Forall2
      (λ a a',
         Forall2
           (λ io io' : Qc * Qc,
              io'.1 = io.1
              ∧ normalizeValue a (Num io.2) = Ok io'.2
              ∧ ∃ new,
                  normalizeLocation (DesignSpaceDocument.axes self)
                    {[ AxisDescriptor.name a := Num io.2 ]} = Ok new
                  ∧ new !! AxisDescriptor.name a = Some (Num io'.2))
           (AxisDescriptor.map a) (AxisDescriptor.map a'))
      (DesignSpaceDocument.axes self) (DesignSpaceDocument.axes self').
Proof.
  intros Hnd Hloc Hov.
  destruct (normalize_Ok self Hnd Hloc Hov) as (self' & Hn & Hax).
  exists self'. split; [done|]. rewrite Hax.
  apply Forall2_fmap_r, Forall_Forall2_diag, Forall_forall. intros a Ha.
  cbn [normalized_axis AxisDescriptor.map].
  apply Forall2_fmap_r, Forall_Forall2_diag, Forall_forall. intros io _.
  cbn. split; [done|]. split; [apply normalizeValue_normalized|].
  destruct (normalizeLocation_lookup (DesignSpaceDocument.axes self)
              {[ AxisDescriptor.name a := Num io.2 ]}) as (new & Hnew & Hl).
  exists new. split; [done|].
  by rewrite Hl, lookup_singleton_eq, (last_axis_NoDup _ a).
Qed.

Lemma normalize_axis_maps_witness :
  ∃ self', normalize mapped_document = Ok self' ∧
    ((λ a, (λ io : Qc * Qc, (this io.1, this io.2)) <$> AxisDescriptor.map a)
       <$> DesignSpaceDocument.axes self')
    = [[(500 # 1, 1 # 4); (1000 # 1, 1 # 1)]]%Q.
Proof.
  destruct (normalize_axis_maps mapped_document) as (self' & Hn & _).
  - apply NoDup_singleton.
  - split; repeat constructor; by eexists.
  - repeat constructor.
  - exists self'. split; [exact Hn|].
    revert Hn. vm_compute. intros [= <-]. reflexivity.
Defined.

(** C10. An instance with a glyph override that lacks ['instanceLocation']
    or ['masters'] makes [normalize] raise instead of completing; the
    exception is [KeyError] whenever the locations stored in the document
    are all mappings (a [None] location met earlier raises [TypeError]). *)
Theorem normalize_incomplete_override (self : document) (i : instance)
    (ng : string * glyphData) :
  i ∈ DesignSpaceDocument.instances self →
  ng ∈ InstanceDescriptor.glyphs i →
  GlyphData.instanceLocation ng.2 = None ∨ GlyphData.masters ng.2 = None →
  raises (normalize self)
  ∧ (locations_set self → normalize self = Err KeyError).
Proof.
  intros Hi Hng Hmiss.
  assert (Exists (λ ng : string * glyphData, ¬ override_complete ng.2)
                 (InstanceDescriptor.glyphs i)) as Hex.
  { apply Exists_exists. exists ng. split; [done|].
    intros [[? H1] [? H2]]. destruct Hmiss; congruence. }
  split.
  - unfold normalize.
    destruct (mapM (normalize_source _) _); [|done]. cbn [mbind result_bind].
    assert (raises (mapM (normalize_instance (DesignSpaceDocument.axes self))
                         (DesignSpaceDocument.instances self))) as Hr.
    { apply mapM_raises, Exists_exists. exists i. split; [done|].
      by apply normalize_instance_raises. }
    by destruct (mapM (normalize_instance _) _).
  - intros [Hsrc Hinst]. unfold normalize.
    destruct (mapM_total (normalize_source (DesignSpaceDocument.axes self))
                         (DesignSpaceDocument.sources self)) as [ss ->].
    { eapply Forall_impl; [exact Hsrc|]. apply normalize_source_Ok. }
    cbn [mbind result_bind].
    rewrite (mapM_Err _ _ KeyError); [done| |].
    + eapply Forall_impl; [exact Hinst|]. intros j Hj e'.
      destruct (normalize_instance_cases (DesignSpaceDocument.axes self) j Hj)
        as [[_ [j' ->]]|[_ ->]]; congruence.
    + apply Exists_exists. exists i. split; [done|].
      by apply normalize_instance_raises.
Qed.

Lemma normalize_incomplete_override_witness :
  normalize muting_document = Err KeyError.
Proof.
  apply (normalize_incomplete_override muting_document
           (plain_instance "medium" {[ "weight" := Num (int 500) ]}
                           [("a", mute_only)])
           ("a", mute_only)).
  - apply list_elem_of_singleton. reflexivity.
  - apply list_elem_of_singleton. reflexivity.
  - left. reflexivity.
  - split; repeat constructor; by eexists.
Defined.

(** C10, refuted as stated: [unlocated_document] has an instance whose glyph
    override only mutes the glyph, and [normalize] raises TypeError, not
    KeyError: the master without location stops the loop over the sources,
    before any override is looked at. *)
Lemma normalize_unlocated_TypeError :
  (∃ i ng, i ∈ DesignSpaceDocument.instances unlocated_document
           ∧ ng ∈ InstanceDescriptor.glyphs i
           ∧ GlyphData.instanceLocation ng.2 = None
           ∧ GlyphData.masters ng.2 = None)
  ∧ normalize unlocated_document = Err TypeError.
Proof.
  split; [|by vm_compute].
  eexists _, _. split; [by left|]. split; [by left|]. by split.
Qed.

(** * The writer: locations *)

Lemma newDefaultLocation_fold (axes : list axis) (acc : odict) (k : string) :
  od_map (foldl (λ loc a, odict_set (AxisDescriptor.name a)
                            (Num (AxisDescriptor.default a)) loc) acc axes) !! k
  = match last_axis k axes with
    | Some a => Some (Num (AxisDescriptor.default a))
    | None => od_map acc !! k
    end.
Proof.
  revert acc. induction axes as [|a rest IH]; intros acc; [done|].
  cbn [foldl last_axis]. rewrite IH.
  destruct (last_axis k rest); [done|]. cbn [odict_set od_map].
  case_decide as Hk.
  - subst k. by rewrite lookup_insert_eq.
  - by rewrite lookup_insert_ne.
Qed.

Lemma allDefaults_lookup (axes : list axis) (k : string) :
  allDefaults axes !! k
  = (λ a, Num (AxisDescriptor.default a)) <$> last_axis k axes.
Proof.
  unfold allDefaults, newDefaultLocation. rewrite newDefaultLocation_fold.
  by destruct (last_axis k axes).
Qed.

Lemma dom_allDefaults (axes : list axis) : dom (allDefaults axes) = axisNames axes.
Proof.
  apply set_eq. intros k. unfold axisNames.
  rewrite elem_of_dom, elem_of_list_to_set, allDefaults_lookup.
  destruct (last_axis k axes) as [a|] eqn:Ha.
  - apply last_axis_Some in Ha as [<- Ha]. split; [|by eauto].
    intros _. by apply list_elem_of_fmap_2.
  - apply last_axis_None in Ha. split; [by intros [? ?]|done].
Qed.

(** The validated location: the default location, with the values that the
    written location gives to declared axes. *)
Lemma validated_lookup (axes : list axis) (location : Location) (k : string) :
  validated axes location !! k
  = match allDefaults axes !! k with
    | Some d => Some (default d (location !! k))
    | None => None
    end.
Proof.
  unfold validated, validatedLocation, allDefaults. revert k.
  apply (map_fold_weak_ind
           (λ (acc : odict) (m : Location),
              ∀ k, od_map acc !! k
                   = match od_map (newDefaultLocation axes) !! k with
                     | Some d => Some (default d (m !! k))
                     | None => None
                     end)).
  - intros k. rewrite lookup_empty. by destruct (_ !! k).
  - intros i x m r Hi IH k. unfold validate_item.
    case_decide as Hs.
    + cbn [odict_set od_map]. destruct (decide (i = k)) as [->|Hne].
      * rewrite !lookup_insert_eq. destruct Hs as [y Hy].
        rewrite IH in Hy. by destruct (od_map (newDefaultLocation axes) !! k).
      * rewrite !lookup_insert_ne by done. apply IH.
    + destruct (decide (i = k)) as [->|Hne].
      * rewrite lookup_insert_eq.
        destruct (od_map r !! k) as [y|] eqn:Hy; [destruct Hs; by eauto|].
        rewrite IH in Hy. by destruct (od_map (newDefaultLocation axes) !! k).
      * rewrite lookup_insert_ne by done. apply IH.
Qed.

Lemma dom_validated (axes : list axis) (location : Location) :
  dom (validated axes location) = axisNames axes.
Proof.
  rewrite <-dom_allDefaults. apply set_eq. intros k.
  rewrite !elem_of_dom, validated_lookup.
  destruct (allDefaults axes !! k); split; intros [? ?]; by eauto.
Qed.

(** Writing leaves a location as it is exactly when its keys are the
    declared axis names. *)
Lemma validated_fixed (axes : list axis) (location : Location) :
  validated axes location = location ↔ dom location = axisNames axes.
Proof.
  split.
  - intros <-. apply dom_validated.
  - intros Hdom. apply map_eq. intros k. rewrite validated_lookup.
    rewrite <-dom_allDefaults in Hdom.
    destruct (allDefaults axes !! k) as [d|] eqn:Hd.
    + assert (k ∈ dom location) as [v ->]%elem_of_dom; [|done].
      rewrite Hdom. apply elem_of_dom. by eauto.
    + symmetry. apply not_elem_of_dom. rewrite Hdom. by apply not_elem_of_dom.
Qed.

Lemma _makeLocationElement_Some (axes : list axis) (location : Location)
    (name : option string) :
  ∃ e, _makeLocationElement axes (Some location) name
       = Ok (e, validated axes location).
Proof. unfold _makeLocationElement. by eexists. Qed.

Lemma foldM_total {A S : Type} (f : S → A → result S) (l : list A) (s : S) :
  (∀ s x, ∃ s', f s x = Ok s') → ∃ s', foldM f s l = Ok s'.
Proof.
  intros Hf. revert s. induction l as [|x rest IH]; intros s; [by eexists|].
  cbn [foldM]. destruct (Hf s x) as [s' ->]. cbn. apply IH.
Qed.

Lemma _addSource_Some (axes : list axis) (s : source) (location : Location) :
  SourceDescriptor.location s = Some location →
  ∃ e, _addSource axes s
       = Ok (e, SourceDescriptor.set_location s (Some (validated axes location))).
Proof.
  intros Hs. unfold _addSource. rewrite Hs.
  destruct (_makeLocationElement_Some axes location None) as [e ->].
  cbn. by eexists.
Qed.

Lemma _addSource_None (axes : list axis) (s : source) :
  SourceDescriptor.location s = None → _addSource axes s = Err AttributeError.
Proof. intros Hs. unfold _addSource. by rewrite Hs. Qed.

Lemma _writeGlyphElement_master_Ok (axes : list axis)
    (st : element * list glyphMaster) (m : glyphMaster) :
  ∃ st', _writeGlyphElement_master axes st m = Ok st'.
Proof.
  destruct st as [e ms]. unfold _writeGlyphElement_master.
  destruct (GlyphMaster.location m) as [l|]; [|by eexists].
  destruct (_makeLocationElement_Some axes l None) as [le ->]. by eexists.
Qed.

Lemma _writeGlyphElement_Ok (axes : list axis) (glyphName : string)
    (data : glyphData) :
  ∃ r, _writeGlyphElement axes glyphName data = Ok r.
Proof.
  unfold _writeGlyphElement.
  destruct (GlyphData.instanceLocation data) as [l|].
  - destruct (_makeLocationElement_Some axes l None) as [le ->].
    cbn [mbind result_bind GlyphData.set_instanceLocation GlyphData.masters
         GlyphData.note].
    destruct (GlyphData.masters data) as [ms|]; [|by eexists].
    destruct (foldM_total (_writeGlyphElement_master axes) ms
                (new_element "masters", []))
      as [[me ms'] ->]; [apply _writeGlyphElement_master_Ok|].
    by eexists.
  - cbn [mbind result_bind].
    destruct (GlyphData.masters data) as [ms|]; [|by eexists].
    destruct (foldM_total (_writeGlyphElement_master axes) ms
                (new_element "masters", []))
      as [[me ms'] ->]; [apply _writeGlyphElement_master_Ok|].
    by eexists.
Qed.

Lemma _addInstance_glyph_Ok (axes : list axis)
    (st : element * list (string * glyphData)) (ng : string * glyphData) :
  ∃ st', _addInstance_glyph axes st ng = Ok st'.
Proof.
  destruct st as [e gs]. unfold _addInstance_glyph.
  destruct (_writeGlyphElement_Ok axes ng.1 ng.2) as [[ge d] ->]. by eexists.
Qed.

(** [_addInstance] never raises, and the location it leaves in the instance
    is the validated one ([None] stays [None]). *)
Lemma _addInstance_Ok (axes : list axis) (i : instance) :
  ∃ e i', _addInstance axes i = Ok (e, i')
          ∧ InstanceDescriptor.location i'
            = validated axes <$> InstanceDescriptor.location i.
Proof.
  unfold _addInstance.
  destruct i as [fn n [l|] fam sty ps smf sms gs k inf];
    cbn [InstanceDescriptor.location InstanceDescriptor.name
         InstanceDescriptor.familyName InstanceDescriptor.styleName].
  - destruct (_makeLocationElement_Some axes l None) as [le ->].
    cbn [mbind result_bind InstanceDescriptor.set_location
         InstanceDescriptor.glyphs InstanceDescriptor.filename
         InstanceDescriptor.postScriptFontName
         InstanceDescriptor.styleMapFamilyName
         InstanceDescriptor.styleMapStyleName].
    destruct gs as [|g gs]; [by eexists _, _|].
    destruct (foldM_total (_addInstance_glyph axes)
                (merge_sort glyph_le (g :: gs))
                (new_element "glyphs", g :: gs))
      as [[ge gs'] ->]; [apply _addInstance_glyph_Ok|].
    by eexists _, _.
  - cbn [mbind result_bind InstanceDescriptor.set_location
         InstanceDescriptor.glyphs InstanceDescriptor.filename
         InstanceDescriptor.postScriptFontName
         InstanceDescriptor.styleMapFamilyName
         InstanceDescriptor.styleMapStyleName].
    destruct gs as [|g gs]; [by eexists _, _|].
    destruct (foldM_total (_addInstance_glyph axes)
                (merge_sort glyph_le (g :: gs))
                (new_element "glyphs", g :: gs))
      as [[ge gs'] ->]; [apply _addInstance_glyph_Ok|].
    by eexists _, _.
Qed.

(** * The writer: the tree *)

Lemma append_to_first_last (t : string) (c : element) (pre : list element)
    (a : list (string * string)) (tx : option string) (cs : list element) :
  Forall (λ x, tag x ≠ t) pre →
  append_to_first t c (pre ++ [Element t a tx cs])
  = Some (pre ++ [Element t a tx (cs ++ [c])]).
Proof.
  induction 1 as [|x pre Hx _ IH]; cbn [append_to_first app].
  - by rewrite decide_True.
  - rewrite decide_False by done. by rewrite IH.
Qed.

Lemma findall0_append_last (t : string) (c : element) (rt : string)
    (ra : list (string * string)) (rtx : option string) (pre : list element)
    (a : list (string * string)) (tx : option string) (cs : list element) :
  Forall (λ x, tag x ≠ t) pre →
  findall0_append t c (Element rt ra rtx (pre ++ [Element t a tx cs]))
  = Ok (Element rt ra rtx (pre ++ [Element t a tx (cs ++ [c])])).
Proof.
  intros Hpre. unfold findall0_append. by rewrite append_to_first_last.
Qed.

(** A loop that appends to the section [t] what [g] yields, skipping the
    items for which it yields nothing. *)
Lemma foldM_append {A : Type} (step : element → A → result element)
    (g : A → option element) (t rt : string) (ra : list (string * string))
    (rtx : option string) (pre : list element) (a : list (string * string))
    (tx : option string) (l : list A) (cs : list element) :
  (∀ root x, step root x = match g x with
                           | Some e => findall0_append t e root
                           | None => Ok root
                           end) →
  Forall (λ x, tag x ≠ t) pre →
  foldM step (Element rt ra rtx (pre ++ [Element t a tx cs])) l
  = Ok (Element rt ra rtx (pre ++ [Element t a tx (cs ++ omap g l)])).
Proof.
  intros Hstep Hpre. revert cs. induction l as [|x rest IH]; intros cs.
  - cbn. by rewrite app_nil_r.
  - cbn [foldM omap list_omap]. rewrite Hstep. destruct (g x) as [e|].
    + rewrite findall0_append_last by done. cbn [mbind result_bind].
      rewrite IH. by rewrite <-app_assoc.
    + cbn [mbind result_bind]. apply IH.
Qed.

(** A loop that appends to the section [t] the elements that [g] builds,
    and collects the updated descriptors. *)
Lemma foldM_append_state {A : Type}
    (step : element * list A → A → result (element * list A))
    (g : A → result (element * A)) (t rt : string)
    (ra : list (string * string)) (rtx : option string) (pre : list element)
    (a : list (string * string)) (tx : option string) (l : list A)
    (rs : list (element * A)) (cs : list element) (acc : list A) :
  (∀ st x, step st x = (r ← g x;
                        root ← findall0_append t r.1 st.1;
                        Ok (root, st.2 ++ [r.2]))) →
  Forall (λ x, tag x ≠ t) pre →
  mapM g l = Ok rs →
  foldM step (Element rt ra rtx (pre ++ [Element t a tx cs]), acc) l
  = Ok (Element rt ra rtx (pre ++ [Element t a tx (cs ++ rs.*1)]), acc ++ rs.*2).
Proof.
  intros Hstep Hpre. revert rs cs acc.
  induction l as [|x rest IH]; intros rs cs acc; cbn [mapM].
  - intros [= <-]. cbn. by rewrite !app_nil_r.
  - destruct (g x) as [r|e] eqn:Hx; cbn [mbind result_bind]; [|done].
    destruct (mapM g rest) as [rs'|e] eqn:Hrest; cbn [mbind result_bind];
      [|done].
    intros [= <-]. cbn [foldM]. rewrite Hstep, Hx. cbn [mbind result_bind fst snd].
    rewrite findall0_append_last by done. cbn [mbind result_bind].
    rewrite (IH rs') by done. cbn [fmap list_fmap].
    by rewrite <-!app_assoc.
Qed.

Lemma write_axes_eq (axes : list axis) (rt : string)
    (ra : list (string * string)) (rtx : option string) (pre : list element) :
  Forall (λ x, tag x ≠ "axes") pre →
  write_axes axes (Element rt ra rtx pre)
  = Ok (Element rt ra rtx (pre ++ sec "axes" axes (axisElement <$> axes))).
Proof.
  intros Hpre. unfold write_axes. destruct axes as [|a0 axes].
  - cbn. by rewrite app_nil_r.
  - cbn [open_section append sec]. unfold new_element at 1.
    rewrite (foldM_append _ (λ a, Some (axisElement a)) "axes") by done.
    cbn [app]. do 4 f_equal.
    all: generalize (a0 :: axes); intros l; induction l; cbn; congruence.
Qed.

Lemma write_rules_eq (rules : list rule) (rt : string)
    (ra : list (string * string)) (rtx : option string) (pre : list element) :
  Forall (λ x, tag x ≠ "rules") pre →
  write_rules rules (Element rt ra rtx pre)
  = Ok (Element rt ra rtx (pre ++ sec "rules" rules (omap emitted_rule rules))).
Proof.
  intros Hpre. unfold write_rules. destruct rules as [|r0 rules].
  - cbn. by rewrite app_nil_r.
  - cbn [open_section append sec]. unfold new_element at 1.
    rewrite (foldM_append _ emitted_rule "rules"); [done| |done].
    intros root r. unfold _addRule, emitted_rule. by case_decide.
Qed.

Lemma write_sources_eq (axes : list axis) (sources : list source)
    (rs : list (element * source)) (rt : string)
    (ra : list (string * string)) (rtx : option string) (pre : list element) :
  Forall (λ x, tag x ≠ "sources") pre →
  mapM (_addSource axes) sources = Ok rs →
  write_sources axes sources (Element rt ra rtx pre)
  = Ok (Element rt ra rtx (pre ++ sec "sources" sources rs.*1), rs.*2).
Proof.
  intros Hpre Hrs. unfold write_sources. destruct sources as [|s0 sources].
  - injection Hrs as <-. cbn. by rewrite app_nil_r.
  - cbn [open_section append sec]. unfold new_element at 1.
    rewrite (foldM_append_state _ (_addSource axes) _ _ _ _ _ _ _ _ rs);
      [done| |done|done].
    intros st s. unfold write_source.
    destruct (_addSource axes s) as [[e s']|]; done.
Qed.

Lemma write_instances_eq (axes : list axis) (instances : list instance)
    (rs : list (element * instance)) (rt : string)
    (ra : list (string * string)) (rtx : option string) (pre : list element) :
  Forall (λ x, tag x ≠ "instances") pre →
  mapM (_addInstance axes) instances = Ok rs →
  write_instances axes instances (Element rt ra rtx pre)
  = Ok (Element rt ra rtx (pre ++ sec "instances" instances rs.*1), rs.*2).
Proof.
  intros Hpre Hrs. unfold write_instances. destruct instances as [|i0 instances].
  - injection Hrs as <-. cbn. by rewrite app_nil_r.
  - cbn [open_section append sec]. unfold new_element at 1.
    rewrite (foldM_append_state _ (_addInstance axes) _ _ _ _ _ _ _ _ rs);
      [done| |done|done].
    intros st i. unfold write_instance.
    destruct (_addInstance axes i) as [[e i']|]; done.
Qed.

(** * The writer: rules *)

Lemma _addRule_condition_eq (e : element) (c : condition) :
  _addRule_condition e c
  = if has_bound c then append (conditionElement c) e else e.
Proof.
  unfold _addRule_condition, has_bound, conditionElement.
  by destruct (bool_decide (Condition.minimum c = None)
               && bool_decide (Condition.maximum c = None)).
Qed.

Lemma _addRule_condition_fold (conditions : list condition)
    (a : list (string * string)) (tx : option string) (cs : list element) :
  foldl _addRule_condition (Element "conditionset" a tx cs) conditions
  = Element "conditionset" a tx (cs ++ (conditionElement <$> bounded conditions)).
Proof.
  revert cs. induction conditions as [|c rest IH]; intros cs.
  - cbn. by rewrite app_nil_r.
  - cbn [foldl]. unfold bounded. rewrite filter_cons, _addRule_condition_eq.
    destruct (has_bound c) eqn:Hb.
    + rewrite decide_True by done. cbn [append]. fold (bounded rest).
      rewrite IH. cbn [fmap list_fmap]. by rewrite <-app_assoc.
    + rewrite decide_False by done. apply IH.
Qed.

Lemma _addRule_conditionset_fold (css : list (list condition))
    (t : string) (a : list (string * string)) (tx : option string)
    (cs : list element) :
  foldl _addRule_conditionset (Element t a tx cs) css
  = Element t a tx (cs ++ omap conditionsetElement css).
Proof.
  revert cs. induction css as [|c rest IH]; intros cs.
  - cbn. by rewrite app_nil_r.
  - cbn [foldl omap list_omap]. unfold _addRule_conditionset at 2.
    unfold new_element. rewrite _addRule_condition_fold.
    unfold conditionsetElement, len. cbn [children app].
    destruct (bounded c) as [|k kept] eqn:Hk.
    + cbn. apply IH.
    + rewrite decide_False by done. cbn [append]. rewrite IH.
      by rewrite <-app_assoc.
Qed.

Lemma _addRule_sub_fold (subs : list (string * string))
    (t : string) (a : list (string * string)) (tx : option string)
    (cs : list element) :
  foldl _addRule_sub (Element t a tx cs) subs
  = Element t a tx (cs ++ (subElement <$> subs)).
Proof.
  revert cs. induction subs as [|sub rest IH]; intros cs.
  - cbn. by rewrite app_nil_r.
  - cbn [foldl]. unfold _addRule_sub at 2. cbn [append]. rewrite IH.
    cbn [fmap list_fmap]. by rewrite <-app_assoc.
Qed.

Lemma ruleElement_children (r : rule) :
  children (ruleElement r)
  = omap conditionsetElement (RuleDescriptor.conditionSets r)
    ++ (subElement <$> RuleDescriptor.subs r).
Proof.
  unfold ruleElement.
  destruct (RuleDescriptor.name r); cbn [set_attrib_opt set_attrib new_element];
    unfold new_element;
    by rewrite _addRule_conditionset_fold, _addRule_sub_fold.
Qed.

Lemma conditionsetElement_Some (conditions : list condition) (e : element) :
  conditionsetElement conditions = Some e →
  e = Element "conditionset" [] None (conditionElement <$> bounded conditions)
  ∧ bounded conditions ≠ [].
Proof.
  unfold conditionsetElement. destruct (bounded conditions); [done|].
  by intros [= <-].
Qed.

Lemma tag_subElement (sub : string * string) : tag (subElement sub) = "sub".
Proof. done. Qed.

(** * The writer: the whole document *)

Lemma mapM_addSource (axes : list axis) (l : list source) :
  Forall (λ s, is_Some (SourceDescriptor.location s)) l →
  ∃ rs, mapM (_addSource axes) l = Ok rs ∧
    rs.*2 = (λ s, SourceDescriptor.set_location s
                    (validated axes <$> SourceDescriptor.location s)) <$> l.
Proof.
  induction 1 as [|s rest [loc Hs] _ (rs & Hrs & Heq)]; [by eexists|].
  destruct (_addSource_Some axes s loc Hs) as [e He].
  exists ((e, SourceDescriptor.set_location s (Some (validated axes loc))) :: rs).
  cbn [mapM]. rewrite He, Hrs. split; [done|].
  cbn [fmap list_fmap snd]. f_equal; [|exact Heq]. by rewrite Hs.
Qed.

Lemma mapM_addInstance (axes : list axis) (l : list instance) :
  ∃ rs, mapM (_addInstance axes) l = Ok rs ∧
    Forall2 (λ i i', InstanceDescriptor.location i'
                     = validated axes <$> InstanceDescriptor.location i)
            l rs.*2.
Proof.
  induction l as [|i rest (rs & Hrs & Hall)]; [exists []; by split|].
  destruct (_addInstance_Ok axes i) as (e & i' & He & Hi).
  exists ((e, i') :: rs). cbn [mapM]. rewrite He, Hrs. split; [done|].
  by constructor.
Qed.

(** [write] completes on a document whose sources all have a location; the
    tree has the four sections in order, and the descriptors come out with
    their locations validated. *)
Lemma write_Ok (self : document) :
  Forall (λ s, is_Some (SourceDescriptor.location s))
         (DesignSpaceDocument.sources self) →
  let axes := DesignSpaceDocument.axes self in
  ∃ w ses ies,
    write self = Ok w ∧
    root w = Element "designspace" [("format", "4.0")] None
               (sec "axes" axes (axisElement <$> axes)
                ++ sec "rules" (DesignSpaceDocument.rules self)
                       (omap emitted_rule (DesignSpaceDocument.rules self))
                ++ sec "sources" (DesignSpaceDocument.sources self) ses
                ++ sec "instances" (DesignSpaceDocument.instances self) ies) ∧
    DesignSpaceDocument.sources (documentObject w)
    = (λ s, SourceDescriptor.set_location s
              (validated axes <$> SourceDescriptor.location s))
        <$> DesignSpaceDocument.sources self ∧
    Forall2 (λ i i', InstanceDescriptor.location i'
                     = validated axes <$> InstanceDescriptor.location i)
            (DesignSpaceDocument.instances self)
            (DesignSpaceDocument.instances (documentObject w)).
Proof.
  intros Hsrc axes. subst axes. destruct self as [srcs insts axes rules dflt dl].
  cbn [DesignSpaceDocument.axes DesignSpaceDocument.rules
       DesignSpaceDocument.sources DesignSpaceDocument.instances] in *.
  destruct (mapM_addSource axes srcs Hsrc) as (rs & Hrs & Hrs2).
  destruct (mapM_addInstance axes insts) as (ri & Hri & Hri2).
  unfold write.
  cbn [DesignSpaceDocument.axes DesignSpaceDocument.rules
       DesignSpaceDocument.sources DesignSpaceDocument.instances
       DesignSpaceDocument.default DesignSpaceDocument.defaultLoc
       set_attrib new_element app].
  unfold new_element. cbn [set_attrib app].
  rewrite write_axes_eq by constructor. cbn [mbind result_bind app].
  rewrite write_rules_eq by (destruct axes; repeat constructor; done).
  cbn [mbind result_bind].
  rewrite (write_sources_eq _ _ rs);
    [|destruct axes, rules; repeat constructor; done|done].
  cbn [mbind result_bind].
  rewrite (write_instances_eq _ _ ri);
    [|destruct axes, rules, srcs; repeat constructor; done|done].
  cbn [mbind result_bind].
  eexists _, rs.*1, ri.*1. split; [done|].
  cbn [root documentObject DesignSpaceDocument.sources
       DesignSpaceDocument.instances].
  split; [by rewrite <-!app_assoc|]. by split.
Qed.

Lemma section_rules (axes : list axis) (rules : list rule) (srcs : list source)
    (insts : list instance) (a : list (string * string))
    (c1 c2 c3 c4 : list element) :
  section "rules" (Element "designspace" a None
                     (sec "axes" axes c1 ++ sec "rules" rules c2
                      ++ sec "sources" srcs c3 ++ sec "instances" insts c4))
  = match rules with [] => [] | _ :: _ => c2 end.
Proof. by destruct axes, rules, srcs, insts. Qed.

(** C9. When a document is written, a rule condition with neither a minimum
    nor a maximum is dropped: every condition element of the output comes
    from a condition with a bound; every condition with a bound is written,
    inside the condition set element of its rule; and a condition set whose
    conditions all lack bounds yields no element at all. *)
Theorem write_conditions (self : document) :
  Forall (λ s, is_Some (SourceDescriptor.location s))
         (DesignSpaceDocument.sources self) →
  ∃ w, write self = Ok w ∧
    let written := section "rules" (root w) in
    (∀ re cse ce,
       re ∈ written → cse ∈ children re → tag cse = "conditionset" →
       ce ∈ children cse →
       ∃ cond, has_bound cond = true ∧ ce = conditionElement cond) ∧
    (∀ r conditions cond,
       r ∈ DesignSpaceDocument.rules self →
       conditions ∈ RuleDescriptor.conditionSets r →
       cond ∈ conditions → has_bound cond = true →
       ruleElement r ∈ written ∧
       ∃ cse, cse ∈ children (ruleElement r) ∧ tag cse = "conditionset" ∧
              children cse = conditionElement <$> bounded conditions ∧
              conditionElement cond ∈ children cse) ∧
    (∀ r, r ∈ DesignSpaceDocument.rules self →
       children (ruleElement r)
       = omap conditionsetElement (RuleDescriptor.conditionSets r)
         ++ (subElement <$> RuleDescriptor.subs r)) ∧
    (∀ conditions,
       Forall (λ cond, has_bound cond = false) conditions →
       conditionsetElement conditions = None).
Proof.
  intros Hsrc.
  destruct (write_Ok self Hsrc) as (w & ses & ies & Hw & Hroot & _).
  exists w. split; [done|]. cbn zeta. rewrite Hroot, section_rules.
  split; [|split; [|split]].
  - intros re cse ce Hre Hcse Htag Hce.
    assert (∃ r, re = ruleElement r) as [r ->].
    { destruct (DesignSpaceDocument.rules self) as [|r0 rs];
        [by apply elem_of_nil in Hre|].
      apply list_elem_of_omap in Hre as (r & _ & Hr).
      unfold emitted_rule in Hr. case_decide; [done|].
      injection Hr as <-. by exists r. }
    rewrite ruleElement_children in Hcse.
    apply elem_of_app in Hcse as [Hcse|Hcse].
    + apply list_elem_of_omap in Hcse as (conditions & _ & Hc).
      apply conditionsetElement_Some in Hc as [-> _].
      cbn [children] in Hce.
      apply list_elem_of_fmap in Hce as (cond & -> & Hcond).
      exists cond. split; [|done].
      by apply list_elem_of_filter in Hcond as [? _].
    + apply list_elem_of_fmap in Hcse as (sub & -> & _). done.
  - intros r conditions cond Hr Hcs Hcond Hb.
    assert (cond ∈ bounded conditions) as Hkept
      by (by apply list_elem_of_filter).
    assert (conditionsetElement conditions
            = Some (Element "conditionset" [] None
                      (conditionElement <$> bounded conditions))) as Hcse.
    { unfold conditionsetElement. destruct (bounded conditions); [|done].
      by apply elem_of_nil in Hkept. }
    assert (Element "conditionset" [] None
              (conditionElement <$> bounded conditions)
            ∈ children (ruleElement r)) as Hin.
    { rewrite ruleElement_children. apply elem_of_app. left.
      apply list_elem_of_omap. by exists conditions. }
    split.
    + destruct (DesignSpaceDocument.rules self) as [|r0 rs] eqn:Hrules;
        [by apply elem_of_nil in Hr|].
      apply list_elem_of_omap. exists r. split; [done|].
      unfold emitted_rule. rewrite decide_False; [done|].
      unfold len. intros Hlen. apply nil_length_inv in Hlen.
      rewrite Hlen in Hin. by apply elem_of_nil in Hin.
    + eexists. split; [exact Hin|]. split; [done|]. split; [done|].
      cbn [children]. by apply list_elem_of_fmap_2.
  - intros r _. apply ruleElement_children.
  - intros conditions Hall. unfold conditionsetElement.
    assert (bounded conditions = []) as ->; [|done].
    unfold bounded. induction Hall as [|c rest Hc _ IH]; [done|].
    rewrite filter_cons, decide_False by congruence. exact IH.
Qed.

Lemma write_conditions_witness :
  ∃ w, write partial_document = Ok w ∧
    section "rules" (root w)
    = [Element "rule" [("name", "vertical.bars")] None
         [Element "conditionset" [] None
            [Element "condition"
               [("name", "weight"); ("minimum", "250"); ("maximum", "750")]
               None [];
             Element "condition" [("name", "width"); ("minimum", "100")]
               None []];
          Element "sub" [("name", "cent"); ("with", "cent.alt")] None [];
          Element "sub" [("name", "dollar"); ("with", "dollar.alt")] None []]].
Proof.
  destruct (write_conditions partial_document) as (w & Hw & _).
  - repeat constructor. by eexists.
  - exists w. split; [exact Hw|].
    revert Hw. vm_compute. intros [= <-]. reflexivity.
Defined.

(** C8, refuted as stated: writing [partial_document] changes the location
    stored in its source (the key that names no axis goes, the width axis
    comes in at its default) and the one stored in its instance. *)
Lemma write_changes_locations :
  ∃ w, write partial_document = Ok w ∧
    (SourceDescriptor.location <$> DesignSpaceDocument.sources (documentObject w))
    ≠ (SourceDescriptor.location <$> DesignSpaceDocument.sources partial_document) ∧
    (InstanceDescriptor.location
       <$> DesignSpaceDocument.instances (documentObject w))
    ≠ (InstanceDescriptor.location
         <$> DesignSpaceDocument.instances partial_document).
Proof.
  eexists. split; [by vm_compute|].
  split; intros H;
    apply (f_equal (λ l : list (option Location),
                      (head l ≫= id) ≫= (λ m : Location, m !! "width"))) in H;
    by vm_compute in H.
Qed.

(** C8, amended. Writing a document whose sources all have a location
    completes, and replaces every stored source location and every stored
    instance location (one that is [None] stays so) by its validated form:
    the default location, with the stored values of the declared axes. A
    stored location therefore stays the same exactly when its keys are the
    declared axis names. *)
Theorem write_locations (self : document) :
  Forall (λ s, is_Some (SourceDescriptor.location s))
         (DesignSpaceDocument.sources self) →
  let axes := DesignSpaceDocument.axes self in
  ∃ w, write self = Ok w ∧
    DesignSpaceDocument.sources (documentObject w)
    = (λ s, SourceDescriptor.set_location s
              (validated axes <$> SourceDescriptor.location s))
        <$> DesignSpaceDocument.sources self ∧
    Forall2 (λ i i', InstanceDescriptor.location i'
                     = validated axes <$> InstanceDescriptor.location i)
            (DesignSpaceDocument.instances self)
            (DesignSpaceDocument.instances (documentObject w)) ∧
    (∀ location k,
       validated axes location !! k
       = match allDefaults axes !! k with
         | Some d => Some (default d (location !! k))
         | None => None
         end) ∧
    (∀ location,
       validated axes location = location ↔ dom location = axisNames axes).
Proof.
  intros Hsrc axes.
  destruct (write_Ok self Hsrc) as (w & ses & ies & Hw & _ & Hs & Hi).
  exists w. repeat split; try done.
  - apply validated_lookup.
  - apply validated_fixed.
  - apply validated_fixed.
Qed.

Lemma write_locations_witness :
  ∃ w, write partial_document = Ok w ∧
    ((λ s, map_to_list <$> SourceDescriptor.location s)
       <$> DesignSpaceDocument.sources (documentObject w))
    = [Some [("weight", Num (int 700)); ("width", Num (int 100))]].
Proof.
  destruct (write_locations partial_document) as (w & Hw & _).
  - repeat constructor. by eexists.
  - exists w. split; [exact Hw|].
    revert Hw. vm_compute. intros [= <-]. reflexivity.
Defined.

(** * Number formatting *)

Local Arguments String.append : simpl nomatch.

Lemma digit_cases (d : Z) (u : Decimal.uint) :
  (0 ≤ d ≤ 9)%Z →
  (d = 0%Z ∧ digit d u = D0 u) ∨ (d = 1%Z ∧ digit d u = D1 u)
  ∨ (d = 2%Z ∧ digit d u = D2 u) ∨ (d = 3%Z ∧ digit d u = D3 u)
  ∨ (d = 4%Z ∧ digit d u = D4 u) ∨ (d = 5%Z ∧ digit d u = D5 u)
  ∨ (d = 6%Z ∧ digit d u = D6 u) ∨ (d = 7%Z ∧ digit d u = D7 u)
  ∨ (d = 8%Z ∧ digit d u = D8 u) ∨ (d = 9%Z ∧ digit d u = D9 u).
Proof.
  intros Hd.
  assert (d = 0 ∨ d = 1 ∨ d = 2 ∨ d = 3 ∨ d = 4 ∨ d = 5 ∨ d = 6 ∨ d = 7
          ∨ d = 8 ∨ d = 9)%Z as Hc by lia.
  repeat (destruct Hc as [->|Hc]; [tauto|]). subst. tauto.
Qed.

(** Putting a digit in front of [u] adds its weight to the number. *)
Lemma of_uint_digit (d : Z) (u : Decimal.uint) :
  (0 ≤ d ≤ 9)%Z →
  N.of_uint (digit d u)
  = (Z.to_N d * 10 ^ DecimalPos.Unsigned.usize u + N.of_uint u)%N
  ∧ DecimalPos.Unsigned.usize (digit d u)
    = N.succ (DecimalPos.Unsigned.usize u).
Proof.
  intros Hd. unfold N.of_uint.
  assert (∀ c : Decimal.uint → Decimal.uint,
            (∀ v w, revapp (c v) w = revapp v (c w)) →
            Pos.of_uint (c u)
            = (DecimalPos.Unsigned.of_lu (c Nil)
               * 10 ^ DecimalPos.Unsigned.usize u + Pos.of_uint u)%N) as Hgen.
  { intros c Hc. rewrite (DecimalPos.Unsigned.of_uint_alt (c u)).
    unfold Decimal.rev. rewrite Hc.
    rewrite DecimalPos.Unsigned.of_lu_revapp.
    rewrite <-DecimalPos.Unsigned.of_uint_alt. apply N.add_comm. }
  destruct (digit_cases d u Hd)
    as [[-> ->]|[[-> ->]|[[-> ->]|[[-> ->]|[[-> ->]|[[-> ->]|[[-> ->]|[[-> ->]
       |[[-> ->]|[-> ->]]]]]]]]]];
    (split; [by rewrite Hgen|done]).
Qed.

Lemma six_digits_value (n : Z) :
  (0 ≤ n < 1000000)%Z → N.of_uint (six_digits_uint n) = Z.to_N n.
Proof.
  intros Hn. unfold six_digits_uint.
  set (d0 := (n mod 10)%Z). set (d1 := (n / 10 mod 10)%Z).
  set (d2 := (n / 100 mod 10)%Z). set (d3 := (n / 1000 mod 10)%Z).
  set (d4 := (n / 10000 mod 10)%Z). set (d5 := (n / 100000 mod 10)%Z).
  assert (0 ≤ d0 ≤ 9 ∧ 0 ≤ d1 ≤ 9 ∧ 0 ≤ d2 ≤ 9 ∧ 0 ≤ d3 ≤ 9 ∧ 0 ≤ d4 ≤ 9
          ∧ 0 ≤ d5 ≤ 9)%Z as (H0 & H1 & H2 & H3 & H4 & H5)
    by (unfold d0, d1, d2, d3, d4, d5; Z.div_mod_to_equations; lia).
  set (u0 := digit d0 Nil). set (u1 := digit d1 u0). set (u2 := digit d2 u1).
  set (u3 := digit d3 u2). set (u4 := digit d4 u3).
  destruct (of_uint_digit d0 Nil H0) as [V0 S0]. fold u0 in V0, S0.
  destruct (of_uint_digit d1 u0 H1) as [V1 S1]. fold u1 in V1, S1.
  destruct (of_uint_digit d2 u1 H2) as [V2 S2]. fold u2 in V2, S2.
  destruct (of_uint_digit d3 u2 H3) as [V3 S3]. fold u3 in V3, S3.
  destruct (of_uint_digit d4 u3 H4) as [V4 S4]. fold u4 in V4, S4.
  destruct (of_uint_digit d5 u4 H5) as [V5 _].
  rewrite V5, V4, V3, V2, V1, V0, S4, S3, S2, S1, S0.
  cbn [DecimalPos.Unsigned.usize N.of_uint Pos.of_uint].
  change (N.succ 0) with 1%N. change (N.succ 1) with 2%N.
  change (N.succ 2) with 3%N. change (N.succ 3) with 4%N.
  change (N.succ 4) with 5%N.
  change (10 ^ 5)%N with 100000%N. change (10 ^ 4)%N with 10000%N.
  change (10 ^ 3)%N with 1000%N. change (10 ^ 2)%N with 100%N.
  change (10 ^ 1)%N with 10%N. change (10 ^ 0)%N with 1%N.
  subst d0 d1 d2 d3 d4 d5. Z.div_mod_to_equations. lia.
Qed.

Lemma nb_digits_digit (d : Z) (u : Decimal.uint) :
  nb_digits (digit d u) = S (nb_digits u).
Proof. unfold digit. by repeat case_match. Qed.

Lemma length_string_of_uint (u : Decimal.uint) :
  String.length (NilEmpty.string_of_uint u) = nb_digits u.
Proof. induction u; cbn; congruence. Qed.

Lemma length_six_digits (n : Z) : String.length (six_digits n) = 6%nat.
Proof.
  unfold six_digits, six_digits_uint.
  by rewrite length_string_of_uint, !nb_digits_digit.
Qed.

(** Digits hold no point. *)
Lemma split_point_uint (u : Decimal.uint) (rest : string) :
  split_point (NilEmpty.string_of_uint u +:+ rest)
  = (NilEmpty.string_of_uint u +:+ (split_point rest).1, (split_point rest).2).
Proof.
  induction u; cbn [NilEmpty.string_of_uint String.append split_point].
  1: destruct (split_point rest); reflexivity.
  all: rewrite IHu; reflexivity.
Qed.

Lemma split_point_int (d : Decimal.int) (rest : string) :
  split_point (NilZero.string_of_int d +:+ rest)
  = (NilZero.string_of_int d +:+ (split_point rest).1, (split_point rest).2).
Proof.
  assert (∀ u, split_point (NilZero.string_of_uint u +:+ rest)
               = (NilZero.string_of_uint u +:+ (split_point rest).1,
                  (split_point rest).2)) as Hu.
  { intros u. destruct u; try apply split_point_uint. reflexivity. }
  destruct d as [u|u]; cbn [NilZero.string_of_int]; [apply Hu|].
  cbn [String.append split_point]. rewrite Hu. reflexivity.
Qed.

Lemma append_empty_r (s : string) : s +:+ "" = s.
Proof. induction s; cbn; congruence. Qed.

Lemma to_uint_nonnil (n : N) : N.to_uint n ≠ Nil.
Proof.
  destruct n as [|p]; [done|]. apply DecimalPos.Unsigned.to_uint_nonnil.
Qed.

Lemma of_to_uint (n : N) : Z.of_uint (N.to_uint n) = Z.of_N n.
Proof.
  unfold Z.of_uint. f_equal. apply (DecimalN.Unsigned.of_to n).
Qed.

(** An integer is printed without a point, and reads back as itself. *)
Lemma format_d_point (z : Z) : split_point (format_d z) = (format_d z, None).
Proof.
  unfold format_d. rewrite <-(append_empty_r (NilZero.string_of_int _)) at 1.
  rewrite split_point_int. cbn [split_point fst snd].
  by rewrite append_empty_r.
Qed.

Lemma py_float_format_d (z : Z) : py_float (format_d z) = Some (int z).
Proof.
  unfold py_float. rewrite format_d_point. cbn [fst snd]. unfold format_d.
  rewrite NilZero.isi.
  - cbn. f_equal. rewrite <-(DecimalZ.of_to z) at 2.
    destruct (Z.to_int z) as [u|u]; cbn [Z.of_int].
    + apply Qcplus_0_r.
    + rewrite Qcplus_0_r. unfold int. by rewrite Z2Qc_inj_opp.
  - destruct z; [done| |done]. cbn. intros [= H].
    by apply DecimalPos.Unsigned.to_uint_nonnil in H.
  - destruct z; [done|done|]. cbn. intros [= H].
    by apply DecimalPos.Unsigned.to_uint_nonnil in H.
Qed.

Lemma millionths_nonneg (num : Qc) : (0 ≤ millionths num)%Z.
Proof.
  unfold millionths, round_half_even.
  set (n := Qnum (Qabs num * inject_Z 1000000)).
  set (d := Z.pos (Qden (Qabs num * inject_Z 1000000))).
  assert (0 ≤ n)%Z as Hn.
  { subst n. destruct num as [[a b] ?]. cbn. lia. }
  assert (0 ≤ n / d)%Z as Hfl by (apply Z.div_pos; lia).
  repeat case_match; lia.
Qed.

(** The text of ["%f" % num]: a (possibly negative) integer numeral, a
    point, six digits. *)
Lemma format_f_parts (num : Qc) :
  format_f num
  = NilZero.string_of_int
      (let u := N.to_uint (Z.to_N (millionths num / 1000000)) in
       if decide (num < 0) then Decimal.Neg u else Decimal.Pos u)
    +:+ "." +:+ six_digits (millionths num mod 1000000).
Proof. unfold format_f. by case_decide. Qed.

Lemma split_point_format_f (num : Qc) :
  split_point (format_f num)
  = (NilZero.string_of_int
       (let u := N.to_uint (Z.to_N (millionths num / 1000000)) in
        if decide (num < 0) then Decimal.Neg u else Decimal.Pos u),
     Some (six_digits (millionths num mod 1000000))).
Proof.
  rewrite format_f_parts, split_point_int. cbn [String.append split_point].
  cbn [fst snd]. by rewrite append_empty_r.
Qed.

Lemma int_div_mod (m k : Z) :
  (0 < k)%Z → int (m / k) + int (m mod k) / int k = int m / int k.
Proof.
  intros Hk.
  assert (int k ≠ 0) as Hne.
  { unfold int. rewrite <-Z2Qc_inj_0. intros H%Z2Qc_inj. lia. }
  rewrite (Z.div_mod m k) at 3 by lia. unfold int.
  rewrite Z2Qc_inj_add, Z2Qc_inj_mul. by field.
Qed.

(** What is read back from ["%f" % num] is [num] rounded to millionths. *)
Lemma py_float_format_f (num : Qc) : py_float (format_f num) = Some (rounded num).
Proof.
  pose proof (millionths_nonneg num) as Hm.
  unfold py_float. rewrite split_point_format_f. cbn [fst snd].
  set (m := millionths num) in *.
  assert (0 ≤ m / 1000000)%Z as Hip by (apply Z.div_pos; lia).
  assert (0 ≤ m mod 1000000 < 1000000)%Z as Hfp
    by (apply Z.mod_pos_bound; lia).
  rewrite NilZero.isi.
  2,3: cbn zeta; case_decide; try done; intros [= Hnil];
       by apply to_uint_nonnil in Hnil.
  cbn [mbind option_bind].
  assert (NilEmpty.uint_of_string (six_digits (m mod 1000000))
          = Some (six_digits_uint (m mod 1000000))) as ->
    by apply NilEmpty.usu. cbn [mbind option_bind].
  rewrite length_six_digits, six_digits_value by done.
  rewrite Z2N.id by lia.
  change (10 ^ Z.of_nat 6)%Z with 1000000%Z.
  f_equal. unfold rounded. fold m. cbn zeta.
  case_decide; rewrite of_to_uint, Z2N.id by done;
    by rewrite int_div_mod.
Qed.


(** Rounding to the nearest integer moves a number by at most one half. *)
Lemma round_half_even_bound (q : Q) :
  (0 <= q)%Q → (Qabs (inject_Z (round_half_even q) - q) <= 1 # 2)%Q.
Proof.
  intros Hq. apply Qabs_Qle_condition.
  destruct q as [n d]. unfold Qle in Hq. cbn in Hq.
  assert (0 ≤ n)%Z as Hn by lia. clear Hq.
  unfold round_half_even. cbn [Qnum Qden].
  pose proof (Z.div_mod n (Z.pos d) ltac:(lia)) as Hdm.
  pose proof (Z.mod_pos_bound n (Z.pos d) ltac:(lia)) as Hmod.
  set (fl := (n / Z.pos d)%Z) in *. set (r := (n mod Z.pos d)%Z) in *.
  unfold Qle, Qminus, Qplus, Qopp, inject_Z. cbn [Qnum Qden].
  destruct (r * 2 <? Z.pos d)%Z eqn:H1;
    [apply Z.ltb_lt in H1|apply Z.ltb_ge in H1].
  - replace (2 * r <? Z.pos d)%Z with true by (symmetry; apply Z.ltb_lt; lia).
    split; nia.
  - replace (2 * r <? Z.pos d)%Z with false by (symmetry; apply Z.ltb_ge; lia).
    destruct (Z.pos d <? 2 * r)%Z eqn:H2;
      [apply Z.ltb_lt in H2|apply Z.ltb_ge in H2].
    + split; nia.
    + destruct (Z.even fl); split; nia.
Qed.

Lemma this_minus (a b : Qc) : (this (a - b) == this a - this b)%Q.
Proof.
  unfold Qcminus, Qcplus, Qcopp, Q2Qc. cbn [this].
  rewrite !Qred_correct. reflexivity.
Qed.

Lemma this_opp (a : Qc) : (this (- a) == - this a)%Q.
Proof. unfold Qcopp, Q2Qc. cbn [this]. apply Qred_correct. Qed.

Lemma this_millionth (m : Z) :
  (this (int m / int 1000000) == inject_Z m * (1 # 1000000))%Q.
Proof.
  unfold Qcdiv, Qcmult, Qcinv, Q2Qc, int, Qc_of_Z. cbn [this].
  rewrite !Qred_correct. reflexivity.
Qed.

(** Reading back what ["%f"] printed is off by at most half a millionth. *)
Lemma rounded_bound (num : Qc) :
  - frac 1 2000000 ≤ rounded num - num ≤ frac 1 2000000.
Proof.
  unfold rounded, millionths.
  set (y := (Qabs num * inject_Z 1000000)%Q).
  assert (0 <= y)%Q as Hy.
  { subst y. apply Qmult_le_0_compat; [apply Qabs_nonneg|done]. }
  pose proof (round_half_even_bound y Hy) as Hb.
  apply Qabs_Qle_condition in Hb as [Hb1 Hb2].
  set (m := round_half_even y) in *. cbn zeta.
  change (inject_Z 1000000) with (1000000 # 1)%Q in y.
  case_decide as Hneg.
  - assert (Qabs num == - num)%Q as Habs
      by (apply Qabs_neg, Qlt_le_weak, Hneg).
    subst y. rewrite Habs in Hb1, Hb2.
    unfold Qcle. rewrite this_opp, this_minus, this_opp, this_millionth.
    change (this (frac 1 2000000)) with (1 # 2000000)%Q.
    split; lra.
  - assert (Qabs num == num)%Q as Habs.
    { apply Qabs_pos. by apply Qcnot_lt_le in Hneg. }
    subst y. rewrite Habs in Hb1, Hb2.
    unfold Qcle. rewrite this_opp, this_minus, this_millionth.
    change (this (frac 1 2000000)) with (1 # 2000000)%Q.
    split; lra.
Qed.

(** C6, refuted as stated: 1/256 = 0.00390625 is not an integer, is printed
    as "0.003906", and is read back as 0.003906; the number 0.003906 is
    printed the same, so no reader can tell the two apart. *)
Lemma intOrFloat_drops_digits :
  int (py_int (frac 1 256)) ≠ frac 1 256
  ∧ intOrFloat (frac 1 256) = "0.003906"
  ∧ (this <$> py_float (intOrFloat (frac 1 256))) = Some (1953 # 500000)%Q
  ∧ frac 1953 500000 ≠ frac 1 256
  ∧ intOrFloat (frac 1953 500000) = intOrFloat (frac 1 256).
Proof.
  repeat split; try (by vm_compute);
    intros H; apply (f_equal this) in H; by vm_compute in H.
Qed.

(** C6, amended. A number that equals an integer is printed as that integer,
    with no decimal point, and reads back as itself. Every other number is
    printed in fixed notation with exactly six digits after the point, its
    value rounded to the nearest millionth (ties to even): what is read back
    is the rounded value, within half a millionth of the number. *)
Theorem intOrFloat_spec (num : Qc) :
  if decide (int (py_int num) = num) then
    intOrFloat num = format_d (py_int num)
    ∧ split_point (intOrFloat num) = (intOrFloat num, None)
    ∧ py_float (intOrFloat num) = Some num
  else
    intOrFloat num = format_f num
    ∧ (∃ ip fp, split_point (intOrFloat num) = (ip, Some fp)
                ∧ String.length fp = 6%nat)
    ∧ py_float (intOrFloat num) = Some (rounded num)
    ∧ - frac 1 2000000 ≤ rounded num - num ≤ frac 1 2000000.
Proof.
  unfold intOrFloat. case_decide as Hint.
  - split; [done|]. split; [apply format_d_point|].
    rewrite py_float_format_d. by rewrite Hint.
  - split; [done|]. split; [|split].
    + eexists _, _. split; [apply split_point_format_f|].
      apply length_six_digits.
    + apply py_float_format_f.
    + apply rounded_bound.
Qed.

(** * More on normalizeLocation *)

Lemma normalized_range (a : axis) (v : value) :
  AxisDescriptor.minimum a ≤ AxisDescriptor.default a ≤ AxisDescriptor.maximum a →
  -1 ≤ normalized a v ≤ 1.
Proof.
  intros [Hmin Hmax].
  assert (-1 ≤ 0) as Hm1 by done. assert (0 ≤ 1) as H01 by done.
  destruct (decide (scalar v = AxisDescriptor.default a)) as [He|Hne].
  - by rewrite normalized_default.
  - destruct (decide (scalar v < AxisDescriptor.default a)) as [Hlt|Hge].
    + destruct (normalized_below a v Hlt Hmin) as [H0 H1].
      destruct (decide (AxisDescriptor.default a = AxisDescriptor.minimum a))
        as [Hd|Hd].
      * by rewrite H0.
      * destruct (H1 Hd) as [_ [? ?]]. split; [done|]. by etrans.
    + assert (AxisDescriptor.default a < scalar v) as Hgt.
      { apply Qcnot_lt_le in Hge. apply Qcle_lt_or_eq in Hge as [?|?]; [done|].
        by destruct Hne. }
      destruct (normalized_above a v Hgt Hmax) as [H0 H1].
      destruct (decide (AxisDescriptor.default a = AxisDescriptor.maximum a))
        as [Hd|Hd].
      * by rewrite H0.
      * destruct (H1 Hd) as [_ [? ?]]. split; [|done]. by etrans.
Qed.

Lemma Qcdiv_le_mono (n1 n2 d : Qc) : 0 < d → n1 ≤ n2 → n1 / d ≤ n2 / d.
Proof.
  intros Hd Hn. unfold Qcdiv. apply Qcmult_le_compat_r; [done|].
  apply Qclt_le_weak, Qcinv_pos, Hd.
Qed.

(** Order goals on canonical rationals, settled on the underlying
    rationals. *)
Ltac qc_order :=
  repeat match goal with
         | H : @eq Qc ?x ?y |- _ =>
             let H' := fresh in
             assert (H' : (this x == this y)%Q) by (rewrite H; reflexivity);
             clear H
         end;
  unfold Qcle, Qclt in *;
  change (this 0) with 0%Q in *; change (this 1) with 1%Q in *;
  change (this (-1)) with (-1)%Q in *; first [lra | exfalso; lra].

Lemma clamp_mono (v1 v2 lo hi : Qc) :
  lo ≤ hi → v1 ≤ v2 → clamp v1 lo hi ≤ clamp v2 lo hi.
Proof. intros Hlh Hv. unfold clamp. repeat case_decide; qc_order. Qed.

Lemma normalized_mono (a : axis) (v1 v2 : value) :
  AxisDescriptor.minimum a ≤ AxisDescriptor.default a ≤ AxisDescriptor.maximum a →
  scalar v1 ≤ scalar v2 →
  normalized a v1 ≤ normalized a v2.
Proof.
  intros [Hmin Hmax] Hv.
  assert (∀ v, scalar v = AxisDescriptor.default a
               ∨ scalar v < AxisDescriptor.default a
               ∨ AxisDescriptor.default a < scalar v) as Htri.
  { intros v. destruct (Qc_dec (scalar v) (AxisDescriptor.default a))
      as [[?|?]|?]; auto. }
  pose proof (normalized_range a v1 (conj Hmin Hmax)) as [Hl1 Hu1].
  pose proof (normalized_range a v2 (conj Hmin Hmax)) as [Hl2 Hu2].
  destruct (Htri v1) as [E1|[L1|G1]], (Htri v2) as [E2|[L2|G2]];
    try (exfalso; qc_order).
  - by rewrite !normalized_default.
  - rewrite (normalized_default a v1) by done.
    destruct (normalized_above a v2 G2 Hmax) as [H0 H1].
    destruct (decide (AxisDescriptor.default a = AxisDescriptor.maximum a))
      as [Hd|Hd]; [by rewrite H0|]. by destruct (H1 Hd) as [_ [? ?]].
  - rewrite (normalized_default a v2) by done.
    destruct (normalized_below a v1 L1 Hmin) as [H0 H1].
    destruct (decide (AxisDescriptor.default a = AxisDescriptor.minimum a))
      as [Hd|Hd]; [by rewrite H0|]. by destruct (H1 Hd) as [_ [? ?]].
  - destruct (normalized_below a v1 L1 Hmin) as [H0 H1].
    destruct (normalized_below a v2 L2 Hmin) as [H0' H1'].
    destruct (decide (AxisDescriptor.default a = AxisDescriptor.minimum a))
      as [Hd|Hd]; [by rewrite H0, H0'|].
    destruct (H1 Hd) as [-> _]. destruct (H1' Hd) as [-> _].
    apply Qcdiv_le_mono.
    + apply (proj1 (Qcminus_pos _ _)).
      apply Qcle_lt_or_eq in Hmin as [?|?]; [done|congruence].
    + unfold Qcminus. apply (proj1 (Qcplus_le_mono_r _ _ _)).
      by apply clamp_mono.
  - trans 0.
    + destruct (normalized_below a v1 L1 Hmin) as [H0 H1].
      destruct (decide (AxisDescriptor.default a = AxisDescriptor.minimum a))
        as [Hd|Hd]; [by rewrite H0|]. by destruct (H1 Hd) as [_ [? ?]].
    + destruct (normalized_above a v2 G2 Hmax) as [H0 H1].
      destruct (decide (AxisDescriptor.default a = AxisDescriptor.maximum a))
        as [Hd|Hd]; [by rewrite H0|]. by destruct (H1 Hd) as [_ [? ?]].
  - destruct (normalized_above a v1 G1 Hmax) as [H0 H1].
    destruct (normalized_above a v2 G2 Hmax) as [H0' H1'].
    destruct (decide (AxisDescriptor.default a = AxisDescriptor.maximum a))
      as [Hd|Hd]; [by rewrite H0, H0'|].
    destruct (H1 Hd) as [-> _]. destruct (H1' Hd) as [-> _].
    apply Qcdiv_le_mono.
    + apply (proj1 (Qcminus_pos _ _)).
      apply Qcle_lt_or_eq in Hmax as [?|?]; [done|congruence].
    + unfold Qcminus. apply (proj1 (Qcplus_le_mono_r _ _ _)).
      by apply clamp_mono.
Qed.

(** X1. [normalizeLocation] looks at the first component of an anisotropic
    value only: its outcome is the outcome for the location in which every
    tuple is replaced by its first component, and no value of a result is a
    tuple (the second component is lost). *)
Theorem normalizeLocation_first_component (axes : list axis)
    (location : Location) :
  normalizeLocation axes location
    = normalizeLocation axes ((λ v, Num (scalar v)) <$> location)
  ∧ ∀ new, normalizeLocation axes location = Ok new →
      ∀ n v, new !! n = Some v → ∃ x, v = Num x.
Proof.
  destruct (normalizeLocation_lookup axes location) as (new & Hn & Hl).
  split.
  - destruct (normalizeLocation_lookup axes ((λ v, Num (scalar v)) <$> location))
      as (new' & Hn' & Hl').
    rewrite Hn, Hn'. f_equal. apply map_eq. intros n.
    rewrite Hl, Hl', lookup_fmap.
    destruct (location !! n) as [v|]; [|done]. cbn.
    destruct (last_axis n axes); [|done]. by destruct v.
  - intros new0 Hnew0 n v. rewrite Hn in Hnew0. injection Hnew0 as <-.
    rewrite Hl. destruct (location !! n); [|done].
    destruct (last_axis n axes); [|done]. intros [= <-]. by eexists.
Qed.

(** X2. When several axes share a name, the last of them decides the entry
    of that name in the result of [normalizeLocation]. *)
Theorem normalizeLocation_last_axis_wins (before after : list axis) (a : axis)
    (location : Location) (v : value) :
  Forall (λ b, AxisDescriptor.name b ≠ AxisDescriptor.name a) after →
  location !! AxisDescriptor.name a = Some v →
  ∃ new x, normalizeLocation (before ++ a :: after) location = Ok new
           ∧ normalizeValue a v = Ok x
           ∧ new !! AxisDescriptor.name a = Some (Num x).
Proof.
  intros Hafter Hv.
  destruct (normalizeLocation_lookup (before ++ a :: after) location)
    as (new & Hn & Hl).
  exists new, (normalized a v). split; [done|].
  split; [apply normalizeValue_normalized|]. rewrite Hl, Hv.
  assert (last_axis (AxisDescriptor.name a) (before ++ a :: after) = Some a)
    as ->; [|done].
  assert (last_axis (AxisDescriptor.name a) after = None) as Hnone.
  { apply last_axis_None. intros (b & Hb & Hin)%list_elem_of_fmap.
    rewrite Forall_forall in Hafter. by destruct (Hafter b Hin). }
  clear Hl Hn. induction before as [|b before IH].
  - cbn [app last_axis]. rewrite Hnone. by rewrite decide_True.
  - rewrite <- app_comm_cons. cbn [last_axis]. by rewrite IH.
Qed.

Lemma normalizeLocation_last_axis_wins_witness :
  ∃ new, normalizeLocation [weight_axis; weight_axis_bis]
           {[ "weight" := Num (int 50) ]} = Ok new
         ∧ (match new !! "weight" with
            | Some (Num x) => Some (this x)
            | _ => None
            end) = Some (1 # 2)%Q.
Proof.
  destruct (normalizeLocation_last_axis_wins [weight_axis] [] weight_axis_bis
              {[ "weight" := Num (int 50) ]} (Num (int 50)))
    as (new & x & Hn & Hx & Hl).
  - constructor.
  - reflexivity.
  - exists new. split; [exact Hn|]. cbn [app] in Hl.
    change (AxisDescriptor.name weight_axis_bis) with "weight" in Hl.
    rewrite Hl. revert Hx. vm_compute. by intros [= <-].
Defined.

Lemma normalized_saturation (a : axis) (v : value) :
  AxisDescriptor.minimum a ≤ AxisDescriptor.default a ≤ AxisDescriptor.maximum a →
  (scalar v ≤ AxisDescriptor.minimum a →
   AxisDescriptor.minimum a < AxisDescriptor.default a → normalized a v = -1) ∧
  (AxisDescriptor.maximum a ≤ scalar v →
   AxisDescriptor.default a < AxisDescriptor.maximum a → normalized a v = 1).
Proof.
  intros [Hmin Hmax]. split.
  - intros Hv Hlt.
    assert (scalar v < AxisDescriptor.default a) as Hvd by qc_order.
    destruct (normalized_below a v Hvd Hmin) as [_ H1].
    destruct H1 as [-> _]; [intros E; rewrite E in Hlt; qc_order|].
    assert (clamp (scalar v) (AxisDescriptor.minimum a)
                  (AxisDescriptor.default a) = AxisDescriptor.minimum a) as ->.
    { unfold clamp. case_decide; [done|]. case_decide; [qc_order|].
      apply Qcle_antisym; [done|]. by apply Qcnot_lt_le. }
    field. intros E. apply (proj1 (Qcminus_eq_0 _ _)) in E.
    rewrite E in Hlt. by apply Qclt_not_eq in Hlt.
  - intros Hv Hlt.
    assert (AxisDescriptor.default a < scalar v) as Hvd by qc_order.
    destruct (normalized_above a v Hvd Hmax) as [_ H1].
    destruct H1 as [-> _]; [intros E; rewrite E in Hlt; qc_order|].
    assert (clamp (scalar v) (AxisDescriptor.default a)
                  (AxisDescriptor.maximum a) = AxisDescriptor.maximum a) as ->.
    { unfold clamp. case_decide; [qc_order|]. case_decide; [done|].
      apply Qcle_antisym; [|done]. by apply Qcnot_lt_le. }
    field. intros E. apply (proj1 (Qcminus_eq_0 _ _)) in E.
    rewrite E in Hlt. by apply Qclt_not_eq in Hlt.
Qed.

(** X3. For an axis with minimum <= default <= maximum, [normalizeValue]
    stays within [-1, 1] and saturates: every value at or below a minimum
    that lies under the default gives exactly -1, every value at or above a
    maximum that lies over the default gives exactly 1. *)
Theorem normalizeValue_saturates (a : axis) (v : value) :
  AxisDescriptor.minimum a ≤ AxisDescriptor.default a ≤ AxisDescriptor.maximum a →
  ∃ x, normalizeValue a v = Ok x ∧ -1 ≤ x ≤ 1 ∧
    (scalar v ≤ AxisDescriptor.minimum a →
     AxisDescriptor.minimum a < AxisDescriptor.default a → x = -1) ∧
    (AxisDescriptor.maximum a ≤ scalar v →
     AxisDescriptor.default a < AxisDescriptor.maximum a → x = 1).
Proof.
  intros Ha. exists (normalized a v).
  split; [apply normalizeValue_normalized|].
  split; [by apply normalized_range|]. by apply normalized_saturation.
Qed.

Lemma normalizeValue_saturates_witness :
  normalizeValue weight_axis (Num (int (-50))) = Ok (-1)
  ∧ normalizeValue weight_axis (Pair (int 2000) (int 0)) = Ok 1.
Proof.
  split.
  - destruct (normalizeValue_saturates weight_axis (Num (int (-50))))
      as (x & -> & _ & H & _); [split; by vm_compute|].
    rewrite H; [done|by vm_compute|by vm_compute].
  - destruct (normalizeValue_saturates weight_axis (Pair (int 2000) (int 0)))
      as (x & -> & _ & _ & H); [split; by vm_compute|].
    rewrite H; [done|by vm_compute|by vm_compute].
Defined.

(** X4. For an axis with minimum <= default <= maximum, [normalizeValue] is
    monotone: a larger value never normalises to a smaller number. *)
Theorem normalizeValue_monotone (a : axis) (v1 v2 : value) :
  AxisDescriptor.minimum a ≤ AxisDescriptor.default a ≤ AxisDescriptor.maximum a →
  scalar v1 ≤ scalar v2 →
  ∃ x1 x2, normalizeValue a v1 = Ok x1 ∧ normalizeValue a v2 = Ok x2 ∧ x1 ≤ x2.
Proof.
  intros Ha Hv. exists (normalized a v1), (normalized a v2).
  split; [apply normalizeValue_normalized|].
  split; [apply normalizeValue_normalized|]. by apply normalized_mono.
Qed.

Lemma normalizeValue_monotone_witness :
  ∃ x1 x2, normalizeValue weight_axis (Num (int 100)) = Ok x1
           ∧ normalizeValue weight_axis (Num (int 700)) = Ok x2 ∧ x1 ≤ x2.
Proof.
  apply (normalizeValue_monotone weight_axis (Num (int 100)) (Num (int 700))).
  - split; by vm_compute.
  - by vm_compute.
Defined.

Lemma normalized_at_minimum (a : axis) :
  ordered a →
  normalized a (Num (AxisDescriptor.minimum a))
  = if decide (AxisDescriptor.minimum a < AxisDescriptor.default a) then -1 else 0.
Proof.
  intros Ha. case_decide as Hlt.
  - by apply (normalized_saturation a (Num (AxisDescriptor.minimum a)) Ha).
  - apply normalized_default. cbn. destruct Ha as [Hmin _].
    apply Qcle_antisym; [done|]. by apply Qcnot_lt_le.
Qed.

Lemma normalized_at_maximum (a : axis) :
  ordered a →
  normalized a (Num (AxisDescriptor.maximum a))
  = if decide (AxisDescriptor.default a < AxisDescriptor.maximum a) then 1 else 0.
Proof.
  intros Ha. case_decide as Hlt.
  - by apply (normalized_saturation a (Num (AxisDescriptor.maximum a)) Ha).
  - apply normalized_default. cbn. destruct Ha as [_ Hmax].
    apply Qcle_antisym; [|done]. by apply Qcnot_lt_le.
Qed.

Lemma normalized_at_default (a : axis) :
  normalized a (Num (AxisDescriptor.default a)) = 0.
Proof. by apply normalized_default. Qed.

Lemma ordered_normalized_axis (a : axis) : ordered a → ordered (normalized_axis a).
Proof.
  intros Ha. unfold ordered. cbn [normalized_axis AxisDescriptor.minimum
    AxisDescriptor.maximum AxisDescriptor.default].
  rewrite normalized_at_minimum, normalized_at_maximum, normalized_at_default by done.
  split; case_decide; by vm_compute.
Qed.

(** The sign of a normalised value tells on which side of the default the
    value was, and that the axis extends on that side. *)
Lemma normalized_neg (a : axis) (v : value) :
  ordered a → normalized a v < 0 →
  AxisDescriptor.minimum a < AxisDescriptor.default a.
Proof.
  intros [Hmin Hmax] Hx.
  destruct (Qclt_le_dec (scalar v) (AxisDescriptor.default a)) as [Hlt|Hge].
  - destruct (normalized_below a v Hlt Hmin) as [H0 _].
    destruct (Qcle_lt_or_eq _ _ Hmin) as [?|E]; [done|].
    rewrite H0 in Hx by done. by vm_compute in Hx.
  - destruct (Qcle_lt_or_eq _ _ Hge) as [Hgt|E].
    + destruct (normalized_above a v Hgt Hmax) as [H0 H1].
      destruct (decide (AxisDescriptor.default a = AxisDescriptor.maximum a)) as [E|E].
      * rewrite H0 in Hx by done. by vm_compute in Hx.
      * destruct (H1 E) as (_ & ? & _). qc_order.
    + rewrite normalized_default in Hx by done. by vm_compute in Hx.
Qed.

Lemma normalized_pos (a : axis) (v : value) :
  ordered a → 0 < normalized a v →
  AxisDescriptor.default a < AxisDescriptor.maximum a.
Proof.
  intros [Hmin Hmax] Hx.
  destruct (Qclt_le_dec (AxisDescriptor.default a) (scalar v)) as [Hlt|Hge].
  - destruct (normalized_above a v Hlt Hmax) as [H0 _].
    destruct (Qcle_lt_or_eq _ _ Hmax) as [?|E]; [done|].
    rewrite H0 in Hx by done. by vm_compute in Hx.
  - destruct (Qcle_lt_or_eq _ _ Hge) as [Hgt|E].
    + destruct (normalized_below a v Hgt Hmin) as [H0 H1].
      destruct (decide (AxisDescriptor.default a = AxisDescriptor.minimum a)) as [E|E].
      * rewrite H0 in Hx by done. by vm_compute in Hx.
      * destruct (H1 E) as (_ & _ & ?). qc_order.
    + rewrite normalized_default in Hx by done. by vm_compute in Hx.
Qed.

(** A number inside the bounds of a normalised axis is left as it is. *)
Lemma normalized_fixed (a : axis) (x : Qc) :
  ordered a →
  (if decide (AxisDescriptor.minimum a < AxisDescriptor.default a) then -1 else 0) ≤ x →
  x ≤ (if decide (AxisDescriptor.default a < AxisDescriptor.maximum a) then 1 else 0) →
  normalized (normalized_axis a) (Num x) = x.
Proof.
  intros Ha Hlo Hhi.
  pose proof (normalized_at_minimum a Ha) as Emin.
  pose proof (normalized_at_maximum a Ha) as Emax.
  pose proof (normalized_at_default a) as Edef.
  destruct (Qclt_le_dec x 0) as [Hneg|Hge].
  - destruct (normalized_below (normalized_axis a) (Num x)) as [_ H1].
    { cbn. by rewrite Edef. }
    { apply ordered_normalized_axis, Ha. }
    cbn [normalized_axis AxisDescriptor.minimum AxisDescriptor.default] in H1.
    rewrite Emin, Edef in H1. cbn [scalar] in H1.
    destruct (decide (AxisDescriptor.minimum a < AxisDescriptor.default a));
      [|qc_order].
    destruct H1 as [-> _]; [by vm_compute|].
    clear Hhi Emax.
    unfold clamp. case_decide; [qc_order|]. case_decide; [qc_order|].
    field. by vm_compute.
  - destruct (Qcle_lt_or_eq _ _ Hge) as [Hpos|E].
    + destruct (normalized_above (normalized_axis a) (Num x)) as [_ H1].
      { cbn. by rewrite Edef. }
      { apply ordered_normalized_axis, Ha. }
      cbn [normalized_axis AxisDescriptor.maximum AxisDescriptor.default] in H1.
      rewrite Emax, Edef in H1. cbn [scalar] in H1.
      destruct (decide (AxisDescriptor.default a < AxisDescriptor.maximum a));
        [|qc_order].
      destruct H1 as [-> _]; [by vm_compute|]. clear Hlo Emin.
      unfold clamp. case_decide; [qc_order|]. case_decide; [qc_order|].
      field. by vm_compute.
    + subst x. apply normalized_default. cbn. by rewrite Edef.
Qed.

Lemma normalized_bounds (a : axis) (v : value) :
  ordered a →
  (if decide (AxisDescriptor.minimum a < AxisDescriptor.default a) then -1 else 0)
    ≤ normalized a v
  ∧ normalized a v
    ≤ (if decide (AxisDescriptor.default a < AxisDescriptor.maximum a) then 1 else 0).
Proof.
  intros Ha. pose proof (normalized_range a v Ha) as [Hlo Hhi].
  split; case_decide as Hd; try done.
  - apply Qcnot_lt_le. intros Hx. by apply Hd, (normalized_neg a v).
  - apply Qcnot_lt_le. intros Hx. by apply Hd, (normalized_pos a v).
Qed.

Lemma normalized_idem (a : axis) (v : value) :
  ordered a →
  normalized (normalized_axis a) (Num (normalized a v)) = normalized a v.
Proof.
  intros Ha. destruct (normalized_bounds a v Ha). by apply normalized_fixed.
Qed.

Lemma normalized_axis_idem (a : axis) :
  ordered a → normalized_axis (normalized_axis a) = normalized_axis a.
Proof.
  intros Ha. unfold normalized_axis at 1.
  change (AxisDescriptor.tag (normalized_axis a)) with (AxisDescriptor.tag a).
  change (AxisDescriptor.name (normalized_axis a)) with (AxisDescriptor.name a).
  change (AxisDescriptor.hidden (normalized_axis a)) with (AxisDescriptor.hidden a).
  change (AxisDescriptor.minimum (normalized_axis a))
    with (normalized a (Num (AxisDescriptor.minimum a))).
  change (AxisDescriptor.maximum (normalized_axis a))
    with (normalized a (Num (AxisDescriptor.maximum a))).
  change (AxisDescriptor.default (normalized_axis a))
    with (normalized a (Num (AxisDescriptor.default a))).
  change (AxisDescriptor.map (normalized_axis a))
    with ((λ io : Qc * Qc, (io.1, normalized a (Num io.2)))
            <$> AxisDescriptor.map a).
  rewrite !normalized_idem by done.
  unfold normalized_axis at 2. f_equal.
  rewrite <-list_fmap_compose. apply list_fmap_ext. intros _ [i o] _. cbn.
  by rewrite normalized_idem.
Qed.

Lemma last_axis_fmap (f : axis → axis) (n : string) (axes : list axis) :
  (∀ a, AxisDescriptor.name (f a) = AxisDescriptor.name a) →
  last_axis n (f <$> axes) = f <$> last_axis n axes.
Proof.
  intros Hf. induction axes as [|a rest IH]; [done|].
  cbn [fmap list_fmap last_axis]. change (list_fmap _ _ f rest) with (f <$> rest).
  rewrite IH. destruct (last_axis n rest); [done|]. cbn. rewrite Hf.
  by case_decide.
Qed.

Lemma last_axis_normalized (n : string) (axes : list axis) :
  last_axis n (normalized_axis <$> axes) = normalized_axis <$> last_axis n axes.
Proof. by apply last_axis_fmap. Qed.

Lemma names_normalized (axes : list axis) :
  AxisDescriptor.name <$> (normalized_axis <$> axes) = AxisDescriptor.name <$> axes.
Proof. rewrite <-list_fmap_compose. by apply list_fmap_ext. Qed.

(** A normalised location is left as it is by the normalised axes. *)
Lemma normalizeLocation_idem (axes : list axis) (location new : Location) :
  Forall ordered axes →
  normalizeLocation axes location = Ok new →
  normalizeLocation (normalized_axis <$> axes) new = Ok new.
Proof.
  intros Hord Hnew.
  destruct (normalizeLocation_lookup axes location) as (new1 & Hn1 & Hl1).
  rewrite Hnew in Hn1. injection Hn1 as <-.
  destruct (normalizeLocation_lookup (normalized_axis <$> axes) new)
    as (new2 & -> & Hl2).
  f_equal. apply map_eq. intros n. rewrite Hl2, last_axis_normalized, Hl1.
  destruct (location !! n) as [v|]; [|done].
  destruct (last_axis n axes) as [a|] eqn:Ha; [|done]. cbn.
  apply last_axis_Some in Ha as [_ Ha]. rewrite Forall_forall in Hord.
  by rewrite normalized_idem by (by apply Hord).
Qed.

Lemma normalizeLocation_attr_idem (axes : list axis) (o : option Location)
    (new : Location) :
  Forall ordered axes →
  normalizeLocation_attr axes o = Ok new →
  normalizeLocation_attr (normalized_axis <$> axes) (Some new) = Ok new.
Proof.
  intros Hord. destruct o as [l|]; cbn [normalizeLocation_attr].
  - by apply normalizeLocation_idem.
  - destruct axes; [|done]. by intros [= <-].
Qed.

Lemma mapM_fixed {A B : Type} (f : A → result B) (g : B → result B)
    (l : list A) (l' : list B) :
  mapM f l = Ok l' →
  (∀ x y, x ∈ l → f x = Ok y → g y = Ok y) →
  mapM g l' = Ok l'.
Proof.
  intros H%mapM_Ok_inv Hfg. induction H as [|x y l l' Hxy _ IH]; [done|].
  cbn [mapM]. rewrite (Hfg x y) by (done || by left). cbn.
  rewrite IH; [done|]. intros x' y' Hx'. apply Hfg. by right.
Qed.

Lemma normalize_source_idem (axes : list axis) (s s' : source) :
  Forall ordered axes →
  normalize_source axes s = Ok s' →
  normalize_source (normalized_axis <$> axes) s' = Ok s'.
Proof.
  intros Hord. unfold normalize_source.
  destruct (normalizeLocation_attr axes (SourceDescriptor.location s))
    as [loc|] eqn:Hloc; cbn; [|done].
  intros [= <-]. cbn [SourceDescriptor.set_location SourceDescriptor.location].
  apply (normalizeLocation_attr_idem _ _ _ Hord) in Hloc.
  by rewrite Hloc.
Qed.

Lemma normalize_glyphMaster_idem (axes : list axis) (m m' : glyphMaster) :
  Forall ordered axes →
  normalize_glyphMaster axes m = Ok m' →
  normalize_glyphMaster (normalized_axis <$> axes) m' = Ok m'.
Proof.
  intros Hord. unfold normalize_glyphMaster.
  destruct (normalizeLocation_attr axes (GlyphMaster.location m))
    as [loc|] eqn:Hloc; cbn; [|done].
  intros [= <-]. cbn [GlyphMaster.set_location GlyphMaster.location].
  apply (normalizeLocation_attr_idem _ _ _ Hord) in Hloc.
  by rewrite Hloc.
Qed.

Lemma normalize_glyphData_idem (axes : list axis) (g g' : glyphData) :
  Forall ordered axes →
  normalize_glyphData axes g = Ok g' →
  normalize_glyphData (normalized_axis <$> axes) g' = Ok g'.
Proof.
  intros Hord. unfold normalize_glyphData.
  destruct (GlyphData.instanceLocation g) as [il|]; cbn; [|done].
  destruct (normalizeLocation axes il) as [il'|] eqn:Hil; cbn; [|done].
  destruct (GlyphData.masters g) as [ms|]; cbn; [|done].
  destruct (mapM (normalize_glyphMaster axes) ms) as [ms'|] eqn:Hms; cbn; [|done].
  intros [= <-]. cbn.
  rewrite (normalizeLocation_idem _ _ _ Hord Hil). cbn.
  rewrite (mapM_fixed _ (normalize_glyphMaster (normalized_axis <$> axes)) _ _ Hms);
    [done|].
  intros m m' _. by apply normalize_glyphMaster_idem.
Qed.

Lemma normalize_instance_idem (axes : list axis) (i i' : instance) :
  Forall ordered axes →
  normalize_instance axes i = Ok i' →
  normalize_instance (normalized_axis <$> axes) i' = Ok i'.
Proof.
  intros Hord. unfold normalize_instance.
  destruct (mapM _ (InstanceDescriptor.glyphs i)) as [gs|] eqn:Hgs; cbn; [|done].
  destruct (normalizeLocation_attr axes (InstanceDescriptor.location i))
    as [loc|] eqn:Hloc; cbn; [|done].
  intros [= <-].
  cbn [InstanceDescriptor.set_glyphs InstanceDescriptor.set_location
       InstanceDescriptor.location InstanceDescriptor.glyphs].
  rewrite (mapM_fixed _ (λ ng : string * glyphData,
             g' ← normalize_glyphData (normalized_axis <$> axes) ng.2;
             Ok (ng.1, g')) _ _ Hgs).
  - cbn [mbind result_bind InstanceDescriptor.set_glyphs
         InstanceDescriptor.set_location InstanceDescriptor.location
         InstanceDescriptor.glyphs].
    apply (normalizeLocation_attr_idem _ _ _ Hord) in Hloc.
    by rewrite Hloc.
  - intros [n g] [n' g'] _. cbn.
    destruct (normalize_glyphData axes g) as [g1|] eqn:Hg; cbn; [|done].
    intros [= <- <-]. by rewrite (normalize_glyphData_idem _ _ _ Hord Hg).
Qed.

Lemma normalize_axes_idem (axes : list axis) :
  NoDup (AxisDescriptor.name <$> axes) → Forall ordered axes →
  normalize_axes (normalized_axis <$> axes) = Ok (normalized_axis <$> axes).
Proof.
  intros Hnd Hord. rewrite normalize_axes_eq by (by rewrite names_normalized).
  f_equal. rewrite <-list_fmap_compose. apply list_fmap_ext.
  intros i a Ha. cbn. apply normalized_axis_idem.
  rewrite Forall_forall in Hord. apply Hord. by eapply list_elem_of_lookup_2.
Qed.

(** Rule bounds are scaled by the axes as [normalize] has already rewritten
    them. *)
Lemma normalize_bound_idem (axes : list axis) (n : string) (b b' : option Qc) :
  Forall ordered axes →
  normalize_bound (normalized_axis <$> axes) n b = Ok b' →
  normalize_bound (normalized_axis <$> axes) n b' = Ok b'.
Proof.
  intros Hord. unfold normalize_bound. destruct b as [x|]; [|by intros [= <-]].
  rewrite normalizeSingle_eq, last_axis_normalized.
  destruct (last_axis n axes) as [a|] eqn:Ha; cbn; intros [= <-]; [|done].
  rewrite normalizeSingle_eq, last_axis_normalized, Ha. cbn. do 2 f_equal.
  apply last_axis_Some in Ha as [_ Ha]. rewrite Forall_forall in Hord.
  specialize (Hord a Ha).
  rewrite <-(normalized_axis_idem a Hord) at 1.
  apply normalized_idem. by apply ordered_normalized_axis.
Qed.

Lemma normalize_condition_idem (axes : list axis) (c c' : condition) :
  Forall ordered axes →
  normalize_condition (normalized_axis <$> axes) c = Ok c' →
  normalize_condition (normalized_axis <$> axes) c' = Ok c'.
Proof.
  intros Hord. unfold normalize_condition.
  destruct (normalize_bound _ _ (Condition.minimum c)) as [mn|] eqn:Hmn;
    cbn; [|done].
  destruct (normalize_bound _ _ (Condition.maximum c)) as [mx|] eqn:Hmx;
    cbn; [|done].
  intros [= <-]. cbn.
  rewrite (normalize_bound_idem _ _ _ _ Hord Hmn). cbn.
  by rewrite (normalize_bound_idem _ _ _ _ Hord Hmx).
Qed.

Lemma normalize_rule_idem (axes : list axis) (r r' : rule) :
  Forall ordered axes →
  normalize_rule (normalized_axis <$> axes) r = Ok r' →
  normalize_rule (normalized_axis <$> axes) r' = Ok r'.
Proof.
  intros Hord. unfold normalize_rule.
  destruct (mapM _ (RuleDescriptor.conditionSets r)) as [cs|] eqn:Hcs;
    cbn; [|done].
  intros [= <-]. cbn.
  rewrite (mapM_fixed _ (mapM (normalize_condition (normalized_axis <$> axes)))
             _ _ Hcs); [done|].
  intros l l' _ Hl.
  apply (mapM_fixed _ (normalize_condition (normalized_axis <$> axes)) _ _ Hl).
  intros c c' _. by apply normalize_condition_idem.
Qed.

(** X8. [normalize] is idempotent on documents with unique axis names and
    minimum <= default <= maximum on every axis: when it completes, running
    it again on its result completes and changes nothing. *)
Theorem normalize_idempotent (self self' : document) :
  NoDup (AxisDescriptor.name <$> DesignSpaceDocument.axes self) →
  Forall ordered (DesignSpaceDocument.axes self) →
  normalize self = Ok self' →
  normalize self' = Ok self'.
Proof.
  intros Hnd Hord. unfold normalize at 1.
  destruct (mapM _ (DesignSpaceDocument.sources self)) as [ss|] eqn:Hss;
    cbn [mbind result_bind]; [|done].
  destruct (mapM _ (DesignSpaceDocument.instances self)) as [insts|] eqn:His;
    cbn [mbind result_bind]; [|done].
  rewrite normalize_axes_eq by done. cbn [mbind result_bind].
  destruct (mapM _ (DesignSpaceDocument.rules self)) as [rs|] eqn:Hrs;
    cbn [mbind result_bind]; [|done].
  intros [= <-]. unfold normalize.
  cbn [DesignSpaceDocument.sources DesignSpaceDocument.instances
       DesignSpaceDocument.axes DesignSpaceDocument.rules
       DesignSpaceDocument.default DesignSpaceDocument.defaultLoc].
  rewrite (mapM_fixed _ (normalize_source _) _ _ Hss)
    by (intros s s' _; by apply normalize_source_idem).
  cbn [mbind result_bind].
  rewrite (mapM_fixed _ (normalize_instance _) _ _ His)
    by (intros s s' _; by apply normalize_instance_idem).
  cbn [mbind result_bind].
  rewrite normalize_axes_idem by done. cbn [mbind result_bind].
  rewrite (mapM_fixed _ (normalize_rule _) _ _ Hrs)
    by (intros s s' _; by apply normalize_rule_idem).
  done.
Qed.

Lemma normalize_idempotent_witness :
  ∃ self', normalize ruled_document = Ok self' ∧ normalize self' = Ok self'.
Proof.
  destruct (normalize ruled_document) as [self'|] eqn:Hn; [|by vm_compute in Hn].
  exists self'. split; [done|].
  apply (normalize_idempotent ruled_document self').
  - apply (bool_decide_unpack _). by vm_compute.
  - repeat constructor; by vm_compute.
  - exact Hn.
Defined.

(** The parts of a [normalize] that completes. *)
Lemma normalize_inv (self self' : document) :
  NoDup (AxisDescriptor.name <$> DesignSpaceDocument.axes self) →
  normalize self = Ok self' →
  mapM (normalize_source (DesignSpaceDocument.axes self))
       (DesignSpaceDocument.sources self)
    = Ok (DesignSpaceDocument.sources self')
  ∧ mapM (normalize_instance (DesignSpaceDocument.axes self))
         (DesignSpaceDocument.instances self)
    = Ok (DesignSpaceDocument.instances self')
  ∧ DesignSpaceDocument.axes self'
    = normalized_axis <$> DesignSpaceDocument.axes self
  ∧ mapM (normalize_rule (normalized_axis <$> DesignSpaceDocument.axes self))
         (DesignSpaceDocument.rules self)
    = Ok (DesignSpaceDocument.rules self').
Proof.
  intros Hnd. unfold normalize.
  destruct (mapM _ (DesignSpaceDocument.sources self)) as [ss|];
    cbn [mbind result_bind]; [|done].
  destruct (mapM _ (DesignSpaceDocument.instances self)) as [insts|];
    cbn [mbind result_bind]; [|done].
  rewrite normalize_axes_eq by done. cbn [mbind result_bind].
  destruct (mapM _ (DesignSpaceDocument.rules self)) as [rs|];
    cbn [mbind result_bind]; [|done].
  by intros [= <-].
Qed.

(** X5. On a document that [normalize] accepts and whose axes have
    minimum <= default <= maximum, [normalize] leaves every axis with default
    0, with minimum -1 (or 0 when the axis does not extend below its
    default) and with maximum 1 (or 0 when it does not extend above); tag,
    name and the hidden flag are kept. *)
Theorem normalize_axes_bounds (self : document) :
  NoDup (AxisDescriptor.name <$> DesignSpaceDocument.axes self) →
  Forall ordered (DesignSpaceDocument.axes self) →
  locations_set self →
  overrides_complete self →
  ∃ self', normalize self = Ok self' ∧
    Forall2
      (λ a a',
         AxisDescriptor.tag a' = AxisDescriptor.tag a
         ∧ AxisDescriptor.name a' = AxisDescriptor.name a
         ∧ AxisDescriptor.hidden a' = AxisDescriptor.hidden a
         ∧ AxisDescriptor.default a' = 0
         ∧ AxisDescriptor.minimum a'
           = (if decide (AxisDescriptor.minimum a < AxisDescriptor.default a)
              then -1 else 0)
         ∧ AxisDescriptor.maximum a'
           = (if decide (AxisDescriptor.default a < AxisDescriptor.maximum a)
              then 1 else 0))
      (DesignSpaceDocument.axes self) (DesignSpaceDocument.axes self').
Proof.
  intros Hnd Hord Hloc Hov.
  destruct (normalize_Ok self Hnd Hloc Hov) as (self' & Hn & Hax).
  exists self'. split; [done|]. rewrite Hax.
  apply Forall2_fmap_r, Forall_Forall2_diag.
  eapply Forall_impl; [exact Hord|]. intros a Ha.
  cbn [normalized_axis AxisDescriptor.tag AxisDescriptor.name
       AxisDescriptor.hidden AxisDescriptor.default AxisDescriptor.minimum
       AxisDescriptor.maximum].
  repeat split.
  - apply normalized_at_default.
  - by apply normalized_at_minimum.
  - by apply normalized_at_maximum.
Qed.

Lemma normalize_axes_bounds_witness :
  ∃ self', normalize ruled_document = Ok self' ∧
    (λ a, (this (AxisDescriptor.minimum a), this (AxisDescriptor.default a),
           this (AxisDescriptor.maximum a)))
      <$> DesignSpaceDocument.axes self'
    = [(-1 # 1, 0 # 1, 1 # 1); (-1 # 1, 0 # 1, 1 # 1)]%Q.
Proof.
  destruct (normalize_axes_bounds ruled_document) as (self' & Hn & _).
  - apply (bool_decide_unpack _). by vm_compute.
  - repeat constructor; by vm_compute.
  - split; repeat constructor; by eexists.
  - repeat constructor.
  - exists self'. split; [exact Hn|].
    revert Hn. vm_compute. intros [= <-]. reflexivity.
Defined.

Lemma normalizeLocation_in_range (axes : list axis) (l new : Location) :
  Forall ordered axes →
  normalizeLocation axes l = Ok new → in_range axes new.
Proof.
  intros Hord Hnew.
  destruct (normalizeLocation_lookup axes l) as (new1 & Hn1 & Hl).
  rewrite Hnew in Hn1. injection Hn1 as <-.
  intros n v. rewrite Hl. destruct (l !! n) as [w|]; [|done].
  destruct (last_axis n axes) as [a|] eqn:Ha; [|done]. intros [= <-].
  apply last_axis_Some in Ha as [<- Ha]. split.
  - by apply list_elem_of_fmap_2.
  - eexists. split; [done|]. apply normalized_range.
    rewrite Forall_forall in Hord. by apply Hord.
Qed.

Lemma Forall2_with {A B : Type} (P : A → Prop) (R Q : A → B → Prop)
    (l : list A) (l' : list B) :
  Forall P l → Forall2 R l l' → (∀ x y, P x → R x y → Q x y) → Forall2 Q l l'.
Proof.
  intros HP HR HQ. induction HR as [|x y l l' Hxy _ IH]; [constructor|].
  apply Forall_cons in HP as [Hx HP]. constructor; [by apply HQ|by apply IH].
Qed.

(** X6. On a document that [normalize] accepts and whose axes have
    minimum <= default <= maximum, [normalize] changes nothing of a source
    but its location, which becomes what [normalizeLocation] makes of it with
    the axes as they were before the call; the same holds for the location
    of each instance, whose glyph names are kept. Every such location then
    has only axis names as keys and only numbers within [-1, 1] as values. *)
Theorem normalize_locations (self : document) :
  NoDup (AxisDescriptor.name <$> DesignSpaceDocument.axes self) →
  Forall ordered (DesignSpaceDocument.axes self) →
  locations_set self →
  overrides_complete self →
  ∃ self', normalize self = Ok self' ∧
    Forall2
      (λ s s', ∃ l new,
         SourceDescriptor.location s = Some l
         ∧ normalizeLocation (DesignSpaceDocument.axes self) l = Ok new
         ∧ s' = SourceDescriptor.set_location s (Some new)
         ∧ in_range (DesignSpaceDocument.axes self) new)
      (DesignSpaceDocument.sources self) (DesignSpaceDocument.sources self')
    ∧ Forall2
      (λ i i', ∃ l new,
         InstanceDescriptor.location i = Some l
         ∧ normalizeLocation (DesignSpaceDocument.axes self) l = Ok new
         ∧ InstanceDescriptor.location i' = Some new
         ∧ InstanceDescriptor.name i' = InstanceDescriptor.name i
         ∧ (InstanceDescriptor.glyphs i').*1 = (InstanceDescriptor.glyphs i).*1
         ∧ in_range (DesignSpaceDocument.axes self) new)
      (DesignSpaceDocument.instances self) (DesignSpaceDocument.instances self').
Proof.
  intros Hnd Hord [Hsrc Hinst] Hov.
  destruct (normalize_Ok self Hnd (conj Hsrc Hinst) Hov) as (self' & Hn & _).
  exists self'. split; [done|].
  destruct (normalize_inv self self' Hnd Hn) as (Hss & His & _).
  apply mapM_Ok_inv in Hss. apply mapM_Ok_inv in His. split.
  - apply (Forall2_with _ _ _ _ _ Hsrc Hss). intros s s' [l Hl].
    unfold normalize_source. rewrite Hl. cbn [normalizeLocation_attr].
    destruct (normalizeLocation (DesignSpaceDocument.axes self) l)
      as [new|] eqn:Hnew; cbn [mbind result_bind]; [|done].
    intros [= <-]. exists l, new. split; [done|]. split; [done|].
    split; [done|]. by apply (normalizeLocation_in_range _ l new Hord Hnew).
  - apply (Forall2_with _ _ _ _ _ Hinst His). intros i i' [[l Hl] _].
    unfold normalize_instance.
    destruct (mapM _ (InstanceDescriptor.glyphs i)) as [gs|] eqn:Hgs;
      cbn [mbind result_bind]; [|done].
    cbn [InstanceDescriptor.set_glyphs InstanceDescriptor.location].
    rewrite Hl. cbn [normalizeLocation_attr].
    destruct (normalizeLocation (DesignSpaceDocument.axes self) l)
      as [new|] eqn:Hnew; cbn [mbind result_bind]; [|done].
    intros [= <-]. exists l, new.
    cbn [InstanceDescriptor.set_location InstanceDescriptor.location
         InstanceDescriptor.set_glyphs
         InstanceDescriptor.name InstanceDescriptor.glyphs].
    split; [done|]. split; [done|]. split; [done|]. split; [done|]. split.
    + apply mapM_Ok_inv in Hgs. revert Hgs. clear.
      generalize (InstanceDescriptor.glyphs i). intros l0 Hgs.
      induction Hgs as [|[n g] [n' g'] l1 l2 H _ IH]; [done|].
      cbn in H. destruct (normalize_glyphData _ g); cbn in H; [|done].
      injection H as <- <-. cbn. by rewrite IH.
    + by apply (normalizeLocation_in_range _ l new Hord Hnew).
Qed.

Lemma normalize_locations_witness :
  ∃ self', normalize ruled_document = Ok self' ∧
    (λ s, (λ l, (λ nv : string * value, (nv.1, this (scalar nv.2)))
                  <$> map_to_list l) <$> SourceDescriptor.location s)
      <$> DesignSpaceDocument.sources self'
    = [Some [("weight", 1 # 2); ("width", -1 # 2)]]%Q.
Proof.
  destruct (normalize_locations ruled_document) as (self' & Hn & _).
  - apply (bool_decide_unpack _). by vm_compute.
  - repeat constructor; by vm_compute.
  - split; repeat constructor; by eexists.
  - repeat constructor.
  - exists self'. split; [exact Hn|].
    revert Hn. vm_compute. intros [= <-]. reflexivity.
Defined.

(** A normalised axis only clamps. *)
Lemma normalized_axis_clamp (a : axis) (x : Qc) :
  ordered a →
  normalized (normalized_axis a) (Num x) = clamp x (lower a) (upper a).
Proof.
  intros Ha.
  pose proof (ordered_normalized_axis a Ha) as Ha'.
  assert (AxisDescriptor.minimum (normalized_axis a) = lower a) as Emin
    by (by apply normalized_at_minimum).
  assert (AxisDescriptor.maximum (normalized_axis a) = upper a) as Emax
    by (by apply normalized_at_maximum).
  assert (AxisDescriptor.default (normalized_axis a) = 0) as Edef
    by apply normalized_at_default.
  assert (lower a ≤ 0 ≤ upper a) as [Hlo Hhi].
  { unfold lower, upper. split; case_decide; by vm_compute. }
  unfold clamp. destruct (decide (x < lower a)) as [Hx|Hx].
  - destruct (decide (lower a = 0)) as [E|E].
    + destruct (normalized_below (normalized_axis a) (Num x)) as [-> _];
        rewrite ?Edef, ?Emin; cbn [scalar]; try done.
      by rewrite E in Hx.
    + destruct (normalized_saturation (normalized_axis a) (Num x) Ha')
        as [-> _]; rewrite ?Edef, ?Emin; cbn [scalar].
      * unfold lower in *. by case_decide.
      * by apply Qclt_le_weak.
      * destruct (Qcle_lt_or_eq _ _ Hlo) as [?|E']; [done|by destruct E].
  - destruct (decide (upper a < x)) as [Hx'|Hx'].
    + destruct (decide (upper a = 0)) as [E|E].
      * destruct (normalized_above (normalized_axis a) (Num x)) as [-> _];
          rewrite ?Edef, ?Emax; cbn [scalar]; try done.
        by rewrite E in Hx'.
      * destruct (normalized_saturation (normalized_axis a) (Num x) Ha')
          as [_ ->]; rewrite ?Edef, ?Emax; cbn [scalar].
        -- unfold upper in *. by case_decide.
        -- by apply Qclt_le_weak.
        -- destruct (Qcle_lt_or_eq _ _ Hhi) as [?|E']; [done|by destruct E].
    + apply normalized_fixed; [done|by apply Qcnot_lt_le..].
Qed.

(** X7. [normalize] rewrites the axes before the rules, so the bounds of a
    rule condition are scaled by the axes as already normalised: on a
    document that [normalize] accepts and whose axes have
    minimum <= default <= maximum, a bound on a declared axis is only clamped
    to the new bounds of that axis (-1 or 0 below, 1 or 0 above) and a
    condition on a name that is no axis loses both bounds; rule names,
    substitutions and condition names are kept. *)
Theorem normalize_rule_bounds (self : document) :
  NoDup (AxisDescriptor.name <$> DesignSpaceDocument.axes self) →
  Forall ordered (DesignSpaceDocument.axes self) →
  locations_set self →
  overrides_complete self →
  ∃ self', normalize self = Ok self' ∧
    Forall2
      (λ r r',
         RuleDescriptor.name r' = RuleDescriptor.name r
         ∧ RuleDescriptor.subs r' = RuleDescriptor.subs r
         ∧ Forall2
             (Forall2
                (λ c c',
                   Condition.name c' = Condition.name c
                   ∧ (∀ a, a ∈ DesignSpaceDocument.axes self →
                        AxisDescriptor.name a = Condition.name c →
                        Condition.minimum c'
                          = (λ b, clamp b (lower a) (upper a))
                              <$> Condition.minimum c
                        ∧ Condition.maximum c'
                          = (λ b, clamp b (lower a) (upper a))
                              <$> Condition.maximum c)
                   ∧ (Condition.name c
                        ∉ AxisDescriptor.name <$> DesignSpaceDocument.axes self →
                      Condition.minimum c' = None
                      ∧ Condition.maximum c' = None)))
             (RuleDescriptor.conditionSets r) (RuleDescriptor.conditionSets r'))
      (DesignSpaceDocument.rules self) (DesignSpaceDocument.rules self').
Proof.
  intros Hnd Hord Hloc Hov.
  destruct (normalize_Ok self Hnd Hloc Hov) as (self' & Hn & _).
  exists self'. split; [done|].
  destruct (normalize_inv self self' Hnd Hn) as (_ & _ & _ & Hrs).
  apply mapM_Ok_inv in Hrs. eapply Forall2_impl; [exact Hrs|].
  intros r r'. unfold normalize_rule.
  destruct (mapM _ (RuleDescriptor.conditionSets r)) as [cs|] eqn:Hcs;
    cbn [mbind result_bind]; [|done].
  intros [= <-]. cbn [RuleDescriptor.name RuleDescriptor.subs
                      RuleDescriptor.conditionSets].
  split; [done|]. split; [done|].
  apply mapM_Ok_inv in Hcs. eapply Forall2_impl; [exact Hcs|].
  intros l l' Hl. apply mapM_Ok_inv in Hl. eapply Forall2_impl; [exact Hl|].
  intros c c'. unfold normalize_condition.
  assert (∀ b b', normalize_bound
                    (normalized_axis <$> DesignSpaceDocument.axes self)
                    (Condition.name c) b = Ok b' →
            (∀ a, a ∈ DesignSpaceDocument.axes self →
                  AxisDescriptor.name a = Condition.name c →
                  b' = (λ b, clamp b (lower a) (upper a)) <$> b)
            ∧ (Condition.name c
                 ∉ AxisDescriptor.name <$> DesignSpaceDocument.axes self →
               b' = None)) as Hb.
  { intros b b'. unfold normalize_bound. destruct b as [x|].
    - rewrite normalizeSingle_eq, last_axis_normalized. intros [= <-]. split.
      + intros a Ha Hname. rewrite <-Hname, (last_axis_NoDup _ a Hnd Ha). cbn.
        f_equal. apply normalized_axis_clamp.
        rewrite Forall_forall in Hord. by apply Hord.
      + intros Hnot. apply last_axis_None in Hnot. by rewrite Hnot.
    - intros [= <-]. split; [done|done]. }
  destruct (normalize_bound _ _ (Condition.minimum c)) as [mn|] eqn:Hmn;
    cbn [mbind result_bind]; [|done].
  destruct (normalize_bound _ _ (Condition.maximum c)) as [mx|] eqn:Hmx;
    cbn [mbind result_bind]; [|done].
  intros [= <-]. cbn [Condition.name Condition.minimum Condition.maximum].
  destruct (Hb _ _ Hmn) as [Hmn1 Hmn2]. destruct (Hb _ _ Hmx) as [Hmx1 Hmx2].
  split; [done|]. split.
  - intros a Ha Hname. split; [by apply Hmn1|by apply Hmx1].
  - intros Hnot. split; [by apply Hmn2|by apply Hmx2].
Qed.

Lemma normalize_rule_bounds_witness :
  ∃ self', normalize ruled_document = Ok self' ∧
    (λ r, (λ c, (Condition.name c, this <$> Condition.minimum c,
                 this <$> Condition.maximum c))
            <$> concat (RuleDescriptor.conditionSets r))
      <$> DesignSpaceDocument.rules self'
    = [[("weight", Some (1 # 1), Some (1 # 1)); ("optical", None, None)]]%Q.
Proof.
  destruct (normalize_rule_bounds ruled_document) as (self' & Hn & _).
  - apply (bool_decide_unpack _). by vm_compute.
  - repeat constructor; by vm_compute.
  - split; repeat constructor; by eexists.
  - repeat constructor.
  - exists self'. split; [exact Hn|].
    revert Hn. vm_compute. intros [= <-]. reflexivity.
Defined.

(** X9. For a rule whose conditions all carry at least one bound, at a
    location that gives a number for every axis the conditions name,
    [evaluateRule] returns a boolean, and it is True exactly when the
    location meets every condition of at least one condition set. *)
Theorem evaluateRule_bounded (r : rule) (location : Location) :
  Forall (evaluable location) (RuleDescriptor.conditionSets r) →
  ∃ b, evaluateRule r location = Ok b ∧
       (b = true ↔
        Exists (conditions_hold location) (RuleDescriptor.conditionSets r)).
Proof.
  intros Hall. rewrite Forall_forall in Hall.
  destruct (evaluateRule_any r location) as (b & Hb & Hiff).
  { intros c Hc. destruct (evaluateConditions_bounded c location (Hall c Hc))
      as (b & Hb & _). by exists b. }
  exists b. split; [done|]. rewrite Hiff, Exists_exists. split.
  - intros (c & Hc & Ht). exists c. split; [done|].
    destruct (evaluateConditions_bounded c location (Hall c Hc))
      as (b' & Hb' & Hiff').
    rewrite Ht in Hb'. injection Hb' as <-. exact (proj1 Hiff' eq_refl).
  - intros (c & Hc & Hh). exists c. split; [done|].
    destruct (evaluateConditions_bounded c location (Hall c Hc))
      as (b' & -> & Hiff').
    f_equal. exact (proj2 Hiff' Hh).
Qed.

Lemma evaluateRule_bounded_witness :
  evaluateRule scenario_rule {[ "weight" := Num (int 500) ]} = Ok true.
Proof.
  destruct (evaluateRule_bounded scenario_rule {[ "weight" := Num (int 500) ]})
    as (b & Hb & _).
  - apply Forall_singleton.
    intros cd ->%list_elem_of_singleton. split; [reflexivity|].
    exists (int 500). reflexivity.
  - revert Hb. vm_compute. by intros [= <-].
Defined.

(** Conditions that are met are passed over. *)
Lemma evaluateConditions_app (pre rest : list condition) (location : Location) :
  evaluable location pre →
  conditions_hold location pre →
  evaluateConditions (pre ++ rest) location = evaluateConditions rest location.
Proof.
  intros Hev Hhold. induction pre as [|c pre IH]; [done|].
  destruct (Hev c) as (Hb & x & Hx); [by left|].
  destruct (evaluateCondition_bounded c x Hb) as (b & Hc & Hiff).
  assert (b = true) as ->.
  { apply Hiff. apply (Hhold c x); [by left|done]. }
  cbn [app evaluateConditions]. unfold getitem at 1. rewrite Hx. cbn.
  rewrite Hc. cbn. apply IH.
  - intros c' Hc'. apply Hev. by right.
  - intros c' x' Hc'. apply Hhold. by right.
Qed.

(** X10. [evaluateConditions] looks at the conditions in order and stops at
    the first one that is not met: after conditions that are met, a
    condition whose axis name is no key of the location raises KeyError,
    and a bounded condition that the location does not meet makes the
    answer False, whatever follows it (later conditions are not looked at,
    so a missing key or an unbounded condition among them goes unnoticed). *)
Theorem evaluateConditions_first_failure (pre post : list condition)
    (cd : condition) (location : Location) :
  evaluable location pre →
  conditions_hold location pre →
  (location !! Condition.name cd = None →
   evaluateConditions (pre ++ cd :: post) location = Err KeyError)
  ∧ (∀ x, has_bound cd = true →
          location !! Condition.name cd = Some (Num x) →
          ¬ condition_holds cd x →
          evaluateConditions (pre ++ cd :: post) location = Ok false).
Proof.
  intros Hev Hhold. rewrite (evaluateConditions_app _ _ _ Hev Hhold).
  cbn [evaluateConditions]. unfold getitem. split.
  - by intros ->.
  - intros x Hb Hx Hnot. rewrite Hx. cbn.
    destruct (evaluateCondition_bounded cd x Hb) as ([|] & -> & Hiff);
      [|done].
    destruct Hnot. by apply Hiff.
Qed.

Lemma evaluateConditions_first_failure_witness :
  evaluateConditions
    [Condition.mk "weight" (Some (int 250)) (Some (int 750));
     Condition.mk "width" (Some (int 100)) None;
     unbounded_condition]
    {[ "weight" := Num (int 500) ]} = Err KeyError
  ∧ evaluateConditions
      [Condition.mk "weight" (Some (int 250)) (Some (int 750));
       Condition.mk "weight" None (Some (int 400));
       Condition.mk "width" (Some (int 100)) None]
      {[ "weight" := Num (int 500) ]} = Ok false.
Proof.
  assert (evaluable {[ "weight" := Num (int 500) ]}
            [Condition.mk "weight" (Some (int 250)) (Some (int 750))]) as Hev.
  { intros cd ->%list_elem_of_singleton. split; [reflexivity|].
    exists (int 500). reflexivity. }
  assert (conditions_hold {[ "weight" := Num (int 500) ]}
            [Condition.mk "weight" (Some (int 250)) (Some (int 750))]) as Hh.
  { intros cd x ->%list_elem_of_singleton [= <-].
    split; intros ? [= <-]; by vm_compute. }
  split.
  - apply (evaluateConditions_first_failure
             [Condition.mk "weight" (Some (int 250)) (Some (int 750))]
             [unbounded_condition]
             (Condition.mk "width" (Some (int 100)) None) _ Hev Hh).
    reflexivity.
  - apply (proj2 (evaluateConditions_first_failure
             [Condition.mk "weight" (Some (int 250)) (Some (int 750))]
             [Condition.mk "width" (Some (int 100)) None]
             (Condition.mk "weight" None (Some (int 400))) _ Hev Hh)
             (int 500)).
    + reflexivity.
    + reflexivity.
    + intros [_ H]. specialize (H _ eq_refl). by vm_compute in H.
Defined.

Lemma processRules_eq (rules : list rule) (location : Location)
    (names : list string) :
  processRules rules location names = processRules_spec rules location names.
Proof.
  unfold processRules. rewrite processRules_fold.
  by destruct (processRules_spec rules location names).
Qed.

(** X11. At a given location [processRules] either raises the same
    exception for every list of glyph names, or rewrites every list name by
    name with one and the same function: the result has the length of the
    input and the name at a position depends on the input name at that
    position only. *)
Theorem processRules_pointwise (rules : list rule) (location : Location) :
  (∃ f : string → string,
     ∀ names, processRules rules location names = Ok (f <$> names))
  ∨ (∃ e, ∀ names, processRules rules location names = Err e).
Proof.
  induction rules as [|r rest IH].
  - left. exists id. intros names. by rewrite list_fmap_id.
  - destruct (evaluateRule r location) as [b|e] eqn:Hr.
    + destruct IH as [[f Hf]|[e He]].
      * left.
        exists (if b then f ∘ substitute (RuleDescriptor.subs r) else f).
        intros names. rewrite processRules_eq. cbn [processRules_spec].
        rewrite Hr. cbn. rewrite <-processRules_eq, Hf.
        destruct b; [|done]. by rewrite <-list_fmap_compose.
      * right. exists e. intros names. rewrite processRules_eq.
        cbn [processRules_spec]. rewrite Hr. cbn.
        by rewrite <-processRules_eq, He.
    + right. exists e. intros names. rewrite processRules_eq.
      cbn [processRules_spec]. by rewrite Hr.
Qed.

(** X12. Applying a list of rules followed by a second list is applying the
    first list and then the second to its result; an exception of the first
    list is the exception of the whole. *)
Theorem processRules_app (rules1 rules2 : list rule) (location : Location)
    (names : list string) :
  processRules (rules1 ++ rules2) location names
  = (names1 ← processRules rules1 location names;
     processRules rules2 location names1).
Proof.
  rewrite (processRules_eq (rules1 ++ rules2)), (processRules_eq rules1).
  revert names. induction rules1 as [|r rest IH]; intros names.
  - cbn. by rewrite processRules_eq.
  - cbn [app processRules_spec].
    destruct (evaluateRule r location) as [b|e]; cbn; [|done]. apply IH.
Qed.

(** * findDefault, on any document *)

Lemma findDefault_byCopyInfo_elem (l : list source) (s : source) :
  findDefault_byCopyInfo l = Some s → s ∈ l.
Proof.
  intros (pre & post & -> & _)%findDefault_byCopyInfo_Some.
  apply elem_of_app. right. by left.
Qed.

Lemma findDefault_byLocation_elem (dl : option Location) (l : list source)
    (s : source) :
  findDefault_byLocation dl l = Some s → s ∈ l.
Proof.
  intros (pre & post & -> & _)%findDefault_byLocation_Some.
  apply elem_of_app. right. by left.
Qed.

(** X13. On a document whose [defaultLoc] was never set (it is None, as in
    a document built in memory and not read from a file) and whose sources
    all have a location, the comparison with [defaultLoc] matches no source:
    [findDefault] returns the first source flagged [copyInfo], and None when
    there is none, whatever the source locations are. *)
Theorem findDefault_without_defaultLoc (self : document) :
  DesignSpaceDocument.defaultLoc self = None →
  Forall (λ s, is_Some (SourceDescriptor.location s))
         (DesignSpaceDocument.sources self) →
  ∃ r, findDefault self = (DesignSpaceDocument.set_default self r, r) ∧
    match r with
    | Some s => first_such (λ x, SourceDescriptor.copyInfo x = true)
                           (DesignSpaceDocument.sources self) s
    | None => Forall (λ x, SourceDescriptor.copyInfo x = false)
                     (DesignSpaceDocument.sources self)
    end.
Proof.
  intros Hdl Hloc. unfold findDefault.
  destruct self as [srcs insts axes rules dflt dl]. simpl in *. subst dl.
  assert (findDefault_byLocation None srcs = None) as ->.
  { induction Hloc as [|s rest [l Hs] _ IH]; [done|].
    cbn [findDefault_byLocation]. rewrite Hs. by rewrite decide_False. }
  destruct (findDefault_byCopyInfo srcs) as [s|] eqn:Hci.
  - exists (Some s). split; [done|]. by apply findDefault_byCopyInfo_Some.
  - exists None. split; [done|]. by apply findDefault_byCopyInfo_None.
Qed.

Lemma findDefault_without_defaultLoc_witness :
  (findDefault muting_document).2 = None.
Proof.
  destruct (findDefault_without_defaultLoc muting_document) as (r & Hr & Hs).
  - reflexivity.
  - repeat constructor. by eexists.
  - rewrite Hr. destruct r as [s|]; [|reflexivity].
    destruct Hs as (pre & post & Hl & Hc & _).
    assert (s ∈ DesignSpaceDocument.sources muting_document) as Hin.
    { rewrite Hl. apply elem_of_app. right. by left. }
    apply list_elem_of_singleton in Hin. subst s. by vm_compute in Hc.
Defined.

(** X14. The answer of [findDefault] is one of the sources of the document;
    it does not depend on the [default] stored before the call, and calling
    [findDefault] again on the resulting document gives the same document
    and the same answer. *)
Theorem findDefault_again (self : document) :
  (∀ s, (findDefault self).2 = Some s → s ∈ DesignSpaceDocument.sources self)
  ∧ (∀ d, findDefault (DesignSpaceDocument.set_default self d) = findDefault self)
  ∧ findDefault (findDefault self).1 = findDefault self.
Proof.
  assert (∀ d, findDefault (DesignSpaceDocument.set_default self d)
               = findDefault self) as Hd by done.
  split; [|split; [done|]].
  - intros s. unfold findDefault.
    cbn [DesignSpaceDocument.set_default DesignSpaceDocument.sources
         DesignSpaceDocument.defaultLoc].
    destruct (findDefault_byLocation _ _) as [s'|] eqn:Hloc.
    + intros [= ->]. by apply findDefault_byLocation_elem in Hloc.
    + destruct (findDefault_byCopyInfo _) as [s'|] eqn:Hci; [|done].
      intros [= ->]. by apply findDefault_byCopyInfo_elem in Hci.
  - unfold findDefault at 2.
    cbn [DesignSpaceDocument.set_default DesignSpaceDocument.sources
         DesignSpaceDocument.defaultLoc].
    destruct (findDefault_byLocation _ _) as [s'|]; [apply Hd|].
    destruct (findDefault_byCopyInfo _) as [s'|]; apply Hd.
Qed.

(** * Axis lookup *)

Lemma getAxisOrder_eq (axes : list axis) :
  getAxisOrder axes = AxisDescriptor.name <$> axes.
Proof.
  unfold getAxisOrder.
  assert (∀ acc, foldl (λ names a, names ++ [AxisDescriptor.name a]) acc axes
                 = acc ++ (AxisDescriptor.name <$> axes)) as H.
  { induction axes as [|a rest IH]; intros acc; cbn [foldl fmap list_fmap].
    - by rewrite app_nil_r.
    - rewrite IH, <-app_assoc. done. }
  apply H.
Qed.

Lemma getAxis_None (axes : list axis) (n : string) :
  getAxis axes n = None ↔ n ∉ AxisDescriptor.name <$> axes.
Proof.
  induction axes as [|a rest IH]; cbn [getAxis fmap list_fmap].
  - split; [|done]. intros _ H. by apply elem_of_nil in H.
  - rewrite not_elem_of_cons. case_decide as Ha.
    + split; [done|]. by intros [? _].
    + rewrite IH. split; [by intros ?; split|by intros [_ ?]].
Qed.

Lemma getAxis_Some (axes : list axis) (n : string) (a : axis) :
  getAxis axes n = Some a → first_such (λ x, AxisDescriptor.name x = n) axes a.
Proof.
  induction axes as [|x rest IH]; [done|]. cbn [getAxis]. case_decide as Hx.
  - intros [= ->]. exists [], rest. by repeat split.
  - intros (pre & post & -> & Hs & Hpre)%IH.
    exists (x :: pre), post. split; [done|]. split; [done|]. by constructor.
Qed.

(** X15. [getAxis] answers None exactly for the names that are not in
    [getAxisOrder], and otherwise the first axis of that name. When axis
    names are unique this is the axis that [normalizeLocation] scales the
    value of that name with. *)
Theorem getAxis_spec (axes : list axis) (n : string) :
  (getAxis axes n = None ↔ n ∉ getAxisOrder axes)
  ∧ (∀ a, getAxis axes n = Some a →
          first_such (λ x, AxisDescriptor.name x = n) axes a)
  ∧ (NoDup (getAxisOrder axes) →
     ∀ a v, getAxis axes n = Some a →
       ∃ x, normalizeValue a v = Ok x
            ∧ normalizeLocation axes {[ n := v ]} = Ok {[ n := Num x ]}).
Proof.
  rewrite getAxisOrder_eq. split; [apply getAxis_None|].
  split; [apply getAxis_Some|]. intros Hnd a v Ha.
  apply getAxis_Some in Ha as (pre & post & Hl & Hn & _).
  exists (normalized a v). split; [apply normalizeValue_normalized|].
  destruct (normalizeLocation_lookup axes {[ n := v ]}) as (new & -> & Hnew).
  f_equal. apply map_eq. intros k. rewrite Hnew.
  destruct (decide (k = n)) as [->|Hk].
  - rewrite !lookup_singleton_eq, <-Hn, (last_axis_NoDup axes a); [done|done|].
    rewrite Hl. apply elem_of_app. right. by left.
  - by rewrite !lookup_singleton_ne.
Qed.

Lemma getAxis_spec_witness :
  ∃ x, normalizeValue width_axis (Num (int 125)) = Ok x
       ∧ normalizeLocation [weight_axis; width_axis] {[ "width" := Num (int 125) ]}
         = Ok {[ "width" := Num x ]}.
Proof.
  apply (proj2 (proj2 (getAxis_spec [weight_axis; width_axis] "width"))).
  - apply (bool_decide_unpack _). by vm_compute.
  - reflexivity.
Defined.

(** * The default location *)

Lemma odict_items_set (acc : odict) (k : string) (v : value) :
  k ∉ od_keys acc →
  odict_items (odict_set k v acc) = odict_items acc ++ [(k, v)].
Proof.
  intros Hk. unfold odict_set, odict_items. cbn [od_keys od_map].
  rewrite decide_False by done. rewrite omap_app. f_equal.
  - apply list_omap_ext, Forall_Forall2_diag, Forall_forall. intros k' Hk'.
    rewrite lookup_insert_ne; [done|]. by intros ->.
  - cbn. by rewrite lookup_insert_eq.
Qed.

Lemma odict_items_fold (axes : list axis) (acc : odict) :
  NoDup (od_keys acc ++ (AxisDescriptor.name <$> axes)) →
  odict_items
    (foldl (λ loc a, odict_set (AxisDescriptor.name a)
                               (Num (AxisDescriptor.default a)) loc) acc axes)
  = odict_items acc
    ++ ((λ a, (AxisDescriptor.name a, Num (AxisDescriptor.default a))) <$> axes).
Proof.
  revert acc. induction axes as [|a rest IH]; intros acc Hnd.
  - cbn. by rewrite app_nil_r.
  - cbn [foldl fmap list_fmap].
    change (list_fmap _ _ ?f rest) with (f <$> rest) in *.
    assert (AxisDescriptor.name a ∉ od_keys acc) as Hnew.
    { apply NoDup_app in Hnd as (_ & Hd & _). intros Hin.
      apply (Hd _ Hin). by left. }
    rewrite IH.
    + by rewrite odict_items_set, <-app_assoc.
    + unfold odict_set. cbn [od_keys]. rewrite decide_False by done.
      by rewrite <-app_assoc.
Qed.

(** X16. When axis names are unique, the items of [newDefaultLocation] are
    the pairs (name, default) of the axes, in axis order. *)
Theorem newDefaultLocation_items (axes : list axis) :
  NoDup (getAxisOrder axes) →
  odict_items (newDefaultLocation axes)
  = (λ a, (AxisDescriptor.name a, Num (AxisDescriptor.default a))) <$> axes.
Proof.
  rewrite getAxisOrder_eq. intros Hnd. unfold newDefaultLocation.
  by rewrite odict_items_fold.
Qed.

Lemma newDefaultLocation_items_witness :
  (λ kv : string * value, (kv.1, this (scalar kv.2)))
    <$> odict_items (newDefaultLocation [weight_axis; width_axis])
  = [("weight", 400 # 1); ("width", 100 # 1)]%Q.
Proof.
  rewrite (newDefaultLocation_items [weight_axis; width_axis]).
  - reflexivity.
  - apply (bool_decide_unpack _). by vm_compute.
Defined.

(** * More on the writer *)

(** The loop over a section stops at the first item that cannot be built. *)
Lemma foldM_append_state_Err {A : Type}
    (step : element * list A → A → result (element * list A))
    (g : A → result (element * A)) (t rt : string)
    (ra : list (string * string)) (rtx : option string) (pre : list element)
    (a : list (string * string)) (tx : option string) (l : list A)
    (e : exn) (cs : list element) (acc : list A) :
  (∀ st x, step st x = (r ← g x;
                        root ← findall0_append t r.1 st.1;
                        Ok (root, st.2 ++ [r.2]))) →
  Forall (λ x, tag x ≠ t) pre →
  mapM g l = Err e →
  foldM step (Element rt ra rtx (pre ++ [Element t a tx cs]), acc) l = Err e.
Proof.
  intros Hstep Hpre. revert cs acc.
  induction l as [|x rest IH]; intros cs acc; cbn [mapM]; [by intros [=]|].
  cbn [foldM]. rewrite Hstep.
  destruct (g x) as [r|e'] eqn:Hx; cbn [mbind result_bind fst snd];
    [|by intros [= ->]].
  rewrite findall0_append_last by done. cbn [mbind result_bind].
  destruct (mapM g rest) as [rs'|e'] eqn:Hrest; cbn [mbind result_bind];
    [by intros [=]|].
  intros [= ->]. by apply IH.
Qed.

Lemma write_sources_Err (axes : list axis) (sources : list source) (e : exn)
    (rt : string) (ra : list (string * string)) (rtx : option string)
    (pre : list element) :
  Forall (λ x, tag x ≠ "sources") pre →
  mapM (_addSource axes) sources = Err e →
  write_sources axes sources (Element rt ra rtx pre) = Err e.
Proof.
  intros Hpre Hrs. unfold write_sources. destruct sources as [|s0 sources].
  - done.
  - cbn [open_section append]. unfold new_element at 1.
    apply (foldM_append_state_Err _ (_addSource axes)); [|done|done].
    intros st s. unfold write_source.
    destruct (_addSource axes s) as [[el s']|]; done.
Qed.

Lemma mapM_addSource_Err (axes : list axis) (l : list source) :
  Exists (λ s, SourceDescriptor.location s = None) l →
  mapM (_addSource axes) l = Err AttributeError.
Proof.
  intros Hex. apply mapM_Err.
  - apply Forall_forall. intros s _ e'. unfold _addSource.
    destruct (SourceDescriptor.location s) as [loc|].
    + by destruct (_makeLocationElement_Some axes loc None) as [el ->].
    + cbn. congruence.
  - eapply Exists_impl; [exact Hex|]. intros s Hs.
    by rewrite (_addSource_None axes s Hs).
Qed.

(** X17. A source whose location is None makes [write] raise
    AttributeError: the axes and the rules are written, and the sources up
    to that one, and then [_makeLocationElement] fails on the missing
    location. *)
Theorem write_unlocated_source (self : document) :
  Exists (λ s, SourceDescriptor.location s = None)
         (DesignSpaceDocument.sources self) →
  write self = Err AttributeError.
Proof.
  intros Hex. destruct self as [srcs insts axes rules dflt dl].
  cbn [DesignSpaceDocument.sources] in Hex. unfold write.
  cbn [DesignSpaceDocument.axes DesignSpaceDocument.rules
       DesignSpaceDocument.sources DesignSpaceDocument.instances
       DesignSpaceDocument.default DesignSpaceDocument.defaultLoc
       set_attrib new_element app].
  unfold new_element. cbn [set_attrib app].
  rewrite write_axes_eq by constructor. cbn [mbind result_bind app].
  rewrite write_rules_eq by (destruct axes; repeat constructor; done).
  cbn [mbind result_bind].
  rewrite (write_sources_Err _ _ AttributeError);
    [done|destruct axes, rules; repeat constructor; done|].
  by apply mapM_addSource_Err.
Qed.

Lemma write_unlocated_source_witness :
  write unlocated_document = Err AttributeError.
Proof.
  apply (write_unlocated_source unlocated_document).
  apply Exists_cons_hd. reflexivity.
Defined.

(** The writer state left by [write], with the parts of the document that
    [write] does not touch. *)
Lemma write_document (self : document) :
  Forall (λ s, is_Some (SourceDescriptor.location s))
         (DesignSpaceDocument.sources self) →
  let axes := DesignSpaceDocument.axes self in
  ∃ w ses ies,
    write self = Ok w ∧
    root w = Element "designspace" [("format", "4.0")] None
               (sec "axes" axes (axisElement <$> axes)
                ++ sec "rules" (DesignSpaceDocument.rules self)
                       (omap emitted_rule (DesignSpaceDocument.rules self))
                ++ sec "sources" (DesignSpaceDocument.sources self) ses
                ++ sec "instances" (DesignSpaceDocument.instances self) ies) ∧
    mapM (_addSource axes) (DesignSpaceDocument.sources self)
      = Ok (zip ses (DesignSpaceDocument.sources (documentObject w))) ∧
    length ses = length (DesignSpaceDocument.sources self) ∧
    mapM (_addInstance axes) (DesignSpaceDocument.instances self)
      = Ok (zip ies (DesignSpaceDocument.instances (documentObject w))) ∧
    length ies = length (DesignSpaceDocument.instances self) ∧
    _axes w = axes ∧
    _rules w = DesignSpaceDocument.rules self ∧
    DesignSpaceDocument.axes (documentObject w) = axes ∧
    DesignSpaceDocument.rules (documentObject w) = DesignSpaceDocument.rules self ∧
    DesignSpaceDocument.default (documentObject w)
      = DesignSpaceDocument.default self ∧
    DesignSpaceDocument.defaultLoc (documentObject w)
      = DesignSpaceDocument.defaultLoc self.
Proof.
  intros Hsrc axes. subst axes. destruct self as [srcs insts axes rules dflt dl].
  cbn [DesignSpaceDocument.axes DesignSpaceDocument.rules
       DesignSpaceDocument.sources DesignSpaceDocument.instances
       DesignSpaceDocument.default DesignSpaceDocument.defaultLoc] in *.
  destruct (mapM_addSource axes srcs Hsrc) as (rs & Hrs & Hrs2).
  destruct (mapM_addInstance axes insts) as (ri & Hri & Hri2).
  unfold write.
  cbn [DesignSpaceDocument.axes DesignSpaceDocument.rules
       DesignSpaceDocument.sources DesignSpaceDocument.instances
       DesignSpaceDocument.default DesignSpaceDocument.defaultLoc
       set_attrib new_element app].
  unfold new_element. cbn [set_attrib app].
  rewrite write_axes_eq by constructor. cbn [mbind result_bind app].
  rewrite write_rules_eq by (destruct axes; repeat constructor; done).
  cbn [mbind result_bind].
  rewrite (write_sources_eq _ _ rs);
    [|destruct axes, rules; repeat constructor; done|done].
  cbn [mbind result_bind].
  rewrite (write_instances_eq _ _ ri);
    [|destruct axes, rules, srcs; repeat constructor; done|done].
  cbn [mbind result_bind].
  eexists _, rs.*1, ri.*1. split; [done|].
  cbn [root documentObject _axes _rules DesignSpaceDocument.sources
       DesignSpaceDocument.instances DesignSpaceDocument.axes
       DesignSpaceDocument.rules DesignSpaceDocument.default
       DesignSpaceDocument.defaultLoc].
  split; [by rewrite <-!app_assoc|].
  rewrite !zip_fst_snd, !length_fmap.
  pose proof (Forall2_length _ _ _ (mapM_Ok_inv _ _ _ Hrs)) as Hlen1.
  pose proof (Forall2_length _ _ _ (mapM_Ok_inv _ _ _ Hri)) as Hlen2.
  by repeat split.
Qed.

Lemma validated_idem (axes : list axis) (location : Location) :
  validated axes (validated axes location) = validated axes location.
Proof. apply validated_fixed, dom_validated. Qed.

(** X18. After [write] has completed, writing the document again completes
    too and changes no stored location any more: the sources come out as
    the first call left them, and so does the location of every instance. *)
Theorem write_twice (self : document) :
  Forall (λ s, is_Some (SourceDescriptor.location s))
         (DesignSpaceDocument.sources self) →
  ∃ w w',
    write self = Ok w ∧ write (documentObject w) = Ok w' ∧
    DesignSpaceDocument.sources (documentObject w')
      = DesignSpaceDocument.sources (documentObject w) ∧
    Forall2 (λ i i', InstanceDescriptor.location i' = InstanceDescriptor.location i)
            (DesignSpaceDocument.instances (documentObject w))
            (DesignSpaceDocument.instances (documentObject w')).
Proof.
  intros Hsrc.
  destruct (write_document self Hsrc)
    as (w & ses & ies & Hw & _ & _ & _ & _ & _ & _ & _ & Hax & _).
  destruct (write_Ok self Hsrc) as (w0 & _ & _ & Hw0 & _ & Hs & Hi).
  rewrite Hw in Hw0. injection Hw0 as <-.
  assert (Forall (λ s, is_Some (SourceDescriptor.location s))
                 (DesignSpaceDocument.sources (documentObject w))) as Hsrc'.
  { rewrite Hs. apply Forall_fmap. eapply Forall_impl; [exact Hsrc|].
    intros s [l Hl]. cbn. rewrite Hl. by eexists. }
  destruct (write_Ok (documentObject w) Hsrc') as (w' & _ & _ & Hw' & _ & Hs' & Hi').
  exists w, w'. split; [done|]. split; [done|]. rewrite Hax in Hs', Hi'. split.
  - rewrite Hs', Hs, <-list_fmap_compose. apply list_fmap_ext.
    intros _ s _. cbn. destruct (SourceDescriptor.location s) as [l|]; cbn.
    + by rewrite validated_idem.
    + done.
  - clear Hs Hs' Hsrc'. revert Hi'.
    generalize (DesignSpaceDocument.instances (documentObject w')).
    induction Hi as [|i i' l l' Hii' _ IH]; intros l2 Hi'.
    + apply Forall2_nil_inv_l in Hi' as ->. constructor.
    + apply Forall2_cons_inv_l in Hi' as (i2 & l2' & Hi2 & Hrest & ->).
      constructor; [|by apply IH]. rewrite Hi2, Hii'.
      destruct (InstanceDescriptor.location i) as [loc|]; cbn; [|done].
      by rewrite validated_idem.
Qed.

Lemma write_twice_witness :
  ∃ w w',
    write partial_document = Ok w ∧ write (documentObject w) = Ok w' ∧
    DesignSpaceDocument.sources (documentObject w')
      = DesignSpaceDocument.sources (documentObject w).
Proof.
  destruct (write_twice partial_document) as (w & w' & Hw & Hw' & Hs & _).
  - repeat constructor. by eexists.
  - by exists w, w'.
Defined.

(** * The written location element *)

Lemma newDefaultLocation_keys_fold (axes : list axis) (acc : odict) :
  NoDup (od_keys acc ++ (AxisDescriptor.name <$> axes)) →
  od_keys (foldl (λ loc a, odict_set (AxisDescriptor.name a)
                             (Num (AxisDescriptor.default a)) loc) acc axes)
  = od_keys acc ++ (AxisDescriptor.name <$> axes).
Proof.
  revert acc. induction axes as [|a rest IH]; intros acc Hnd.
  - cbn. by rewrite app_nil_r.
  - cbn [foldl fmap list_fmap].
    change (list_fmap _ _ ?f rest) with (f <$> rest) in *.
    assert (AxisDescriptor.name a ∉ od_keys acc) as Hnew.
    { apply NoDup_app in Hnd as (_ & Hd & _). intros Hin.
      apply (Hd _ Hin). by left. }
    assert (od_keys (odict_set (AxisDescriptor.name a)
                       (Num (AxisDescriptor.default a)) acc)
            = od_keys acc ++ [AxisDescriptor.name a]) as Hk.
    { unfold odict_set. cbn [od_keys]. by rewrite decide_False. }
    rewrite IH; rewrite Hk, <-app_assoc; done.
Qed.

(** Validation leaves the keys of the default location, order included. *)
Lemma validatedLocation_keys (axes : list axis) (location : Location) :
  NoDup (AxisDescriptor.name <$> axes) →
  od_keys (validatedLocation axes location) = AxisDescriptor.name <$> axes.
Proof.
  intros Hnd. unfold validatedLocation.
  assert (od_keys (newDefaultLocation axes) = AxisDescriptor.name <$> axes) as Hk0.
  { unfold newDefaultLocation. by rewrite newDefaultLocation_keys_fold. }
  assert (∀ k, is_Some (od_map (newDefaultLocation axes) !! k)
               → k ∈ od_keys (newDefaultLocation axes)) as Hdom0.
  { intros k [v Hv]. rewrite Hk0.
    change (od_map (newDefaultLocation axes)) with (allDefaults axes) in Hv.
    rewrite allDefaults_lookup in Hv.
    destruct (last_axis k axes) as [a|] eqn:Ha; [|done].
    apply last_axis_Some in Ha as [<- Ha]. by apply list_elem_of_fmap_2. }
  rewrite <-Hk0.
  apply (map_fold_weak_ind
           (λ (acc : odict) (_ : Location),
              od_keys acc = od_keys (newDefaultLocation axes)
              ∧ ∀ k, is_Some (od_map acc !! k) → k ∈ od_keys acc)).
  - done.
  - intros i x m r _ [Hk Hdom]. unfold validate_item.
    case_decide as Hs; [|done]. unfold odict_set. cbn [od_keys od_map].
    rewrite decide_True by (by apply Hdom). split; [done|].
    intros k. destruct (decide (i = k)) as [<-|Hne].
    + intros _. by apply Hdom.
    + rewrite lookup_insert_ne by done. apply Hdom.
Qed.

Lemma validatedLocation_items (axes : list axis) (location : Location) :
  NoDup (AxisDescriptor.name <$> axes) →
  odict_items (validatedLocation axes location) = dimension location <$> axes.
Proof.
  intros Hnd. unfold odict_items. rewrite validatedLocation_keys by done.
  change (od_map (validatedLocation axes location))
    with (validated axes location).
  assert (∀ a, a ∈ axes →
            validated axes location !! AxisDescriptor.name a
            = Some (dimension location a).2) as Hl.
  { intros a Ha. rewrite validated_lookup, allDefaults_lookup.
    by rewrite (last_axis_NoDup axes a Hnd Ha). }
  clear Hnd. revert Hl. generalize (validated axes location). intros m Hl.
  induction axes as [|a rest IH]; [done|].
  cbn [fmap list_fmap omap list_omap].
  rewrite Hl by (by left). cbn. f_equal. apply IH.
  intros b Hb. apply Hl. by right.
Qed.

Lemma children_foldl_append {A : Type} (f : A → element) (l : list A)
    (e : element) :
  foldl (λ e x, append (f x) e) e l
  = Element (tag e) (attrib e) (text e) (children e ++ (f <$> l)).
Proof.
  revert e. induction l as [|x rest IH]; intros [t a tx c].
  - cbn. by rewrite app_nil_r.
  - cbn [foldl append]. rewrite IH. cbn. by rewrite <-app_assoc.
Qed.

(** X19. When axis names are unique, the location element that the writer
    builds has exactly one dimension element per axis, in axis order, with
    the value that the location gives for the axis name (both components
    for a tuple) and the axis default when the location has no such key;
    keys of the location that name no axis are not written. The location
    handed back has the same entries. *)
Theorem _makeLocationElement_dimensions (axes : list axis)
    (location : Location) (name : option string) :
  NoDup (getAxisOrder axes) →
  _makeLocationElement axes (Some location) name
  = Ok (Element "location"
          (match name with Some n => [("name", n)] | None => [] end) None
          (dimensionElement <$> (dimension location <$> axes)),
        list_to_map (dimension location <$> axes)).
Proof.
  rewrite getAxisOrder_eq. intros Hnd. unfold _makeLocationElement.
  rewrite children_foldl_append, validatedLocation_items by done.
  f_equal. f_equal.
  - by destruct name.
  - change (od_map (validatedLocation axes location))
      with (validated axes location).
    apply map_eq. intros k. rewrite validated_lookup, allDefaults_lookup.
    destruct (last_axis k axes) as [a|] eqn:Ha; cbn.
    + apply last_axis_Some in Ha as [<- Ha]. symmetry.
      apply elem_of_list_to_map.
      * rewrite <-list_fmap_compose. exact Hnd.
      * by apply (list_elem_of_fmap_2 (dimension location)).
    + symmetry. apply not_elem_of_list_to_map.
      rewrite <-list_fmap_compose. by apply last_axis_None.
Qed.

Lemma _makeLocationElement_dimensions_witness :
  ∃ validatedLocation,
    _makeLocationElement [weight_axis; width_axis]
      (Some {[ "weight" := Pair (int 700) (frac 1 2); "slant" := Num (int 1) ]})
      None
    = Ok (Element "location" [] None
            [Element "dimension"
               [("name", "weight"); ("xvalue", "700"); ("yvalue", "0.500000")]
               None [];
             Element "dimension" [("name", "width"); ("xvalue", "100")] None []],
          validatedLocation).
Proof.
  rewrite (_makeLocationElement_dimensions [weight_axis; width_axis]).
  - eexists. by vm_compute.
  - apply (bool_decide_unpack _). by vm_compute.
Defined.

(** * The written tree *)

Lemma tag_set_attrib (k v : string) (e : element) : tag (set_attrib k v e) = tag e.
Proof. by destruct e. Qed.

Lemma tag_set_attrib_opt (k : string) (v : option string) (e : element) :
  tag (set_attrib_opt k v e) = tag e.
Proof. destruct v; [apply tag_set_attrib|done]. Qed.

Lemma tag_append (c e : element) : tag (append c e) = tag e.
Proof. by destruct e. Qed.

Lemma tag_foldl_append {A : Type} (f : A → element) (l : list A) (e : element) :
  tag (foldl (λ e x, append (f x) e) e l) = tag e.
Proof. by rewrite children_foldl_append. Qed.

Ltac tag_simpl :=
  repeat first
    [ rewrite tag_append | rewrite tag_set_attrib | rewrite tag_set_attrib_opt
    | rewrite tag_foldl_append
    | match goal with |- context [if ?b then _ else _] => destruct b end
    | match goal with |- context [match ?o with Some _ => _ | None => _ end] =>
        destruct o
      end ].

Lemma tag__addSource (axes : list axis) (s s' : source) (e : element) :
  _addSource axes s = Ok (e, s') → tag e = "source".
Proof.
  unfold _addSource.
  destruct (_makeLocationElement axes (SourceDescriptor.location s) None)
    as [[le v]|]; cbn [mbind result_bind]; [|done].
  intros [= <- _]. rewrite tag_append.
  rewrite (tag_foldl_append
             (λ name, set_attrib "mute" "1"
                        (set_attrib "name" name (new_element "glyph")))).
  by tag_simpl.
Qed.

Lemma tag__addInstance (axes : list axis) (i i' : instance) (e : element) :
  _addInstance axes i = Ok (e, i') → tag e = "instance".
Proof.
  unfold _addInstance.
  destruct i as [fn n [l|] fam sty ps smf sms gs k inf];
    cbn [InstanceDescriptor.location InstanceDescriptor.name
         InstanceDescriptor.familyName InstanceDescriptor.styleName].
  - destruct (_makeLocationElement_Some axes l None) as [le ->].
    cbn [mbind result_bind InstanceDescriptor.set_location
         InstanceDescriptor.glyphs InstanceDescriptor.filename
         InstanceDescriptor.postScriptFontName
         InstanceDescriptor.styleMapFamilyName
         InstanceDescriptor.styleMapStyleName].
    destruct gs as [|g gs].
    + cbn [mbind result_bind InstanceDescriptor.kerning InstanceDescriptor.info].
      intros [= <- _]. by tag_simpl.
    + destruct (foldM _ _ _) as [[ge gs']|]; cbn [mbind result_bind]; [|done].
      cbn [InstanceDescriptor.set_glyphs InstanceDescriptor.kerning
           InstanceDescriptor.info].
      intros [= <- _]. by tag_simpl.
  - cbn [mbind result_bind InstanceDescriptor.set_location
         InstanceDescriptor.glyphs InstanceDescriptor.filename
         InstanceDescriptor.postScriptFontName
         InstanceDescriptor.styleMapFamilyName
         InstanceDescriptor.styleMapStyleName].
    destruct gs as [|g gs].
    + cbn [mbind result_bind InstanceDescriptor.kerning InstanceDescriptor.info].
      intros [= <- _]. by tag_simpl.
    + destruct (foldM _ _ _) as [[ge gs']|]; cbn [mbind result_bind]; [|done].
      cbn [InstanceDescriptor.set_glyphs InstanceDescriptor.kerning
           InstanceDescriptor.info].
      intros [= <- _]. by tag_simpl.
Qed.

Lemma mapM_tags {A : Type} (g : A → result (element * A)) (t : string)
    (l : list A) (rs : list (element * A)) :
  (∀ x e x', g x = Ok (e, x') → tag e = t) →
  mapM g l = Ok rs → Forall (λ e, tag e = t) rs.*1.
Proof.
  intros Hg H%mapM_Ok_inv. induction H as [|x [e x'] l rs Hx _ IH]; [done|].
  cbn. constructor; [by eapply Hg|done].
Qed.

Lemma emitted_rule_written (r : rule) :
  emitted_rule r = if decide (rule_written r) then Some (ruleElement r) else None.
Proof.
  unfold emitted_rule, len. rewrite ruleElement_children.
  destruct (decide (rule_written r)) as [Hw|Hw].
  - rewrite decide_False; [done|]. intros Hlen. apply nil_length_inv in Hlen.
    apply app_eq_nil in Hlen as [Hc Hs]. destruct Hw as [Hw|Hw].
    + apply fmap_nil_inv in Hs. done.
    + apply Exists_exists in Hw as (cs & Hcs & Hex).
      assert (is_Some (conditionsetElement cs)) as [e He].
      { unfold conditionsetElement, bounded.
        apply Exists_exists in Hex as (c & Hc' & Hb).
        assert (c ∈ filter (λ cond, has_bound cond = true) cs) as Hin
          by (by apply list_elem_of_filter).
        destruct (filter _ cs); [by apply elem_of_nil in Hin|by eexists]. }
      assert (e ∈ omap conditionsetElement (RuleDescriptor.conditionSets r)) as Hin
        by (apply list_elem_of_omap; by exists cs).
      rewrite Hc in Hin. by apply elem_of_nil in Hin.
  - rewrite decide_True; [done|].
    assert (RuleDescriptor.subs r = []) as ->.
    { destruct (RuleDescriptor.subs r) eqn:E; [done|]. destruct Hw. left.
      by rewrite E. }
    rewrite app_nil_r.
    assert (omap conditionsetElement (RuleDescriptor.conditionSets r) = []) as ->;
      [|done].
    assert (¬ Exists (Exists (λ cond, has_bound cond = true))
              (RuleDescriptor.conditionSets r)) as Hn by (intros ?; apply Hw; by right).
    clear Hw. revert Hn.
    induction (RuleDescriptor.conditionSets r) as [|cs rest IH]; intros Hn;
      [done|].
    cbn [omap list_omap].
    assert (conditionsetElement cs = None) as ->.
    { unfold conditionsetElement, bounded.
      destruct (filter _ cs) as [|c kept] eqn:E; [done|].
      assert (c ∈ filter (λ cond, has_bound cond = true) cs) as Hin
        by (rewrite E; by left).
      apply list_elem_of_filter in Hin as [Hb Hc].
      destruct Hn. left. apply Exists_exists. by exists c. }
    apply IH. intros H. apply Hn. by right.
Qed.

Lemma omap_emitted_rule (rules : list rule) :
  omap emitted_rule rules = ruleElement <$> filter rule_written rules.
Proof.
  induction rules as [|r rest IH]; [done|].
  cbn [omap list_omap]. rewrite emitted_rule_written, filter_cons.
  destruct (decide (rule_written r)); cbn; by rewrite IH.
Qed.

(** X20. On a document whose sources all have a location, the tree that
    [write] builds is a [designspace] element of format 4.0 whose children
    are, in this order, the sections [axes], [rules], [sources] and
    [instances], each present exactly when the document has such items.
    The axes section holds one axis element per axis, in order; the rules
    section holds, in order, the elements of the rules that have a
    substitution or a condition with a bound, the other rules being
    dropped; the sources and instances sections hold one [source] (resp.
    [instance]) element per descriptor. *)
Theorem write_tree (self : document) :
  Forall (λ s, is_Some (SourceDescriptor.location s))
         (DesignSpaceDocument.sources self) →
  ∃ w ses ies,
    write self = Ok w ∧
    root w = Element "designspace" [("format", "4.0")] None
               (sec "axes" (DesignSpaceDocument.axes self)
                    (axisElement <$> DesignSpaceDocument.axes self)
                ++ sec "rules" (DesignSpaceDocument.rules self)
                       (ruleElement
                          <$> filter rule_written (DesignSpaceDocument.rules self))
                ++ sec "sources" (DesignSpaceDocument.sources self) ses
                ++ sec "instances" (DesignSpaceDocument.instances self) ies) ∧
    length ses = length (DesignSpaceDocument.sources self) ∧
    Forall (λ e, tag e = "source") ses ∧
    length ies = length (DesignSpaceDocument.instances self) ∧
    Forall (λ e, tag e = "instance") ies.
Proof.
  intros Hsrc.
  destruct (write_document self Hsrc)
    as (w & ses & ies & Hw & Hroot & Hss & Hls & His & Hli & _).
  exists w, ses, ies. split; [done|]. rewrite <-omap_emitted_rule.
  split; [done|]. split; [done|]. split; [|split; [done|]].
  - pose proof (Forall2_length _ _ _ (mapM_Ok_inv _ _ _ Hss)) as Hlen.
    rewrite length_zip_with in Hlen.
    apply (mapM_tags _ "source") in Hss;
      [|intros x e x'; apply tag__addSource].
    rewrite fst_zip in Hss; [done|lia].
  - pose proof (Forall2_length _ _ _ (mapM_Ok_inv _ _ _ His)) as Hlen.
    rewrite length_zip_with in Hlen.
    apply (mapM_tags _ "instance") in His;
      [|intros x e x'; apply tag__addInstance].
    rewrite fst_zip in His; [done|lia].
Qed.

Lemma write_tree_witness :
  ∃ w, write ruled_document = Ok w ∧
    (λ e, (tag e, length (children e))) <$> children (root w)
    = [("axes", 2%nat); ("rules", 1%nat); ("sources", 1%nat); ("instances", 1%nat)].
Proof.
  destruct (write_tree ruled_document) as (w & ses & ies & Hw & _).
  - repeat constructor. by eexists.
  - exists w. split; [exact Hw|].
    revert Hw. vm_compute. intros [= <-]. reflexivity.
Defined.

(** * The reader *)

Lemma rounded_int_z (z : Z) : rounded (int z) = int z.
Proof.
  unfold rounded, millionths.
  assert (round_half_even (Qabs (int z) * inject_Z 1000000)
          = (Z.abs z * 1000000)%Z) as ->.
  { unfold round_half_even. cbn [int Qc_of_Z Q2Qc this]. cbn.
    rewrite Z.div_1_r, Z.mod_1_r. cbn. done. }
  unfold int. rewrite Z2Qc_inj_mul.
  assert (Qc_of_Z 1000000 ≠ 0) as Hm by (by vm_compute).
  case_decide as Hneg.
  - apply (proj2 (Z2Qc_inj_lt z 0)) in Hneg.
    rewrite Z.abs_neq by lia. rewrite Z2Qc_inj_opp. by field.
  - assert (¬ (z < 0)%Z) as Hz
      by (intros ?; apply Hneg; by apply (proj1 (Z2Qc_inj_lt z 0))).
    rewrite Z.abs_eq by lia. by field.
Qed.

Lemma rounded_int (num : Qc) : int (py_int num) = num → rounded num = num.
Proof. intros <-. apply rounded_int_z. Qed.

Lemma py_float_intOrFloat (num : Qc) :
  py_float (intOrFloat num) = Some (rounded num).
Proof.
  unfold intOrFloat. case_decide as Hint.
  - rewrite py_float_format_d, Hint. by rewrite rounded_int.
  - apply py_float_format_f.
Qed.

Lemma py_float_reads_back : reads_back py_float.
Proof. intros num. apply py_float_intOrFloat. Qed.

Lemma forM_fmap {A B C : Type} (f : B → reading C) (g : A → B) (h : A → C)
    (l : list A) :
  (∀ x, x ∈ l → f (g x) = Done (h x)) → forM f (g <$> l) = Done (h <$> l).
Proof.
  induction l as [|x rest IH]; intros Hf; [done|].
  cbn [fmap list_fmap forM]. rewrite Hf by (by left). cbn.
  change (list_fmap _ _ ?f rest) with (f <$> rest).
  rewrite IH; [done|]. intros y Hy. apply Hf. by right.
Qed.

(** The sections of a written tree, as [findall] sees them. *)
Lemma findall2_sections {A R S I : Type} (axes : list A) (rules : list R)
    (srcs : list S) (insts : list I) (a : list (string * string))
    (c1 c2 c3 c4 : list element) :
  let root := Element "designspace" a None
                (sec "axes" axes c1 ++ sec "rules" rules c2
                 ++ sec "sources" srcs c3 ++ sec "instances" insts c4) in
  findall2 "axes" "axis" root
    = match axes with [] => [] | _ :: _ => filter (λ c, tag c = "axis") c1 end
  ∧ findall2 "rules" "rule" root
    = match rules with [] => [] | _ :: _ => filter (λ c, tag c = "rule") c2 end
  ∧ findall2 "sources" "source" root
    = match srcs with [] => [] | _ :: _ => filter (λ c, tag c = "source") c3 end.
Proof.
  unfold findall2, findall.
  destruct axes, rules, srcs, insts; cbn; rewrite ?app_nil_r; try done.
  all: repeat (case_decide; try done); cbn; by rewrite ?app_nil_r.
Qed.

Lemma axisDefaults_fold (axes : list axis) (d : gmap string Qc) (k : string) :
  foldl (λ d a, <[AxisDescriptor.name a := AxisDescriptor.default a]> d) d axes !! k
  = match last_axis k axes with
    | Some a => Some (AxisDescriptor.default a)
    | None => d !! k
    end.
Proof.
  revert d. induction axes as [|a rest IH]; intros d; [done|].
  cbn [foldl last_axis]. rewrite IH.
  destruct (last_axis k rest); [done|]. case_decide as Hk.
  - subst k. by rewrite lookup_insert_eq.
  - by rewrite lookup_insert_ne.
Qed.

Lemma axisDefaults_allDefaults (axes : list axis) :
  Num <$> foldl (λ d a, <[AxisDescriptor.name a := AxisDescriptor.default a]> d)
                (∅ : gmap string Qc) axes
  = allDefaults axes.
Proof.
  apply map_eq. intros k.
  rewrite lookup_fmap, axisDefaults_fold, allDefaults_lookup, lookup_empty.
  by destruct (last_axis k axes).
Qed.

Lemma set_attrib_opt_Element (k : string) (v : option string) (t : string)
    (a : list (string * string)) (tx : option string) (c : list element) :
  set_attrib_opt k v (Element t a tx c) = Element t (a ++ opt_attrib k v) tx c.
Proof. destruct v; cbn; by rewrite ?app_nil_r. Qed.

Lemma written_name_Element (n : option string) (t : string)
    (a : list (string * string)) (tx : option string) (c : list element) :
  match n with
  | Some n => if String.prefix "temp_master" n then Element t a tx c
              else set_attrib "name" n (Element t a tx c)
  | None => Element t a tx c
  end = Element t (a ++ opt_attrib "name" (written_name n)) tx c.
Proof.
  destruct n as [n|]; cbn; [|by rewrite app_nil_r].
  destruct (String.prefix "temp_master" n); cbn; by rewrite ?app_nil_r.
Qed.

Lemma _addSource_eq (axes : list axis) (s : source) (l : Location) :
  SourceDescriptor.location s = Some l →
  ∃ le, _makeLocationElement axes (Some l) None = Ok (le, validated axes l)
        ∧ _addSource axes s
          = Ok (Element "source" (source_attrib s) None
                  (source_children s ++ [le]),
                SourceDescriptor.set_location s (Some (validated axes l))).
Proof.
  intros Hl. destruct (_makeLocationElement_Some axes l None) as [le Hle].
  exists le. split; [done|]. unfold _addSource. rewrite Hl, Hle.
  unfold source_attrib, source_children, new_element.
  rewrite set_attrib_opt_Element, written_name_Element,
    !set_attrib_opt_Element.
  cbn [mbind result_bind].
  rewrite (children_foldl_append
             (λ name, set_attrib "mute" "1"
                        (set_attrib "name" name (Element "glyph" [] None [])))).
  rewrite <-!app_assoc. cbn [app].
  destruct (SourceDescriptor.copyLib s), (SourceDescriptor.copyInfo s),
    (SourceDescriptor.copyGroups s), (SourceDescriptor.copyFeatures s),
    (SourceDescriptor.muteKerning s), (SourceDescriptor.muteInfo s);
    reflexivity.
Qed.

Lemma forM_imap_from {A B C : Type} (R : A → B → Prop)
    (f : nat * B → reading C) (h : nat → A → C) (l : list A) (es : list B)
    (k : nat) :
  Forall2 R l es →
  (∀ i x e, l !! i = Some x → R x e → f ((k + i)%nat, e) = Done (h (k + i)%nat x)) →
  forM f (imap (λ i e, ((k + i)%nat, e)) es) = Done (imap (λ i, h (k + i)%nat) l).
Proof.
  intros HR. revert k. induction HR as [|x e l es Hxe _ IH]; intros k Hf;
    [done|].
  cbn [imap forM]. rewrite (Hf 0%nat x e) by done. cbn [mbind reading_bind].
  rewrite (imap_ext ((λ i e0, ((k + i)%nat, e0)) ∘ S) (λ i e0, ((S k + i)%nat, e0)) es)
    by (intros i y _; cbn; f_equal; lia).
  rewrite (imap_ext ((λ i, h (k + i)%nat) ∘ S) (λ i, h (S k + i)%nat) l)
    by (intros i y _; cbn; f_equal; lia).
  rewrite IH; [done|].
  intros i x' e' Hi HR'. replace (S k + i)%nat with (k + S i)%nat by lia.
  by apply Hf.
Qed.

Lemma forM_imap_Forall2 {A B C : Type} (R : A → B → Prop)
    (f : nat * B → reading C) (h : nat → A → C) (l : list A) (es : list B) :
  Forall2 R l es →
  (∀ i x e, l !! i = Some x → R x e → f (i, e) = Done (h i x)) →
  forM f (imap (λ i e, (i, e)) es) = Done (imap h l).
Proof. intros HR Hf. by apply (forM_imap_from R f h l es 0%nat). Qed.

Lemma mapM_addSource_elements (axes : list axis) (l : list source) :
  Forall (λ s, is_Some (SourceDescriptor.location s)) l →
  ∃ rs, mapM (_addSource axes) l = Ok rs ∧
    Forall2 (λ s e, ∃ loc le v,
               SourceDescriptor.location s = Some loc
               ∧ _makeLocationElement axes (Some loc) None = Ok (le, v)
               ∧ e = Element "source" (source_attrib s) None
                       (source_children s ++ [le]))
            l rs.*1.
Proof.
  induction 1 as [|s rest [loc Hs] _ (rs & Hrs & Hall)]; [by exists []|].
  destruct (_addSource_eq axes s loc Hs) as (le & Hle & He).
  eexists (_ :: rs). cbn [mapM]. rewrite He, Hrs. split; [done|].
  cbn [fmap list_fmap fst]. constructor; [|exact Hall].
  by exists loc, le, (validated axes loc).
Qed.

(** The source elements of a written tree. *)
Lemma write_source_elements (self : document) :
  Forall (λ s, is_Some (SourceDescriptor.location s))
         (DesignSpaceDocument.sources self) →
  let axes := DesignSpaceDocument.axes self in
  ∃ w ses ies,
    write self = Ok w ∧
    root w = Element "designspace" [("format", "4.0")] None
               (sec "axes" axes (axisElement <$> axes)
                ++ sec "rules" (DesignSpaceDocument.rules self)
                       (omap emitted_rule (DesignSpaceDocument.rules self))
                ++ sec "sources" (DesignSpaceDocument.sources self) ses
                ++ sec "instances" (DesignSpaceDocument.instances self) ies) ∧
    Forall2 (λ s e, ∃ loc le v,
               SourceDescriptor.location s = Some loc
               ∧ _makeLocationElement axes (Some loc) None = Ok (le, v)
               ∧ e = Element "source" (source_attrib s) None
                       (source_children s ++ [le]))
            (DesignSpaceDocument.sources self) ses.
Proof.
  intros Hsrc axes.
  destruct (write_document self Hsrc)
    as (w & ses & ies & Hw & Hroot & Hss & Hls & _).
  exists w, ses, ies. split; [done|]. split; [done|].
  destruct (mapM_addSource_elements axes _ Hsrc) as (rs & Hrs & Hall).
  fold axes in Hss. rewrite Hss in Hrs. injection Hrs as <-.
  rewrite fst_zip in Hall; [done|].
  apply Forall2_length in Hall. rewrite length_fmap, length_zip_with in Hall.
  lia.
Qed.

Section Reading.
Variable float : string → option Qc.
Hypothesis Hfloat : reads_back float.

Lemma get_conditionElement (c : condition) :
  get "name" (conditionElement c) = Some (Condition.name c)
  ∧ get "minimum" (conditionElement c) = intOrFloat <$> Condition.minimum c
  ∧ get "maximum" (conditionElement c) = intOrFloat <$> Condition.maximum c.
Proof. destruct c as [n [mn|] [mx|]]; by cbn. Qed.

Lemma readConditionElement_written (c : condition) :
  BaseDocReader.readConditionElement float (conditionElement c)
  = Done (reread_condition c).
Proof.
  unfold BaseDocReader.readConditionElement, BaseDocReader.float_opt.
  destruct (get_conditionElement c) as (-> & -> & ->).
  unfold reread_condition.
  destruct (Condition.minimum c), (Condition.maximum c); cbn;
    rewrite ?Hfloat; cbn; rewrite ?Hfloat; done.
Qed.

Lemma findall_fmap_same {A : Type} (f : A → element) (t rt : string)
    (a : list (string * string)) (tx : option string) (l : list A) :
  (∀ x, tag (f x) = t) → findall t (Element rt a tx (f <$> l)) = f <$> l.
Proof.
  intros Hf. unfold findall. cbn [children].
  induction l as [|x rest IH]; [done|].
  cbn [fmap list_fmap]. rewrite filter_cons, decide_True by apply Hf.
  f_equal. exact IH.
Qed.

Lemma filter_tag_none (t : string) (l : list element) :
  Forall (λ e, tag e ≠ t) l → filter (λ c, tag c = t) l = [].
Proof.
  induction 1 as [|x rest Hx _ IH]; [done|].
  by rewrite filter_cons, decide_False.
Qed.

Lemma filter_tag_all (t : string) (l : list element) :
  Forall (λ e, tag e = t) l → filter (λ c, tag c = t) l = l.
Proof.
  induction 1 as [|x rest Hx _ IH]; [done|].
  rewrite filter_cons, decide_True by done. by f_equal.
Qed.

Lemma ruleElement_eq (r : rule) :
  ruleElement r
  = Element "rule"
      (match RuleDescriptor.name r with Some n => [("name", n)] | None => [] end)
      None
      (omap conditionsetElement (RuleDescriptor.conditionSets r)
       ++ (subElement <$> RuleDescriptor.subs r)).
Proof.
  unfold ruleElement.
  destruct (RuleDescriptor.name r); cbn [set_attrib_opt set_attrib new_element];
    unfold new_element;
    by rewrite _addRule_conditionset_fold, _addRule_sub_fold.
Qed.

Lemma tag_conditionsetElement (l : list (list condition)) :
  Forall (λ e, tag e = "conditionset") (omap conditionsetElement l).
Proof.
  apply Forall_forall. intros e (cs & _ & He)%list_elem_of_omap.
  by apply conditionsetElement_Some in He as [-> _].
Qed.

Lemma omap_conditionsetElement (l : list (list condition)) :
  omap conditionsetElement l
  = (λ cs, Element "conditionset" [] None (conditionElement <$> bounded cs))
      <$> filter (λ cs, bounded cs ≠ []) l.
Proof.
  induction l as [|cs rest IH]; [done|].
  cbn [omap list_omap]. rewrite filter_cons. unfold conditionsetElement at 1.
  destruct (bounded cs) as [|c kept] eqn:E.
  - rewrite decide_False by (intros H; by apply H). exact IH.
  - rewrite decide_True by done. cbn [fmap list_fmap]. rewrite E.
    f_equal. exact IH.
Qed.

Lemma readRule_written (r : rule) :
  BaseDocReader.readRule float (ruleElement r) = Done (reread_rule r).
Proof.
  unfold BaseDocReader.readRule, BaseDocReader._readConditionElements.
  rewrite ruleElement_eq.
  assert (findall "condition"
            (Element "rule"
               (match RuleDescriptor.name r with
                | Some n => [("name", n)] | None => [] end) None
               (omap conditionsetElement (RuleDescriptor.conditionSets r)
                ++ (subElement <$> RuleDescriptor.subs r))) = []) as ->.
  { unfold findall. cbn [children]. apply filter_tag_none, Forall_app. split.
    - eapply Forall_impl; [apply tag_conditionsetElement|].
      intros e ->. done.
    - apply Forall_fmap, Forall_forall. intros sub _. done. }
  cbn [forM mbind reading_bind app].
  assert (findall "conditionset"
            (Element "rule"
               (match RuleDescriptor.name r with
                | Some n => [("name", n)] | None => [] end) None
               (omap conditionsetElement (RuleDescriptor.conditionSets r)
                ++ (subElement <$> RuleDescriptor.subs r)))
          = omap conditionsetElement (RuleDescriptor.conditionSets r)) as ->.
  { unfold findall. cbn [children]. rewrite filter_app.
    rewrite (filter_tag_all _ _ (tag_conditionsetElement _)).
    rewrite filter_tag_none; [by rewrite app_nil_r|].
    apply Forall_fmap, Forall_forall. intros sub _. done. }
  assert (findall "sub"
            (Element "rule"
               (match RuleDescriptor.name r with
                | Some n => [("name", n)] | None => [] end) None
               (omap conditionsetElement (RuleDescriptor.conditionSets r)
                ++ (subElement <$> RuleDescriptor.subs r)))
          = subElement <$> RuleDescriptor.subs r) as ->.
  { unfold findall. cbn [children]. rewrite filter_app.
    rewrite filter_tag_none.
    - cbn [app]. apply filter_tag_all, Forall_fmap, Forall_forall.
      intros sub _. done.
    - eapply Forall_impl; [apply tag_conditionsetElement|].
      intros e ->. done. }
  rewrite omap_conditionsetElement.
  rewrite (forM_fmap _ _ (λ cs, reread_condition <$> bounded cs)).
  2:{ intros cs _.
      rewrite findall_fmap_same by (intros c'; by destruct c' as [? [?|] [?|]]).
      apply forM_fmap. intros c _. apply readConditionElement_written. }
  cbn [mbind reading_bind].
  rewrite (forM_fmap _ _ id).
  2:{ intros [a b] _. by cbn. }
  cbn [mbind reading_bind]. rewrite list_fmap_id. unfold reread_rule.
  f_equal. f_equal. by destruct (RuleDescriptor.name r).
Qed.

Lemma axisElement_eq (a : axis) :
  axisElement a
  = Element "axis"
      ([("tag", AxisDescriptor.tag a); ("name", AxisDescriptor.name a);
        ("minimum", intOrFloat (AxisDescriptor.minimum a));
        ("maximum", intOrFloat (AxisDescriptor.maximum a));
        ("default", intOrFloat (AxisDescriptor.default a))]
       ++ (if AxisDescriptor.hidden a then [("hidden", "1")] else []))
      None (mapElement <$> AxisDescriptor.map a).
Proof.
  unfold axisElement. rewrite children_foldl_append.
  by destruct (AxisDescriptor.hidden a).
Qed.

Lemma readAxis_written (a : axis) :
  BaseDocReader.readAxis float (axisElement a) = Done (reread_axis a).
Proof.
  rewrite axisElement_eq. unfold BaseDocReader.readAxis.
  assert (∀ h : list (string * string),
            get "name" (Element "axis"
              ([("tag", AxisDescriptor.tag a); ("name", AxisDescriptor.name a);
                ("minimum", intOrFloat (AxisDescriptor.minimum a));
                ("maximum", intOrFloat (AxisDescriptor.maximum a));
                ("default", intOrFloat (AxisDescriptor.default a))] ++ h)
              None (mapElement <$> AxisDescriptor.map a))
            = Some (AxisDescriptor.name a)) as -> by done.
  assert (∀ h : list (string * string),
            get "tag" (Element "axis"
              ([("tag", AxisDescriptor.tag a); ("name", AxisDescriptor.name a);
                ("minimum", intOrFloat (AxisDescriptor.minimum a));
                ("maximum", intOrFloat (AxisDescriptor.maximum a));
                ("default", intOrFloat (AxisDescriptor.default a))] ++ h)
              None (mapElement <$> AxisDescriptor.map a))
            = Some (AxisDescriptor.tag a)) as -> by done.
  unfold BaseDocReader.float_get.
  assert (∀ h : list (string * string),
            get "minimum" (Element "axis"
              ([("tag", AxisDescriptor.tag a); ("name", AxisDescriptor.name a);
                ("minimum", intOrFloat (AxisDescriptor.minimum a));
                ("maximum", intOrFloat (AxisDescriptor.maximum a));
                ("default", intOrFloat (AxisDescriptor.default a))] ++ h)
              None (mapElement <$> AxisDescriptor.map a))
            = Some (intOrFloat (AxisDescriptor.minimum a))) as -> by done.
  assert (∀ h : list (string * string),
            get "maximum" (Element "axis"
              ([("tag", AxisDescriptor.tag a); ("name", AxisDescriptor.name a);
                ("minimum", intOrFloat (AxisDescriptor.minimum a));
                ("maximum", intOrFloat (AxisDescriptor.maximum a));
                ("default", intOrFloat (AxisDescriptor.default a))] ++ h)
              None (mapElement <$> AxisDescriptor.map a))
            = Some (intOrFloat (AxisDescriptor.maximum a))) as -> by done.
  assert (∀ h : list (string * string),
            get "default" (Element "axis"
              ([("tag", AxisDescriptor.tag a); ("name", AxisDescriptor.name a);
                ("minimum", intOrFloat (AxisDescriptor.minimum a));
                ("maximum", intOrFloat (AxisDescriptor.maximum a));
                ("default", intOrFloat (AxisDescriptor.default a))] ++ h)
              None (mapElement <$> AxisDescriptor.map a))
            = Some (intOrFloat (AxisDescriptor.default a))) as -> by done.
  rewrite !Hfloat. cbn [mbind reading_bind].
  rewrite findall_fmap_same by done.
  rewrite (forM_fmap _ _ (λ io : Qc * Qc, (rounded io.1, rounded io.2))).
  2:{ intros [i o] _. unfold BaseDocReader.float_item, attrib_item.
      assert (get "input" (mapElement (i, o)) = Some (intOrFloat i)) as ->
        by done.
      assert (get "output" (mapElement (i, o)) = Some (intOrFloat o)) as ->
        by done.
      cbn [mbind reading_bind]. rewrite !Hfloat. done. }
  cbn [mbind reading_bind]. unfold reread_axis. f_equal. f_equal.
  by destruct (AxisDescriptor.hidden a).
Qed.

(** ** Locations *)

Lemma readDimension_written (self : BaseDocReader.reader) (loc : Location)
    (d : string * value) :
  BaseDocReader._strictAxisNames self = true →
  is_Some (BaseDocReader.axisDefaults self !! d.1) →
  BaseDocReader.readDimension float self loc (dimensionElement d)
  = Done (<[d.1 := rounded_value d.2]> loc).
Proof.
  intros Hstrict Hin. unfold BaseDocReader.readDimension. rewrite Hstrict.
  destruct d as [n [x|x y]]; cbn [fst snd] in *.
  - assert (get "name" (dimensionElement (n, Num x)) = Some n) as -> by done.
    assert (get "xvalue" (dimensionElement (n, Num x)) = Some (intOrFloat x))
      as -> by done.
    assert (get "yvalue" (dimensionElement (n, Num x)) = None) as -> by done.
    cbn [mbind option_bind]. rewrite bool_decide_true by done.
    cbn [negb andb]. rewrite Hfloat. done.
  - assert (get "name" (dimensionElement (n, Pair x y)) = Some n) as -> by done.
    assert (get "xvalue" (dimensionElement (n, Pair x y)) = Some (intOrFloat x))
      as -> by done.
    assert (get "yvalue" (dimensionElement (n, Pair x y)) = Some (intOrFloat y))
      as -> by done.
    cbn [mbind option_bind]. rewrite bool_decide_true by done.
    cbn [negb andb]. rewrite !Hfloat. done.
Qed.

Lemma foldR_dimensions (self : BaseDocReader.reader) (axes : list axis)
    (l loc : Location) :
  BaseDocReader._strictAxisNames self = true →
  (∀ a, a ∈ axes →
        is_Some (BaseDocReader.axisDefaults self !! AxisDescriptor.name a)) →
  ∃ new,
    foldR (BaseDocReader.readDimension float self) loc
          (dimensionElement <$> (dimension l <$> axes)) = Done new
    ∧ ∀ k, new !! k = match last_axis k axes with
                      | Some a => Some (rounded_value (dimension l a).2)
                      | None => loc !! k
                      end.
Proof.
  intros Hstrict. revert loc. induction axes as [|a rest IH]; intros loc Hin.
  - exists loc. by split.
  - cbn [fmap list_fmap foldR].
    rewrite readDimension_written; [|done|apply Hin; by left].
    cbn [mbind reading_bind].
    destruct (IH (<[(dimension l a).1 := rounded_value (dimension l a).2]> loc))
      as (new & Hnew & Hl).
    { intros b Hb. apply Hin. by right. }
    exists new. split; [exact Hnew|]. intros k. rewrite Hl.
    cbn [last_axis]. destruct (last_axis k rest); [done|].
    cbn [dimension fst]. case_decide as Hk.
    + subst k. by rewrite lookup_insert_eq.
    + by rewrite lookup_insert_ne.
Qed.

Lemma readLocationElement_written (self : BaseDocReader.reader)
    (axes : list axis) (l : Location) (name : option string) (le : element)
    (v : Location) :
  NoDup (AxisDescriptor.name <$> axes) →
  DesignSpaceDocument.axes (BaseDocReader.documentObject self) ≠ [] →
  BaseDocReader._strictAxisNames self = true →
  (∀ a, a ∈ axes →
        is_Some (BaseDocReader.axisDefaults self !! AxisDescriptor.name a)) →
  _makeLocationElement axes (Some l) name = Ok (le, v) →
  tag le = "location"
  ∧ BaseDocReader.readLocationElement float self le
    = Done (rounded_value <$> validated axes l).
Proof.
  intros Hnd Hax Hstrict Hin.
  rewrite _makeLocationElement_dimensions by (by rewrite getAxisOrder_eq).
  intros [= <- _]. split; [done|]. unfold BaseDocReader.readLocationElement.
  destruct (DesignSpaceDocument.axes (BaseDocReader.documentObject self));
    [done|].
  rewrite findall_fmap_same by (by intros [n [x|x y]]).
  destruct (foldR_dimensions self axes l ∅ Hstrict Hin) as (new & -> & Hl).
  f_equal. apply map_eq. intros k.
  rewrite Hl, lookup_fmap, validated_lookup, allDefaults_lookup, lookup_empty.
  destruct (last_axis k axes) as [a|] eqn:Ha; [|done]. cbn.
  apply last_axis_Some in Ha as [<- _]. done.
Qed.

(** ** Sources *)

Lemma get_source_attrib (s : source) (c : list element) :
  let e := Element "source" (source_attrib s) None c in
  get "filename" e = SourceDescriptor.filename s
  ∧ get "name" e = written_name (SourceDescriptor.name s)
  ∧ get "familyname" e = SourceDescriptor.familyName s
  ∧ get "stylename" e = SourceDescriptor.styleName s
  ∧ get "layer" e = SourceDescriptor.layerName s.
Proof.
  unfold source_attrib, get. cbn [attrib].
  destruct (SourceDescriptor.filename s),
    (written_name (SourceDescriptor.name s)),
    (SourceDescriptor.familyName s), (SourceDescriptor.styleName s),
    (SourceDescriptor.layerName s); repeat split; reflexivity.
Qed.

Lemma filter_when (t : string) (b : bool) (x : element) :
  filter (λ c, tag c = t) (when b x) = when (b && bool_decide (tag x = t)) x.
Proof.
  destruct b; [|done]. cbn [when andb]. rewrite filter_cons, filter_nil.
  case_decide.
  - by rewrite bool_decide_true.
  - by rewrite bool_decide_false.
Qed.

Lemma filter_source_children (t : string) (s : source) (le : element) :
  tag le = "location" →
  findall t (Element "source" (source_attrib s) None (source_children s ++ [le]))
  = when (SourceDescriptor.copyLib s && bool_decide ("lib" = t))
         (flagElement "lib" "copy")
    ++ when (SourceDescriptor.copyGroups s && bool_decide ("groups" = t))
            (flagElement "groups" "copy")
    ++ when (SourceDescriptor.copyFeatures s && bool_decide ("features" = t))
            (flagElement "features" "copy")
    ++ when ((SourceDescriptor.copyInfo s || SourceDescriptor.muteInfo s)
             && bool_decide ("info" = t))
            (Element "info"
               (opt_attrib "copy"
                  (if SourceDescriptor.copyInfo s then Some "1" else None)
                ++ opt_attrib "mute"
                     (if SourceDescriptor.muteInfo s then Some "1" else None))
               None [])
    ++ when (SourceDescriptor.muteKerning s && bool_decide ("kerning" = t))
            (flagElement "kerning" "mute")
    ++ (if decide ("glyph" = t)
        then (λ name, Element "glyph" [("name", name); ("mute", "1")] None [])
               <$> SourceDescriptor.mutedGlyphNames s
        else [])
    ++ when (bool_decide ("location" = t)) le.
Proof.
  intros Hle. unfold findall, source_children. cbn [children].
  rewrite <-!app_assoc, !filter_app, !filter_when.
  do 5 (apply (f_equal2 app); [reflexivity|]). apply (f_equal2 app).
  - case_decide.
    + apply filter_tag_all, Forall_fmap, Forall_forall. by intros n _.
    + apply filter_tag_none, Forall_fmap, Forall_forall. by intros n _.
  - change [le] with (when true le). rewrite filter_when, Hle. done.
Qed.

Lemma omap_muted (names : list string) :
  omap (λ glyphElement,
          match get "name" glyphElement with
          | Some glyphName =>
              if bool_decide (get "mute" glyphElement = Some "1")
              then Some glyphName else None
          | None => None
          end)
       ((λ name, Element "glyph" [("name", name); ("mute", "1")] None [])
          <$> names)
  = names.
Proof.
  induction names as [|n rest IH]; [done|].
  cbn [fmap list_fmap omap list_omap].
  change (list_fmap _ _ ?f rest) with (f <$> rest). rewrite IH. reflexivity.
Qed.

Lemma readSource_written (self : BaseDocReader.reader) (axes : list axis)
    (i : nat) (s : source) (l : Location) (le : element) (v : Location) :
  NoDup (AxisDescriptor.name <$> axes) →
  DesignSpaceDocument.axes (BaseDocReader.documentObject self) ≠ [] →
  BaseDocReader._strictAxisNames self = true →
  (∀ a, a ∈ axes →
        is_Some (BaseDocReader.axisDefaults self !! AxisDescriptor.name a)) →
  SourceDescriptor.location s = Some l →
  _makeLocationElement axes (Some l) None = Ok (le, v) →
  BaseDocReader.readSource float self i
    (Element "source" (source_attrib s) None (source_children s ++ [le]))
  = Done (reread_source axes i s).
Proof.
  intros Hnd Hax Hstrict Hin Hl Hle.
  destruct (readLocationElement_written self axes l None le v
              Hnd Hax Hstrict Hin Hle) as [Htag Hread].
  unfold BaseDocReader.readSource, BaseDocReader.locationFromElement,
    BaseDocReader.flagged.
  destruct (get_source_attrib s (source_children s ++ [le]))
    as (-> & -> & -> & -> & ->).
  rewrite !filter_source_children by done.
  unfold reread_source. rewrite Hl. cbn [fmap option_fmap option_map].
  assert (when (SourceDescriptor.copyLib s && bool_decide ("lib" = "location"))
            (flagElement "lib" "copy")
          ++ when (SourceDescriptor.copyGroups s
                   && bool_decide ("groups" = "location"))
                  (flagElement "groups" "copy")
          ++ when (SourceDescriptor.copyFeatures s
                   && bool_decide ("features" = "location"))
                  (flagElement "features" "copy")
          ++ when ((SourceDescriptor.copyInfo s || SourceDescriptor.muteInfo s)
                   && bool_decide ("info" = "location"))
                  (Element "info"
                     (opt_attrib "copy"
                        (if SourceDescriptor.copyInfo s then Some "1" else None)
                      ++ opt_attrib "mute"
                           (if SourceDescriptor.muteInfo s then Some "1"
                            else None))
                     None [])
          ++ when (SourceDescriptor.muteKerning s
                   && bool_decide ("kerning" = "location"))
                  (flagElement "kerning" "mute")
          ++ (if decide ("glyph" = "location")
              then (λ name, Element "glyph" [("name", name); ("mute", "1")]
                              None [])
                     <$> SourceDescriptor.mutedGlyphNames s
              else [])
          ++ when (bool_decide ("location" = "location")) le = [le]) as ->.
  { destruct (SourceDescriptor.copyLib s), (SourceDescriptor.copyInfo s),
      (SourceDescriptor.copyGroups s), (SourceDescriptor.copyFeatures s),
      (SourceDescriptor.muteKerning s), (SourceDescriptor.muteInfo s);
      reflexivity. }
  rewrite Hread. cbn [mbind reading_bind].
  f_equal.
  destruct s as [fn n loc layer cl ci cg cf mk mi muted fam sty].
  cbn [SourceDescriptor.filename SourceDescriptor.name SourceDescriptor.location
       SourceDescriptor.layerName SourceDescriptor.copyLib
       SourceDescriptor.copyInfo SourceDescriptor.copyGroups
       SourceDescriptor.copyFeatures SourceDescriptor.muteKerning
       SourceDescriptor.muteInfo SourceDescriptor.mutedGlyphNames
       SourceDescriptor.familyName SourceDescriptor.styleName].
  f_equal.
  all: try (by destruct (written_name n)).
  all: try (destruct cl, ci, cg, cf, mk, mi; reflexivity).
  destruct cl, ci, cg, cf, mk, mi; cbn [andb orb when app];
    rewrite ?app_nil_r; apply omap_muted.
Qed.

Lemma readSource_no_axes (self : BaseDocReader.reader) (i : nat) (s : source)
    (le : element) :
  DesignSpaceDocument.axes (BaseDocReader.documentObject self) = [] →
  tag le = "location" →
  BaseDocReader.readSource float self i
    (Element "source" (source_attrib s) None (source_children s ++ [le]))
  = Fail DesignSpaceDocumentError.
Proof.
  intros Hax Htag.
  unfold BaseDocReader.readSource, BaseDocReader.locationFromElement,
    BaseDocReader.readLocationElement.
  rewrite !filter_source_children by done. rewrite Hax.
  destruct (SourceDescriptor.copyLib s), (SourceDescriptor.copyInfo s),
    (SourceDescriptor.copyGroups s), (SourceDescriptor.copyFeatures s),
    (SourceDescriptor.muteKerning s), (SourceDescriptor.muteInfo s);
    reflexivity.
Qed.

(** X21. Reading the rules of a tree that [write] has built gives, for each
    rule that was written (one with a substitution or a bounded condition),
    in order, a rule with the same name and substitutions whose condition
    sets are those that had a bounded condition, reduced to their bounded
    conditions, with every bound rounded as the writer prints it; rules,
    condition sets and conditions that were not written are gone. *)
Theorem readRules_write (self : document) :
  Forall (λ s, is_Some (SourceDescriptor.location s))
         (DesignSpaceDocument.sources self) →
  ∃ w, write self = Ok w ∧
    BaseDocReader.readRules float (root w)
    = Done (reread_rule <$> filter rule_written (DesignSpaceDocument.rules self)).
Proof.
  intros Hsrc.
  destruct (write_document self Hsrc) as (w & ses & ies & Hw & Hroot & _).
  exists w. split; [done|]. unfold BaseDocReader.readRules. rewrite Hroot.
  destruct (findall2_sections (DesignSpaceDocument.axes self)
              (DesignSpaceDocument.rules self)
              (DesignSpaceDocument.sources self)
              (DesignSpaceDocument.instances self) [("format", "4.0")]
              (axisElement <$> DesignSpaceDocument.axes self)
              (omap emitted_rule (DesignSpaceDocument.rules self)) ses ies)
    as (_ & -> & _).
  rewrite omap_emitted_rule.
  assert (filter (λ c, tag c = "rule")
            (ruleElement <$> filter rule_written (DesignSpaceDocument.rules self))
          = ruleElement <$> filter rule_written (DesignSpaceDocument.rules self))
    as Hf.
  { apply filter_tag_all, Forall_fmap, Forall_forall. intros r _. cbn.
    by rewrite ruleElement_eq. }
  destruct (DesignSpaceDocument.rules self) as [|r0 rules] eqn:Hrules; [done|].
  rewrite Hf. apply forM_fmap. intros r _. apply readRule_written.
Qed.

Lemma readAxes_written {R S I : Type} (axes : list axis) (rules : list R)
    (srcs : list S) (insts : list I) (c2 c3 c4 : list element) :
  let root := Element "designspace" [("format", "4.0")] None
                (sec "axes" axes (axisElement <$> axes) ++ sec "rules" rules c2
                 ++ sec "sources" srcs c3 ++ sec "instances" insts c4) in
  BaseDocReader.readAxes float (BaseDocReader.new_reader root empty_document)
  = Done (BaseDocReader.mk_reader root
            (match axes with [] => false | _ :: _ => true end)
            (foldl (λ d a, <[AxisDescriptor.name a := AxisDescriptor.default a]> d)
                   ∅ (reread_axis <$> axes))
            (DesignSpaceDocument.mk [] [] (reread_axis <$> axes) [] None
               (match axes with
                | [] => None
                | _ :: _ => Some (allDefaults (reread_axis <$> axes))
                end))).
Proof.
  intros root. unfold BaseDocReader.readAxes, BaseDocReader.new_reader.
  cbn [BaseDocReader.root BaseDocReader.documentObject
       BaseDocReader.axisDefaults BaseDocReader._strictAxisNames].
  subst root.
  destruct (findall2_sections axes rules srcs insts [("format", "4.0")]
              (axisElement <$> axes) c2 c3 c4) as (-> & _ & _).
  destruct axes as [|a0 rest] eqn:Haxes; [done|].
  rewrite filter_tag_all
    by (apply Forall_fmap, Forall_forall; intros a _; cbn;
        by rewrite axisElement_eq).
  destruct (axisElement <$> a0 :: rest) as [|e0 es] eqn:He; [done|].
  rewrite <-He.
  rewrite (forM_fmap _ _ reread_axis) by (intros a _; apply readAxis_written).
  cbn [mbind reading_bind empty_document DesignSpaceDocument.sources
       DesignSpaceDocument.instances DesignSpaceDocument.axes
       DesignSpaceDocument.rules DesignSpaceDocument.default app].
  by rewrite axisDefaults_allDefaults.
Qed.

(** X22. Reading the axes of a tree that [write] has built, into a new
    document, gives the axes of the written document in order, with tag,
    name and hidden flag as they were and every number (minimum, maximum,
    default, map inputs and outputs) rounded as the writer prints it. When
    there are axes, [defaultLoc] becomes the location with every axis at its
    (rounded) default; when there are none, [defaultLoc] stays None and the
    reader stops checking dimension names. *)
Theorem readAxes_write (self : document) :
  Forall (λ s, is_Some (SourceDescriptor.location s))
         (DesignSpaceDocument.sources self) →
  let axes := reread_axis <$> DesignSpaceDocument.axes self in
  ∃ w r,
    write self = Ok w ∧
    BaseDocReader.readAxes float (BaseDocReader.new_reader (root w) empty_document)
      = Done r ∧
    DesignSpaceDocument.axes (BaseDocReader.documentObject r) = axes ∧
    DesignSpaceDocument.defaultLoc (BaseDocReader.documentObject r)
      = match axes with [] => None | _ :: _ => Some (allDefaults axes) end ∧
    BaseDocReader._strictAxisNames r
      = match axes with [] => false | _ :: _ => true end.
Proof.
  intros Hsrc axes.
  destruct (write_document self Hsrc) as (w & ses & ies & Hw & Hroot & _).
  exists w. rewrite Hroot, readAxes_written. eexists. split; [done|].
  split; [done|]. subst axes.
  cbn [BaseDocReader.documentObject BaseDocReader._strictAxisNames
       DesignSpaceDocument.axes DesignSpaceDocument.defaultLoc].
  by destruct (DesignSpaceDocument.axes self).
Qed.

(** X23. Reading the axes and then the sources of a tree that [write] has
    built (unique axis names, at least one axis) gives back the sources in
    order: the location of each is the validated location that [write]
    stored, with its numbers rounded as the writer prints them; the name is
    kept, unless it was absent or began with [temp_master], in which case
    the source is named [temp_master.N] after its position; the file name
    is put in POSIX form; layer, family and style names, the copy and mute
    flags and the muted glyph names are as they were. *)
Theorem readSources_write (self : document) :
  Forall (λ s, is_Some (SourceDescriptor.location s))
         (DesignSpaceDocument.sources self) →
  NoDup (getAxisOrder (DesignSpaceDocument.axes self)) →
  DesignSpaceDocument.axes self ≠ [] →
  ∃ w r1 r2,
    write self = Ok w ∧
    BaseDocReader.readAxes float (BaseDocReader.new_reader (root w) empty_document)
      = Done r1 ∧
    BaseDocReader.readSources float r1 = Done r2 ∧
    DesignSpaceDocument.sources (BaseDocReader.documentObject r2)
      = imap (reread_source (DesignSpaceDocument.axes self))
             (DesignSpaceDocument.sources self).
Proof.
  intros Hsrc Hnd Hax. rewrite getAxisOrder_eq in Hnd.
  destruct (write_source_elements self Hsrc)
    as (w & ses & ies & Hw & Hroot & Hses).
  exists w. rewrite Hroot, readAxes_written. eexists _, _.
  split; [done|]. split; [done|]. unfold BaseDocReader.readSources.
  cbn [BaseDocReader.root BaseDocReader.documentObject
       BaseDocReader.axisDefaults BaseDocReader._strictAxisNames].
  destruct (findall2_sections (DesignSpaceDocument.axes self)
              (DesignSpaceDocument.rules self)
              (DesignSpaceDocument.sources self)
              (DesignSpaceDocument.instances self) [("format", "4.0")]
              (axisElement <$> DesignSpaceDocument.axes self)
              (omap emitted_rule (DesignSpaceDocument.rules self)) ses ies)
    as (_ & _ & ->).
  assert (match DesignSpaceDocument.sources self with
          | [] => []
          | _ :: _ => filter (λ c, tag c = "source") ses
          end = ses) as ->.
  { destruct Hses as [|s e l es (loc & le & v & _ & _ & ->) Hrest]; [done|].
    apply filter_tag_all. constructor; [done|].
    eapply Forall2_Forall_r; [exact Hrest|]. apply Forall_forall.
    intros s' _ e' (? & ? & ? & _ & _ & ->). done. }
  rewrite (forM_imap_Forall2 _ _
             (reread_source (DesignSpaceDocument.axes self)) _ _ Hses).
  - cbn [mbind reading_bind]. split; [reflexivity|]. reflexivity.
  - intros i s e _ (loc & le & v & Hloc & Hle & ->). cbn [fst snd].
    apply (readSource_written _ _ i s loc le v); try done.
    + cbn [BaseDocReader.documentObject DesignSpaceDocument.axes].
      by destruct (DesignSpaceDocument.axes self).
    + cbn [BaseDocReader._strictAxisNames].
      by destruct (DesignSpaceDocument.axes self).
    + intros a Ha. cbn [BaseDocReader.axisDefaults].
      rewrite axisDefaults_fold, last_axis_fmap by done.
      destruct (last_axis (AxisDescriptor.name a) (DesignSpaceDocument.axes self))
        as [b|] eqn:Hb; [by eexists|].
      apply last_axis_None in Hb. destruct Hb. by apply list_elem_of_fmap_2.
Qed.

(** X24. A document without axes whose sources have a location is written
    by [write], but what was written cannot be read back: the location
    element of the first source makes the reader raise
    DesignSpaceDocumentError, as no axes are defined. *)
Theorem readSources_without_axes (self : document) :
  DesignSpaceDocument.axes self = [] →
  DesignSpaceDocument.sources self ≠ [] →
  Forall (λ s, is_Some (SourceDescriptor.location s))
         (DesignSpaceDocument.sources self) →
  ∃ w r1,
    write self = Ok w ∧
    BaseDocReader.readAxes float (BaseDocReader.new_reader (root w) empty_document)
      = Done r1 ∧
    BaseDocReader.readSources float r1 = Fail DesignSpaceDocumentError.
Proof.
  intros Hax Hne Hsrc.
  destruct (write_source_elements self Hsrc)
    as (w & ses & ies & Hw & Hroot & Hses).
  exists w. rewrite Hroot, readAxes_written. eexists.
  split; [done|]. split; [done|]. unfold BaseDocReader.readSources.
  cbn [BaseDocReader.root BaseDocReader.documentObject
       BaseDocReader.axisDefaults BaseDocReader._strictAxisNames].
  destruct (findall2_sections (DesignSpaceDocument.axes self)
              (DesignSpaceDocument.rules self)
              (DesignSpaceDocument.sources self)
              (DesignSpaceDocument.instances self) [("format", "4.0")]
              (axisElement <$> DesignSpaceDocument.axes self)
              (omap emitted_rule (DesignSpaceDocument.rules self)) ses ies)
    as (_ & _ & ->).
  destruct Hses as [|s e l es (loc & le & v & Hloc & Hle & ->) Hrest]; [done|].
  rewrite filter_cons, decide_True by done. cbn [imap forM].
  assert (tag le = "location") as Htag.
  { revert Hle. rewrite Hax.
    rewrite (_makeLocationElement_dimensions [] loc None)
      by (rewrite getAxisOrder_eq; constructor).
    by intros [= <- _]. }
  cbn beta. cbn [fst snd]. rewrite readSource_no_axes; [done| |done].
  cbn [BaseDocReader.documentObject DesignSpaceDocument.axes].
  by rewrite Hax.
Qed.

End Reading.

Lemma readRules_write_witness :
  ∃ w, write partial_document = Ok w ∧
    (λ r, (RuleDescriptor.name r,
           (λ cs : list condition,
              (λ c : condition, (Condition.name c, this <$> Condition.minimum c,
                                 this <$> Condition.maximum c)) <$> cs)
             <$> RuleDescriptor.conditionSets r,
           RuleDescriptor.subs r))
    <$> match BaseDocReader.readRules py_float (root w) with
        | Done rules => rules
        | Fail _ => []
        end
    = [(Some "vertical.bars",
        [[("weight", Some (250 # 1), Some (750 # 1));
          ("width", Some (100 # 1), None)]],
        [("cent", "cent.alt"); ("dollar", "dollar.alt")])]%Q.
Proof.
  destruct (readRules_write py_float py_float_reads_back partial_document)
    as (w & Hw & Hr).
  - repeat constructor. by eexists.
  - exists w. split; [exact Hw|]. rewrite Hr. by vm_compute.
Defined.

Lemma readAxes_write_witness :
  ∃ w r,
    write ruled_document = Ok w ∧
    BaseDocReader.readAxes py_float
      (BaseDocReader.new_reader (root w) empty_document) = Done r ∧
    (λ a, (AxisDescriptor.name a, this (AxisDescriptor.minimum a),
           this (AxisDescriptor.default a), this (AxisDescriptor.maximum a)))
      <$> DesignSpaceDocument.axes (BaseDocReader.documentObject r)
    = [("weight", 0 # 1, 400 # 1, 1000 # 1);
       ("width", 50 # 1, 100 # 1, 150 # 1)]%Q.
Proof.
  destruct (readAxes_write py_float py_float_reads_back ruled_document)
    as (w & r & Hw & Hr & Hax & _).
  - repeat constructor. by eexists.
  - exists w, r. split; [exact Hw|]. split; [exact Hr|]. rewrite Hax.
    by vm_compute.
Defined.

Lemma readSources_write_witness :
  ∃ w r1 r2,
    write ruled_document = Ok w ∧
    BaseDocReader.readAxes py_float
      (BaseDocReader.new_reader (root w) empty_document) = Done r1 ∧
    BaseDocReader.readSources py_float r1 = Done r2 ∧
    (λ s, (SourceDescriptor.name s,
           (λ l, (λ kv : string * value, (kv.1, this (scalar kv.2)))
                   <$> map_to_list l) <$> SourceDescriptor.location s))
      <$> DesignSpaceDocument.sources (BaseDocReader.documentObject r2)
    = [(Some "bold", Some [("weight", 700 # 1); ("width", 75 # 1)])]%Q.
Proof.
  destruct (readSources_write py_float py_float_reads_back ruled_document)
    as (w & r1 & r2 & Hw & Hr1 & Hr2 & Hs).
  - repeat constructor. by eexists.
  - apply (bool_decide_unpack _). by vm_compute.
  - done.
  - exists w, r1, r2. split; [exact Hw|]. split; [exact Hr1|].
    split; [exact Hr2|]. rewrite Hs. by vm_compute.
Defined.

Lemma readSources_without_axes_witness :
  ∃ w r1,
    write axisless_document = Ok w ∧
    BaseDocReader.readAxes py_float
      (BaseDocReader.new_reader (root w) empty_document) = Done r1 ∧
    BaseDocReader.readSources py_float r1 = Fail DesignSpaceDocumentError.
Proof.
  apply (readSources_without_axes py_float py_float_reads_back
           axisless_document).
  - reflexivity.
  - done.
  - repeat constructor. by eexists.
Defined.
